(** * omnistorage-github: the GitHub repository backend of omnistorage

    A shallow embedding of [backend/github/backend.go], of the batch
    committer and of the configuration helpers, together with the
    properties of the path layer, of the single-object writer and delete,
    of the lister and of the atomic batch commit.

    Go strings are byte sequences: they are [string] here, and the byte
    loops of the Go standard library run over [list ascii]. *)

From Stdlib Require Import ZArith Ascii String List Lia Bool DecimalString.
From Stdlib Require DecimalNat.
From stdpp Require Import base option list strings gmap fin_maps.

Local Open Scope string_scope.
Local Open Scope list_scope.

(** ** Go standard library: package strings *)

Module strings.

(** [strings.HasPrefix(s, prefix)]. *)
Fixpoint HasPrefix (s prefix : string) {struct prefix} : bool :=
  match prefix, s with
  | EmptyString, _ => true
  | String c prefix', String d s' => Ascii.eqb d c && HasPrefix s' prefix'
  | String _ _, EmptyString => false
  end.

(** [strings.TrimPrefix(s, prefix)]: [s] without the leading [prefix],
    or [s] itself when it does not start with [prefix]. *)
Definition TrimPrefix (s prefix : string) : string :=
  if HasPrefix s prefix
  then String.substring (String.length prefix)
                        (String.length s - String.length prefix) s
  else s.

(** [strings.Contains(s, substr)]: [substr] occurs at some index of [s]. *)
Fixpoint Contains (s substr : string) : bool :=
  HasPrefix s substr ||
  match s with
  | EmptyString => false
  | String _ s' => Contains s' substr
  end.

(** [strings.ReplaceAll(s, old, new)] for a non-empty [old]: the
    non-overlapping occurrences of [old] are replaced from left to right.
    [skip] counts the bytes of a match that are still to be dropped.
    Both call sites of the backend pass a non-empty literal for [old];
    the rune-boundary insertion Go performs for an empty [old] is not
    used by the backend, and [s] is returned as it is in that case. *)
Fixpoint replace_from (skip : nat) (s old new : string) : string :=
  match s with
  | EmptyString => EmptyString
  | String c s' =>
      match skip with
      | S k => replace_from k s' old new
      | O =>
          if HasPrefix s old
          then new +:+ replace_from (String.length old - 1) s' old new
          else String c (replace_from 0 s' old new)
      end
  end.

Definition ReplaceAll (s old new : string) : string :=
  match old with
  | EmptyString => s
  | String _ _ => replace_from 0 s old new
  end.

End strings.

(** ** Go standard library: package path

    [path.Clean] as the Go distribution has it in [src/path/path.go]:
    one pass over the bytes of the path, writing into a buffer. *)

Module path.

Definition slash : ascii := "/"%char.
Definition dot : ascii := "."%char.

(** The [lazybuf] of [path.Clean] is modelled by its logical content:
    the first [w] bytes of the buffer, so that [out.w] is the length of
    the list and [out.append(c)] adds [c] at its end. *)
Definition append (out : list ascii) (c : ascii) : list ascii := out ++ [c].

(** The backtracking of a [..] element:
    [out.w--; for out.w > dotdot && out.index(out.w) != '/' { out.w-- }].
    It runs over the reversed content; [c] is the byte at index [out.w],
    the one dropped last. *)
Fixpoint backtrack_loop (dotdot : nat) (c : ascii) (rout : list ascii)
  : list ascii :=
  if (dotdot <? length rout)%nat && negb (Ascii.eqb c slash)
  then match rout with
       | c' :: rout' => backtrack_loop dotdot c' rout'
       | [] => []
       end
  else rout.

Definition backtrack (dotdot : nat) (out : list ascii) : list ascii :=
  match rev out with
  | c :: rout => rev (backtrack_loop dotdot c rout)
  | [] => []
  end.

(** [for ; r < n && path[r] != '/'; r++ { out.append(path[r]) }]:
    returns the input left and the buffer. *)
Fixpoint copy_element (rest out : list ascii) : list ascii * list ascii :=
  match rest with
  | c :: rest' =>
      if Ascii.eqb c slash then (rest, out)
      else copy_element rest' (append out c)
  | [] => ([], out)
  end.

(** [r+k == n || path[r+k] == '/'] on the input left after [r+k]. *)
Definition at_boundary (rest : list ascii) : bool :=
  match rest with
  | [] => true
  | c :: _ => Ascii.eqb c slash
  end.

(** The main loop [for r < n { switch ... }] over the input [path[r:]].
    Every iteration consumes a byte, so [length path] iterations are
    enough; [fuel] bounds them. *)
Fixpoint clean_loop (fuel : nat) (rooted : bool) (rest out : list ascii)
  (dotdot : nat) : list ascii :=
  match fuel with
  | O => out
  | S fuel' =>
      match rest with
      | [] => out
      | c :: rest1 =>
          if Ascii.eqb c slash then
            (* empty path element *)
            clean_loop fuel' rooted rest1 out dotdot
          else if Ascii.eqb c dot && at_boundary rest1 then
            (* . element *)
            clean_loop fuel' rooted rest1 out dotdot
          else if Ascii.eqb c dot
                  && match rest1 with
                     | c1 :: rest2 => Ascii.eqb c1 dot && at_boundary rest2
                     | [] => false
                     end then
            (* .. element: remove to last / *)
            let rest2 := tl rest1 in
            if (dotdot <? length out)%nat then
              (* can backtrack *)
              clean_loop fuel' rooted rest2 (backtrack dotdot out) dotdot
            else if negb rooted then
              (* cannot backtrack, but not rooted, so append .. element. *)
              let out1 := if (0 <? length out)%nat then append out slash
                          else out in
              let out2 := append (append out1 dot) dot in
              clean_loop fuel' rooted rest2 out2 (length out2)
            else
              clean_loop fuel' rooted rest2 out dotdot
          else
            (* real path element. add slash if needed *)
            let out1 :=
              if (rooted && negb (length out =? 1)%nat)
                 || (negb rooted && negb (length out =? 0)%nat)
              then append out slash else out in
            (* copy element *)
            let '(rest', out2) := copy_element rest out1 in
            clean_loop fuel' rooted rest' out2 dotdot
      end
  end.

Definition clean_bytes (p : list ascii) : list ascii :=
  match p with
  | [] => [dot]
  | c :: _ =>
      let rooted := Ascii.eqb c slash in
      let out :=
        if rooted then clean_loop (length p) rooted (tl p) [slash] 1
        else clean_loop (length p) rooted p [] 0 in
      (* Turn empty string into "." *)
      if (length out =? 0)%nat then [dot] else out
  end.

(** [path.Clean(path)]. *)
Definition Clean (p : string) : string :=
  string_of_list_ascii (clean_bytes (list_ascii_of_string p)).

End path.

(** ** Configuration (config.go) *)

Record CommitAuthor : Type := { Name : string; Email : string }.

Record Config : Type := {
  Owner : string;
  Repo : string;
  Branch : string;
  Token : string;
  BaseURL : string;
  UploadURL : string;
  CommitMessage : string;
  (** the field [CommitAuthor]: [None] is the nil pointer *)
  cfgCommitAuthor : option CommitAuthor
}.

(** [Config.FormatCommitMessage]. *)
Definition FormatCommitMessage (c : Config) (filePath : string) : string :=
  let msg := CommitMessage c in
  let msg := if String.eqb msg "" then "Update {path} via omnistorage"
             else msg in
  strings.ReplaceAll msg "{path}" filePath.

(** ** The GitHub client

    The go-github client is the boundary of the backend.  A call is
    recorded with the arguments the backend chooses ([Owner] and [Repo]
    are passed unchanged to every call and are left out); its reply is
    whatever the remote store answers. *)

(** [*github.RepositoryContent], read through its getters; [GetContent]
    is [None] when decoding fails. *)
Record RepositoryContent : Type := {
  GetType : string;
  GetSHA : string;
  GetSize : Z;
  GetContent : option string
}.

(** [github.RepositoryContentFileOptions]. *)
Record RepositoryContentFileOptions : Type := {
  optMessage : string;
  optContent : string;
  optSHA : option string;
  optBranch : string;
  optAuthor : option CommitAuthor
}.

(** [github.Reference]: the ref name and [Object.SHA]. *)
Record Reference : Type := { Ref : string; ObjectSHA : string }.

(** [github.TreeEntry]; the string getters return "" for a nil field,
    [entrySHA] is the pointer itself. *)
Record TreeEntry : Type := {
  entryPath : string;
  entryMode : string;
  entryType : string;
  entrySHA : option string
}.

(** [github.Commit] as the backend reads and builds it. *)
Record Commit : Type := {
  commitSHA : string;
  commitMessage : string;
  commitTree : string;           (** [Tree.SHA] *)
  commitParents : list string;   (** the [SHA] of every parent *)
  commitAuthor : option CommitAuthor
}.

(** [github.Tree]. *)
Record Tree : Type := { treeSHA : string; Entries : list TreeEntry }.

(** The errors of the client. *)
Inductive ApiError : Type :=
| ErrorResponse (status : option Z)
    (** [*github.ErrorResponse], with the status code of its [Response]
        when that is not nil *)
| TransportError (msg : string)
    (** an error of any other type *).

(** The four results of [Repositories.GetContents]; [resp] is the HTTP
    status of the response, when there is a response. *)
Record Contents : Type := {
  fileContent : option RepositoryContent;
  directoryContent : option (list RepositoryContent);
  contentsResp : option Z;
  contentsErr : option ApiError
}.

(** Every other call returns its value with a nil error, or a non-nil
    error together with the response (if any). *)
Inductive Reply (A : Type) : Type :=
| Success (a : A)
| Failure (resp : option Z) (err : ApiError).
Arguments Success {A} a.
Arguments Failure {A} resp err.

Inductive Call : Type :=
| GetContents (path ref : string)
| CreateFile (path : string) (opts : RepositoryContentFileOptions)
| DeleteFile (path : string) (opts : RepositoryContentFileOptions)
| GetRef (ref : string)
| GetCommit (sha : string)
| CreateBlob (content encoding : string)
| CreateTree (baseTree : string) (entries : list TreeEntry)
| CreateCommit (commit : Commit)
| UpdateRef (ref : Reference) (force : bool)
| GetTree (sha : string) (recursive : bool).

Definition Answer (c : Call) : Type :=
  match c with
  | GetContents _ _ => Contents
  | CreateFile _ _ | DeleteFile _ _ => Reply unit
  | GetRef _ | UpdateRef _ _ => Reply Reference
  | GetCommit _ | CreateCommit _ => Reply Commit
  | CreateBlob _ _ => Reply (option string)   (** [blob.SHA] *)
  | CreateTree _ _ | GetTree _ _ => Reply Tree
  end.

(** A mutation of the contents API. *)
Definition is_mutation (c : Call) : bool :=
  match c with
  | CreateFile _ _ | DeleteFile _ _ => true
  | _ => false
  end.

(** [context.Canceled] and [context.DeadlineExceeded]. *)
Inductive ctx_error : Type := Canceled | DeadlineExceeded.

(** The errors the backend returns. *)
Inductive error : Type :=
| ErrNotFound
| ErrPermissionDenied
| ErrInvalidPath
| ErrNotSupported
| ErrWriterClosed
| ErrBackendClosed
| ErrContext (e : ctx_error)         (** [ctx.Err()] *)
| ErrBatchCommitted                  (** "github: batch already committed" *)
| ErrPathIsDirectory (p : string)    (** "github: path is a directory: %s" *)
| ErrCannotDeleteDirectory (p : string)
                                     (** "github: cannot delete directory: %s" *)
| ErrDecodingContent                 (** "github: decoding content: %w" *)
| ErrWrapped (e : ApiError)          (** [fmt.Errorf("github: %w", err)] *).

(** A Go pair (value, error). *)
Inductive res (A : Type) : Type :=
| Ok (a : A)
| Err (e : error).
Arguments Ok {A} a.
Arguments Err {A} e.

(** ** Path validation and normalisation (backend.go) *)

(** [validatePath]: [None] is Go's [nil]. *)
Definition validatePath (p : string) : option error :=
  if String.eqb p "" then None (* Empty path is valid (root) *)
  else if strings.Contains p ".." then Some ErrInvalidPath
  else None.

(** [normalizePath]. *)
Definition normalizePath (p : string) : string :=
  if String.eqb p "" then ""
  else
    let p1 := path.Clean p in
    let p2 := strings.TrimPrefix p1 "/" in
    if String.eqb p2 "." then "" else p2.

(** The segments of a path: the pieces between its slashes. *)
Fixpoint segments (p : string) : list string :=
  match p with
  | EmptyString => [""]
  | String c p' =>
      if Ascii.eqb c path.slash then "" :: segments p'
      else match segments p' with
           | seg :: segs => String c seg :: segs
           | [] => [String c ""]
           end
  end.

(** The [switch] on a status code of [translateError]. *)
Definition classify_status (code : Z) : option error :=
  if (code =? 404)%Z then Some ErrNotFound
  else if (code =? 403)%Z || (code =? 401)%Z then Some ErrPermissionDenied
  else None.

(** [translateError]. *)
Definition translateError (err : option ApiError) (resp : option Z)
  : option error :=
  match err with
  | None => None
  | Some e =>
      (* Check response status code *)
      match resp ≫= classify_status with
      | Some e' => Some e'
      | None =>
          (* Check error response type *)
          match e with
          | ErrorResponse (Some code) =>
              match classify_status code with
              | Some e' => Some e'
              | None => Some (ErrWrapped e)
              end
          | _ => Some (ErrWrapped e)
          end
      end
  end.

(** ** The segment view of [path.Clean]

    [path.Clean] reads its input as a sequence of elements separated by
    slashes.  The definitions below describe that reading: the elements of
    a byte string, the effect of one element on the buffer, and the buffer
    that stands for a stack of elements. *)

Module clean_spec.
Import path.

(** The non-empty slash-free runs of [s], from left to right; [cur] is
    the run being read. *)
Fixpoint tokens_aux (cur s : list ascii) : list (list ascii) :=
  match s with
  | [] => if decide (cur = []) then [] else [cur]
  | c :: s' =>
      if Ascii.eqb c slash
      then (if decide (cur = []) then tokens_aux [] s'
            else cur :: tokens_aux [] s')
      else tokens_aux (cur ++ [c]) s'
  end.

Definition tokens (s : list ascii) : list (list ascii) := tokens_aux [] s.

(** One iteration of the loop of [path.Clean] on a whole element. *)
Definition step (rooted : bool) (st : list ascii * nat) (tok : list ascii)
  : list ascii * nat :=
  let '(out, dotdot) := st in
  if decide (tok = [dot]) then st
  else if decide (tok = [dot; dot]) then
    if (dotdot <? length out)%nat then (backtrack dotdot out, dotdot)
    else if negb rooted then
      let out1 := if (0 <? length out)%nat then append out slash else out in
      let out2 := append (append out1 dot) dot in
      (out2, length out2)
    else st
  else
    let out1 :=
      if (rooted && negb (length out =? 1)%nat)
         || (negb rooted && negb (length out =? 0)%nat)
      then append out slash else out in
    (out1 ++ tok, dotdot).

(** Elements joined by single slashes. *)
Fixpoint join (stk : list (list ascii)) : list ascii :=
  match stk with
  | [] => []
  | [t] => t
  | t :: ts => t ++ slash :: join ts
  end.

Definition root (rooted : bool) : list ascii :=
  if rooted then [slash] else [].

Definition dots (k : nat) : list (list ascii) := repeat [dot; dot] k.

(** The slash written before an element that is not the first. *)
Definition sep (stk : list (list ascii)) : list ascii :=
  match stk with [] => [] | _ :: _ => [slash] end.

(** The loop state that stands for [k] leading [..] elements followed by
    the elements [elems]. *)
Definition state_of (rooted : bool) (k : nat) (elems : list (list ascii))
  : list ascii * nat :=
  (root rooted ++ join (dots k ++ elems),
   length (root rooted ++ join (dots k))).

(** A well-formed element, and one that is neither [.] nor [..]. *)
Definition valid (t : list ascii) : Prop := t <> [] /\ ~ In slash t.
Definition normal (t : list ascii) : Prop :=
  valid t /\ t <> [dot] /\ t <> [dot; dot].

(** The states the loop of [path.Clean] reaches. *)
Definition reachable (rooted : bool) (st : list ascii * nat) : Prop :=
  exists k elems, st = state_of rooted k elems /\ Forall normal elems
                  /\ (rooted = true -> k = 0%nat).

(** Do the two bytes [..] occur in a byte string ? *)
Fixpoint has_dotdot (l : list ascii) : bool :=
  match l with
  | [] => false
  | c :: l' =>
      (Ascii.eqb c dot
       && match l' with
          | d :: _ => Ascii.eqb d dot
          | [] => false
          end)
      || has_dotdot l'
  end.

(** [normalizePath] on bytes. *)
Definition trim_slash (s : list ascii) : list ascii :=
  match s with
  | c :: s' => if Ascii.eqb c slash then s' else s
  | [] => []
  end.

Definition normalize_bytes (p : list ascii) : list ascii :=
  match p with
  | [] => []
  | _ :: _ =>
      let c := trim_slash (clean_bytes p) in
      if decide (c = [dot]) then [] else c
  end.

End clean_spec.

(** ** The backend (backend.go)

    The remote store and the transport are a state of type [W]; [client]
    answers a call in a state and gives the next one.  Operations run in
    a state monad that also records the calls issued, in order.  The
    locks are not modelled: every operation runs on its own. *)

Section Backend.

Context {W : Type}.
Variable client : forall c : Call, W -> Answer c * W.

Record State : Type := { world : W; trace : list Call }.

Definition M (A : Type) : Type := State -> A * State.

Definition ret {A : Type} (a : A) : M A := fun s => (a, s).

Definition bind {A B : Type} (m : M A) (k : A -> M B) : M B :=
  fun s => let '(a, s') := m s in k a s'.

Notation "x <- m ;; k" := (bind m (fun x => k))
  (at level 100, m at next level, right associativity).

(** One call through the client. *)
Definition call (c : Call) : M (Answer c) :=
  fun s =>
    let '(a, w') := client c (world s) in
    (a, {| world := w'; trace := trace s ++ [c] |}).

(** The state after the calls [calls] have led to the world [w']. *)
Definition after (s : State) (w' : W) (calls : list Call) : State :=
  {| world := w'; trace := trace s ++ calls |}.

(** A [context.Context] is read through [ctx.Err()], which depends on
    the moment it is asked. *)
Definition Ctx : Type := W -> option ctx_error.

Definition ctx_Err (ctx : Ctx) : M (option error) :=
  fun s => (ErrContext <$> ctx (world s), s).

(** [Backend]: the client is the section variable. *)
Record Backend : Type := { config : Config; closed : bool }.

(** [writer]; [backend] is a pointer, and the operations below take
    the backend it points to. *)
Record writer : Type := {
  w_ctx : Ctx;
  filePath : string;
  buffer : string;
  w_closed : bool
}.

Definition with_closed (w : writer) (c : bool) : writer :=
  {| w_ctx := w_ctx w; filePath := filePath w; buffer := buffer w;
     w_closed := c |}.

(** [Backend.checkClosed]. *)
Definition checkClosed (b : Backend) : option error :=
  if closed b then Some ErrBackendClosed else None.

(** The checks every operation starts with:
    [checkClosed], [ctx.Err()] and, when [validate] is set,
    [validatePath]; [None] when all pass. *)
Definition guards (b : Backend) (ctx : Ctx) (validate : option string)
  : M (option error) :=
  match checkClosed b with
  | Some e => ret (Some e)
  | None =>
      e <- ctx_Err ctx ;;
      match e with
      | Some e => ret (Some e)
      | None => ret (validate ≫= validatePath)
      end
  end.

(** [Backend.NewWriter]. *)
Definition NewWriter (b : Backend) (ctx : Ctx) (filePath : string)
  : M (res writer) :=
  e <- guards b ctx (Some filePath) ;;
  match e with
  | Some e => ret (Err e)
  | None =>
      if String.eqb filePath "" then ret (Err ErrInvalidPath)
      else ret (Ok {| w_ctx := ctx; filePath := normalizePath filePath;
                      buffer := ""; w_closed := false |})
  end.

(** [writer.Write]: the bytes written, the error and the writer. *)
Definition writer_Write (w : writer) (p : string)
  : Z * option error * writer :=
  if w_closed w then (0%Z, Some ErrWriterClosed, w)
  else (Z.of_nat (String.length p), None,
        {| w_ctx := w_ctx w; filePath := filePath w;
           buffer := buffer w +:+ p; w_closed := w_closed w |}).

Definition status_is (resp : option Z) (code : Z) : bool :=
  match resp with
  | Some c => (c =? code)%Z
  | None => false
  end.

(** The lookup of [writer.Close] (the statements on [existingSHA]):
    [inl sha] goes on with that version marker, [inr e] returns [e]. *)
Definition existingSHA (r : Contents) : option string + option error :=
  match contentsErr r, fileContent r with
  | None, Some fc => inl (Some (GetSHA fc))
  | err, _ =>
      match contentsResp r with
      | Some code =>
          if negb (code =? 404)%Z then
            (* Only ignore 404 errors (file doesn't exist yet) *)
            match err with
            | Some (ErrorResponse st) =>
                if negb (status_is st 404)
                then inr (translateError err (contentsResp r))
                else inl None
            | _ => inr (translateError err (contentsResp r))
            end
          else inl None
      | None => inl None
      end
  end.

(** [translateError(err, resp)] for a non-nil [err]: never nil. *)
Definition translated (err : ApiError) (resp : option Z) : error :=
  match translateError (Some err) resp with
  | Some e => e
  | None => ErrWrapped err
  end.

Definition author_of (b : Backend) : option CommitAuthor :=
  cfgCommitAuthor (config b).

(** The options [writer.Close] prepares for [CreateFile]. *)
Definition write_options (b : Backend) (w : writer) (sha : option string)
  : RepositoryContentFileOptions :=
  {| optMessage := FormatCommitMessage (config b) (filePath w);
     optContent := buffer w;
     optSHA := sha;
     optBranch := Branch (config b);
     optAuthor := author_of b |}.

(** [writer.Close]. *)
Definition writer_Close (b : Backend) (w : writer)
  : M (option error * writer) :=
  if w_closed w then ret (None, w)
  else
    let w := with_closed w true in
    (* Check if backend is closed, check context *)
    e <- guards b (w_ctx w) None ;;
    match e with
    | Some e => ret (Some e, w)
    | None =>
        (* Get existing file SHA if it exists (required for updates) *)
        r <- call (GetContents (filePath w) (Branch (config b))) ;;
        match existingSHA r with
        | inr e => ret (e, w)
        | inl sha =>
            (* Prepare commit options, create or update the file *)
            r <- call (CreateFile (filePath w) (write_options b w sha)) ;;
            match r with
            | Failure resp err => ret (Some (translated err resp), w)
            | Success _ => ret (None, w)
            end
        end
    end.

(** The options of a reader: [cfg.Offset] and [cfg.Limit]. *)
Record ReaderConfig : Type := { Offset : Z; Limit : Z }.

(** The client-side window of [NewReader]. *)
Definition window (cfg : ReaderConfig) (data : string) : string :=
  let data :=
    if (0 <? Offset cfg)%Z then
      if (Z.of_nat (String.length data) <=? Offset cfg)%Z then ""
      else String.substring (Z.to_nat (Offset cfg))
             (String.length data - Z.to_nat (Offset cfg)) data
    else data in
  if (0 <? Limit cfg)%Z && (Limit cfg <? Z.of_nat (String.length data))%Z
  then String.substring 0 (Z.to_nat (Limit cfg)) data
  else data.

(** [Backend.NewReader]: the bytes the reader holds. *)
Definition NewReader (b : Backend) (ctx : Ctx) (filePath : string)
  (cfg : ReaderConfig) : M (res string) :=
  e <- guards b ctx (Some filePath) ;;
  match e with
  | Some e => ret (Err e)
  | None =>
      let normalPath := normalizePath filePath in
      r <- call (GetContents normalPath (Branch (config b))) ;;
      match contentsErr r with
      | Some err => ret (Err (translated err (contentsResp r)))
      | None =>
          (* Check if it's a file (not a directory) *)
          match fileContent r with
          | None => ret (Err (ErrPathIsDirectory filePath))
          | Some fc =>
              if negb (String.eqb (GetType fc) "file")
              then ret (Err (ErrPathIsDirectory filePath))
              else match GetContent fc with
                   | None => ret (Err ErrDecodingContent)
                   | Some content => ret (Ok (window cfg content))
                   end
          end
      end
  end.

(** The test for a 404 shared by [Exists] and [Delete]: on the
    response, then on the type of the error. *)
Definition is_404 (err : ApiError) (resp : option Z) : bool :=
  status_is resp 404
  || match err with
     | ErrorResponse st => status_is st 404
     | TransportError _ => false
     end.

(** [Backend.Exists]. *)
Definition Exists (b : Backend) (ctx : Ctx) (filePath : string)
  : M (res bool) :=
  e <- guards b ctx (Some filePath) ;;
  match e with
  | Some e => ret (Err e)
  | None =>
      let normalPath := normalizePath filePath in
      r <- call (GetContents normalPath (Branch (config b))) ;;
      match contentsErr r with
      | Some err =>
          if is_404 err (contentsResp r) then ret (Ok false)
          else ret (Err (translated err (contentsResp r)))
      | None => ret (Ok true)
      end
  end.

(** The commit message of [Backend.Delete]. *)
Definition deleteCommitMessage (c : Config) (normalPath : string) : string :=
  if negb (String.eqb (CommitMessage c) "") then
    let commitMessage :=
      strings.ReplaceAll (CommitMessage c) "{path}" normalPath in
    strings.ReplaceAll commitMessage "Update" "Delete"
  else "Delete " +:+ normalPath +:+ " via omnistorage".

(** The options [Backend.Delete] prepares for [DeleteFile]. *)
Definition delete_options (b : Backend) (normalPath sha : string)
  : RepositoryContentFileOptions :=
  {| optMessage := deleteCommitMessage (config b) normalPath;
     optContent := "";
     optSHA := Some sha;
     optBranch := Branch (config b);
     optAuthor := author_of b |}.

(** [Backend.Delete]. *)
Definition Delete (b : Backend) (ctx : Ctx) (filePath : string)
  : M (option error) :=
  e <- guards b ctx (Some filePath) ;;
  match e with
  | Some e => ret (Some e)
  | None =>
      if String.eqb filePath "" then ret (Some ErrInvalidPath)
      else
        let normalPath := normalizePath filePath in
        (* Get existing file SHA (required for delete) *)
        r <- call (GetContents normalPath (Branch (config b))) ;;
        match contentsErr r with
        | Some err =>
            (* If file doesn't exist, return nil (idempotent) *)
            if is_404 err (contentsResp r) then ret None
            else ret (Some (translated err (contentsResp r)))
        | None =>
            match fileContent r with
            | None =>
                (* It's a directory, not a file *)
                ret (Some (ErrCannotDeleteDirectory filePath))
            | Some fc =>
                (* Prepare delete options, delete the file *)
                r <- call (DeleteFile normalPath
                             (delete_options b normalPath (GetSHA fc))) ;;
                match r with
                | Failure resp err => ret (Some (translated err resp))
                | Success _ => ret None
                end
            end
        end
  end.

(** The filter of [Backend.List] on one entry: is it kept ? *)
Definition list_keeps (normalPrefix : string) (entry : TreeEntry) : bool :=
  (* Skip directories (type "tree"), only include files (type "blob") *)
  if negb (String.eqb (entryType entry) "blob") then false
  else
    let entryPath := entryPath entry in
    (* Filter by prefix *)
    if negb (String.eqb normalPrefix "")
       && (negb (strings.HasPrefix entryPath normalPrefix)
           && negb (strings.HasPrefix entryPath (normalPrefix +:+ "/")))
    then false
    else true.

(** The loop of [Backend.List] over [tree.Entries]. *)
Fixpoint list_entries (ctx : Ctx) (normalPrefix : string)
  (entries : list TreeEntry) (paths : list string) : M (res (list string)) :=
  match entries with
  | [] => ret (Ok paths)
  | entry :: entries' =>
      (* Check context on each iteration *)
      e <- ctx_Err ctx ;;
      match e with
      | Some e => ret (Err e)
      | None =>
          if list_keeps normalPrefix entry
          then list_entries ctx normalPrefix entries'
                 (paths ++ [entryPath entry])
          else list_entries ctx normalPrefix entries' paths
      end
  end.

(** [Backend.List]. *)
Definition List (b : Backend) (ctx : Ctx) (prefix : string)
  : M (res (list string)) :=
  e <- guards b ctx None ;;
  match e with
  | Some e => ret (Err e)
  | None =>
      let normalPrefix := normalizePath prefix in
      (* Get the tree recursively *)
      r <- call (GetTree (Branch (config b)) true) ;;
      match r with
      | Failure resp err => ret (Err (translated err resp))
      | Success tree => list_entries ctx normalPrefix (Entries tree) []
      end
  end.

(** [Backend.Close]. *)
Definition Close (b : Backend) : option error * Backend :=
  (None, {| config := config b; closed := true |}).

(** [omnistorage.BasicObjectInfo]. *)
Record BasicObjectInfo : Type := {
  ObjectPath : string;
  ObjectSize : Z;
  ObjectIsDir : bool;
  ObjectHashes : list (string * string)
}.

(** [Backend.Stat]. *)
Definition Stat (b : Backend) (ctx : Ctx) (filePath : string)
  : M (res BasicObjectInfo) :=
  e <- guards b ctx (Some filePath) ;;
  match e with
  | Some e => ret (Err e)
  | None =>
      let normalPath := normalizePath filePath in
      r <- call (GetContents normalPath (Branch (config b))) ;;
      match contentsErr r with
      | Some err => ret (Err (translated err (contentsResp r)))
      | None =>
          (* Check if it's a directory *)
          match directoryContent r, fileContent r with
          | Some _, _ =>
              ret (Ok {| ObjectPath := normalPath; ObjectSize := 0;
                         ObjectIsDir := true; ObjectHashes := [] |})
          | None, fc =>
              (* It's a file; the getters of a nil content return zero
                 values *)
              ret (Ok {| ObjectPath := normalPath;
                         ObjectSize := from_option GetSize 0%Z fc;
                         ObjectIsDir := false;
                         ObjectHashes :=
                           [("sha1", from_option GetSHA "" fc)] |})
          end
      end
  end.

(** [Mkdir], [Rmdir], [Copy] and [Move] share one body. *)
Definition notSupported (b : Backend) : option error :=
  match checkClosed b with
  | Some e => Some e
  | None => Some ErrNotSupported
  end.

(** *** The batch committer *)

(** [BatchOperationType]. *)
Inductive BatchOperationType : Type := BatchOpWrite | BatchOpDelete.

(** [BatchOperation]. *)
Record BatchOperation : Type := {
  Type_ : BatchOperationType;
  Path : string;
  Content : string
}.

(** [Batch]; [backend] is a pointer as for [writer]. *)
Record Batch : Type := {
  b_ctx : Ctx;
  message : string;
  operations : list BatchOperation;
  committed : bool
}.

Definition with_operations (batch : Batch) (ops : list BatchOperation)
  : Batch :=
  {| b_ctx := b_ctx batch; message := message batch;
     operations := ops; committed := committed batch |}.

Definition with_committed (batch : Batch) (c : bool) : Batch :=
  {| b_ctx := b_ctx batch; message := message batch;
     operations := operations batch; committed := c |}.

(** [Backend.NewBatch]. *)
Definition NewBatch (b : Backend) (ctx : Ctx) (message : string)
  : M (res Batch) :=
  e <- guards b ctx None ;;
  match e with
  | Some e => ret (Err e)
  | None =>
      let message := if String.eqb message ""
                     then "Batch update via omnistorage" else message in
      ret (Ok {| b_ctx := ctx; message := message; operations := [];
                 committed := false |})
  end.

(** The body shared by [Batch.Write] and [Batch.Delete]. *)
Definition queue (batch : Batch) (t : BatchOperationType)
  (filePath content : string) : option error * Batch :=
  if committed batch then (Some ErrBatchCommitted, batch)
  else match validatePath filePath with
       | Some e => (Some e, batch)
       | None =>
           if String.eqb filePath "" then (Some ErrInvalidPath, batch)
           else (None,
                 with_operations batch
                   (operations batch
                    ++ [{| Type_ := t; Path := normalizePath filePath;
                           Content := content |}]))
       end.


(** [Batch.Write]. *)
Definition Batch_Write (batch : Batch) (filePath content : string)
  : option error * Batch :=
  queue batch BatchOpWrite filePath content.

(** [Batch.Delete]. *)
Definition Batch_Delete (batch : Batch) (filePath : string)
  : option error * Batch :=
  queue batch BatchOpDelete filePath "".

(** [Batch.Len]. *)
Definition Batch_Len (batch : Batch) : nat := length (operations batch).

(** The loop of [Batch.buildTreeEntries] over the operations left. *)
Fixpoint build_entries (b : Backend) (ctx : Ctx)
  (ops : list BatchOperation) (entries : list TreeEntry)
  : M (res (list TreeEntry)) :=
  match ops with
  | [] => ret (Ok entries)
  | op :: ops' =>
      match Type_ op with
      | BatchOpWrite =>
          (* Create a blob for the content *)
          r <- call (CreateBlob (Content op) "utf-8") ;;
          match r with
          | Failure resp err => ret (Err (translated err resp))
          | Success sha =>
              build_entries b ctx ops'
                (entries ++ [{| entryPath := Path op;
                                entryMode := "100644"; (* Regular file *)
                                entryType := "blob";
                                entrySHA := sha |}])
          end
      | BatchOpDelete =>
          (* We need to check if the file exists first *)
          r <- Exists b ctx (Path op) ;;
          match r with
          | Err e => ret (Err e)
          | Ok exists_ =>
              if exists_ : bool then
                (* Use a nil SHA to indicate deletion *)
                build_entries b ctx ops'
                  (entries ++ [{| entryPath := Path op;
                                  entryMode := "100644";
                                  entryType := "blob";
                                  entrySHA := None |}])
              else
                (* If file doesn't exist, skip it (idempotent) *)
                build_entries b ctx ops' entries
          end
      end
  end.

(** [Batch.buildTreeEntries]. *)
Definition buildTreeEntries (b : Backend) (batch : Batch)
  : M (res (list TreeEntry)) :=
  build_entries b (b_ctx batch) (operations batch) [].

(** [Batch.Commit]. *)
Definition Batch_Commit (b : Backend) (batch : Batch)
  : M (option error * Batch) :=
  if committed batch then ret (Some ErrBatchCommitted, batch)
  else
    e <- guards b (b_ctx batch) None ;;
    match e with
    | Some e => ret (Some e, batch)
    | None =>
        if (length (operations batch) =? 0)%nat then
          ret (None, with_committed batch true) (* Nothing to commit *)
        else
          (* Step 1: Get the current branch reference *)
          r <- call (GetRef ("refs/heads/" +:+ Branch (config b))) ;;
          match r with
          | Failure resp err => ret (Some (translated err resp), batch)
          | Success ref =>
          let currentCommitSHA := ObjectSHA ref in
          (* Step 2: Get the current commit to find the tree SHA *)
          r <- call (GetCommit currentCommitSHA) ;;
          match r with
          | Failure resp err => ret (Some (translated err resp), batch)
          | Success currentCommit =>
          let baseTreeSHA := commitTree currentCommit in
          (* Step 3: Build tree entries for all operations *)
          r <- buildTreeEntries b batch ;;
          match r with
          | Err e => ret (Some e, batch)
          | Ok treeEntries =>
          (* Step 4: Create the new tree *)
          r <- call (CreateTree baseTreeSHA treeEntries) ;;
          match r with
          | Failure resp err => ret (Some (translated err resp), batch)
          | Success newTree =>
          (* Step 5: Create the new commit *)
          let commitOpts :=
            {| commitSHA := ""; commitMessage := message batch;
               commitTree := treeSHA newTree;
               commitParents := [currentCommitSHA];
               commitAuthor := author_of b |} in
          r <- call (CreateCommit commitOpts) ;;
          match r with
          | Failure resp err => ret (Some (translated err resp), batch)
          | Success newCommit =>
          (* Step 6: Update the branch reference *)
          let newCommitSHA := commitSHA newCommit in
          let ref := {| Ref := Ref ref; ObjectSHA := newCommitSHA |} in
          r <- call (UpdateRef ref false) ;;
          match r with
          | Failure resp err => ret (Some (translated err resp), batch)
          | Success _ => ret (None, with_committed batch true)
          end end end end end end
    end.

(** The steps of [Batch.Commit] after its guards, all successful: resolve
    the ref, resolve the base tree, build the entries, create the tree,
    create the commit, update the ref. *)
Definition commit_succeeds (b : Backend) (batch : Batch) (s s' : State)
  : Prop :=
  exists ref currentCommit treeEntries newTree newCommit ref' s1 s2 s3 s4 s5,
    call (GetRef ("refs/heads/" +:+ Branch (config b))) s = (Success ref, s1)
    /\ call (GetCommit (ObjectSHA ref)) s1 = (Success currentCommit, s2)
    /\ buildTreeEntries b batch s2 = (Ok treeEntries, s3)
    /\ call (CreateTree (commitTree currentCommit) treeEntries) s3
       = (Success newTree, s4)
    /\ call (CreateCommit {| commitSHA := ""; commitMessage := message batch;
                             commitTree := treeSHA newTree;
                             commitParents := [ObjectSHA ref];
                             commitAuthor := author_of b |}) s4
       = (Success newCommit, s5)
    /\ call (UpdateRef {| Ref := Ref ref; ObjectSHA := commitSHA newCommit |}
               false) s5
       = (Success ref', s').

End Backend.

(** ** An in-memory remote store

    The remote store is not part of the repository; the operations are
    run against the store the spec describes. *)

Module remote.

(** Modelled from the spec: the remote store, a content store of blobs,
    trees and commits with branch pointers.  A tree is the flat map from
    the paths of its blobs to their identifiers.  [faults] is a script
    that lets any call fail the way the transport can. *)
Record Store : Type := {
  blobs : gmap string string;
  trees : gmap string (gmap string string);
  commits : gmap string Commit;
  refs : gmap string string;
  next : nat;
  faults : list (option (option Z * ApiError))
}.

(** Object identifiers are opaque to the backend: fresh ones are drawn
    from a counter. *)
Definition sha_name (n : nat) : string :=
  "sha" +:+ NilEmpty.string_of_uint (Nat.to_uint n).

Definition fresh (s : Store) : string := sha_name (next s).

Definition with_faults (s : Store) (fs : list (option (option Z * ApiError)))
  : Store :=
  {| blobs := blobs s; trees := trees s; commits := commits s;
     refs := refs s; next := next s; faults := fs |}.

Definition add_blob (s : Store) (content : string) : string * Store :=
  (fresh s,
   {| blobs := <[fresh s := content]> (blobs s); trees := trees s;
      commits := commits s; refs := refs s; next := S (next s);
      faults := faults s |}).

Definition add_tree (s : Store) (t : gmap string string) : string * Store :=
  (fresh s,
   {| blobs := blobs s; trees := <[fresh s := t]> (trees s);
      commits := commits s; refs := refs s; next := S (next s);
      faults := faults s |}).

Definition add_commit (s : Store) (c : Commit) : Commit * Store :=
  let c := {| commitSHA := fresh s; commitMessage := commitMessage c;
              commitTree := commitTree c; commitParents := commitParents c;
              commitAuthor := commitAuthor c |} in
  (c,
   {| blobs := blobs s; trees := trees s;
      commits := <[fresh s := c]> (commits s); refs := refs s;
      next := S (next s); faults := faults s |}).

Definition set_ref (s : Store) (ref sha : string) : Store :=
  {| blobs := blobs s; trees := trees s; commits := commits s;
     refs := <[ref := sha]> (refs s); next := next s; faults := faults s |}.

Definition branch_ref (branch : string) : string := "refs/heads/" +:+ branch.

(** The tree a ref points to. *)
Definition tree_at (s : Store) (ref : string) : option (gmap string string) :=
  sha ← refs s !! ref;
  c ← commits s !! sha;
  trees s !! commitTree c.

(** Modelled from the spec: creating a tree merges an entry list into
    the base tree by path; an entry without a content identifier removes
    its path, and the last entry for a path wins. *)
Definition apply_entry (t : gmap string string) (e : TreeEntry)
  : gmap string string :=
  match entrySHA e with
  | Some sha => <[entryPath e := sha]> t
  | None => delete (entryPath e) t
  end.

Definition apply_entries (t : gmap string string) (es : list TreeEntry)
  : gmap string string :=
  fold_left apply_entry es t.

Definition blob_entry (kv : string * string) : TreeEntry :=
  {| entryPath := kv.1; entryMode := "100644"; entryType := "blob";
     entrySHA := Some kv.2 |}.

(** The directories a path lies in, as [tree] entries. *)
Fixpoint directories (seen p : string) : list TreeEntry :=
  match p with
  | EmptyString => []
  | String c p' =>
      if Ascii.eqb c path.slash
      then {| entryPath := seen; entryMode := "040000";
              entryType := "tree"; entrySHA := None |}
           :: directories (seen +:+ "/") p'
      else directories (seen +:+ String c "") p'
  end.

(** The recursive listing of a tree: every blob after the directories
    it lies in. *)
Definition listing (t : gmap string string) : list TreeEntry :=
  flat_map (fun kv => directories "" kv.1 ++ [blob_entry kv]) (map_to_list t).

Definition file_content (s : Store) (sha : string) : RepositoryContent :=
  {| GetType := "file"; GetSHA := sha;
     GetSize := from_option (fun c => Z.of_nat (String.length c)) 0%Z
                  (blobs s !! sha);
     GetContent := blobs s !! sha |}.

(** The files below a directory. *)
Definition is_below (dir : string) (kv : string * string) : bool :=
  String.eqb dir "" || strings.HasPrefix kv.1 (dir +:+ "/").

Definition below (s : Store) (t : gmap string string) (dir : string)
  : list RepositoryContent :=
  map (fun kv => file_content s kv.2)
    (List.filter (is_below dir) (map_to_list t)).

Definition not_found {A : Type} : Reply A :=
  Failure (Some 404%Z) (ErrorResponse (Some 404%Z)).

Definition rejected {A : Type} (code : Z) : Reply A :=
  Failure (Some code) (ErrorResponse (Some code)).

(** A new commit on a branch, as the contents API makes one. *)
Definition commit_on (s : Store) (ref : string) (t : gmap string string)
  (opts : RepositoryContentFileOptions) : Store :=
  let '(tsha, s) := add_tree s t in
  let parent := from_option (fun x => [x]) [] (refs s !! ref) in
  let '(c, s) :=
    add_commit s {| commitSHA := ""; commitMessage := optMessage opts;
                    commitTree := tsha; commitParents := parent;
                    commitAuthor := optAuthor opts |} in
  set_ref s ref (commitSHA c).

Definition get_contents (s : Store) (p ref : string) : Contents :=
  let missing := {| fileContent := None; directoryContent := None;
                    contentsResp := Some 404%Z;
                    contentsErr := Some (ErrorResponse (Some 404%Z)) |} in
  match tree_at s (branch_ref ref) with
  | None => missing
  | Some t =>
      match t !! p with
      | Some sha =>
          {| fileContent := Some (file_content s sha);
             directoryContent := None;
             contentsResp := Some 200%Z; contentsErr := None |}
      | None =>
          match below s t p with
          | [] =>
              if String.eqb p "" then
                {| fileContent := None; directoryContent := Some [];
                   contentsResp := Some 200%Z; contentsErr := None |}
              else missing
          | files =>
              {| fileContent := None; directoryContent := Some files;
                 contentsResp := Some 200%Z; contentsErr := None |}
          end
      end
  end.

(** Modelled from the spec: the answer of the store to a call that
    reaches it.  A contents mutation is rejected unless its version
    marker is the live hash of the object, and it makes one commit; the
    non-forcing update of a ref is a compare-and-swap on the commit the
    new one was built on. *)
Definition handle (c : Call) : Store -> Answer c * Store :=
  match c as c return Store -> Answer c * Store with
  | GetContents p ref => fun s => (get_contents s p ref, s)
  | CreateFile p opts => fun s =>
      match tree_at s (branch_ref (optBranch opts)) with
      | None => (not_found, s)
      | Some t =>
          if decide (t !! p = optSHA opts) then
            let '(sha, s) := add_blob s (optContent opts) in
            (Success tt,
             commit_on s (branch_ref (optBranch opts)) (<[p := sha]> t) opts)
          else match optSHA opts with
               | None => (rejected 422, s)
               | Some _ => (rejected 409, s)
               end
      end
  | DeleteFile p opts => fun s =>
      match tree_at s (branch_ref (optBranch opts)) with
      | None => (not_found, s)
      | Some t =>
          match t !! p with
          | None => (not_found, s)
          | Some sha =>
              if decide (optSHA opts = Some sha) then
                (Success tt,
                 commit_on s (branch_ref (optBranch opts)) (delete p t) opts)
              else (rejected 409, s)
          end
      end
  | GetRef ref => fun s =>
      match refs s !! ref with
      | Some sha => (Success {| Ref := ref; ObjectSHA := sha |}, s)
      | None => (not_found, s)
      end
  | GetCommit sha => fun s =>
      match commits s !! sha with
      | Some c => (Success c, s)
      | None => (not_found, s)
      end
  | CreateBlob content _ => fun s =>
      let '(sha, s) := add_blob s content in (Success (Some sha), s)
  | CreateTree baseTree entries => fun s =>
      match trees s !! baseTree with
      | None => (not_found, s)
      | Some t =>
          let t' := apply_entries t entries in
          let '(sha, s) := add_tree s t' in
          (Success {| treeSHA := sha; Entries := listing t' |}, s)
      end
  | CreateCommit c => fun s =>
      let '(c, s) := add_commit s c in (Success c, s)
  | UpdateRef ref force => fun s =>
      match refs s !! Ref ref, commits s !! ObjectSHA ref with
      | Some current, Some c =>
          if force || bool_decide (current ∈ commitParents c)
          then (Success ref, set_ref s (Ref ref) (ObjectSHA ref))
          else (rejected 422, s)
      | _, _ => (rejected 422, s)
      end
  | GetTree sha _ => fun s =>
      match tree_at s (branch_ref sha) with
      | Some t => (Success {| treeSHA := sha; Entries := listing t |}, s)
      | None => (not_found, s)
      end
  end.

(** The failure of a call with a given response and error. *)
Definition failed (c : Call) (resp : option Z) (err : ApiError) : Answer c :=
  match c as c return Answer c with
  | GetContents _ _ =>
      {| fileContent := None; directoryContent := None;
         contentsResp := resp; contentsErr := Some err |}
  | CreateFile _ _ | DeleteFile _ _ => Failure resp err
  | GetRef _ | UpdateRef _ _ => Failure resp err
  | GetCommit _ | CreateCommit _ => Failure resp err
  | CreateBlob _ _ => Failure resp err
  | CreateTree _ _ | GetTree _ _ => Failure resp err
  end.

(** The client over the store: the next fault of the script, if any,
    decides whether the call reaches the store. *)
Definition client (c : Call) (s : Store) : Answer c * Store :=
  match faults s with
  | Some (resp, err) :: fs => (failed c resp err, with_faults s fs)
  | None :: fs => handle c (with_faults s fs)
  | [] => handle c s
  end.

(** Is a path a file or a directory of a tree ?  This is what a lookup
    through [get_contents] finds. *)
Definition present_in (t : gmap string string) (p : string) : bool :=
  match t !! p with
  | Some _ => true
  | None =>
      match List.filter (is_below p) (map_to_list t) with
      | [] => String.eqb p ""
      | _ :: _ => true
      end
  end.

(** The entry list [Batch.buildTreeEntries] sends for a queue of
    operations, on a store whose branch holds the tree [t] and whose
    counter is at [n]. *)
Fixpoint model_entries (t : gmap string string) (n : nat)
  (ops : list (@BatchOperation)) : list TreeEntry :=
  match ops with
  | [] => []
  | op :: ops' =>
      match Type_ op with
      | BatchOpWrite =>
          {| entryPath := Path op; entryMode := "100644";
             entryType := "blob"; entrySHA := Some (sha_name n) |}
          :: model_entries t (S n) ops'
      | BatchOpDelete =>
          if present_in t (normalizePath (Path op))
          then {| entryPath := Path op; entryMode := "100644";
                  entryType := "blob"; entrySHA := None |}
               :: model_entries t n ops'
          else model_entries t n ops'
      end
  end.



(** A context that is never cancelled. *)
Definition background : @Ctx Store := fun _ => None.

(** A store with one branch over a given tree of files
    (path and content). *)
Definition init (branch : string) (files : list (string * string)) : Store :=
  let s0 := {| blobs := ∅; trees := ∅; commits := ∅; refs := ∅;
               next := 0; faults := [] |} in
  let '(t, s) :=
    fold_left (fun '(t, s) '(p, content) =>
                 let '(sha, s) := add_blob s content in (<[p := sha]> t, s))
      files (∅, s0) in
  let '(tsha, s) := add_tree s t in
  let '(c, s) :=
    add_commit s {| commitSHA := ""; commitMessage := "init";
                    commitTree := tsha; commitParents := [];
                    commitAuthor := None |} in
  set_ref s (branch_ref branch) (commitSHA c).

(** The paths and contents of the files of a branch, in map order. *)
Definition files_of (s : Store) (branch : string)
  : list (string * option string) :=
  match tree_at s (branch_ref branch) with
  | Some t => map (fun kv => (kv.1, blobs s !! kv.2)) (map_to_list t)
  | None => []
  end.

End remote.

(** ** A repository to run the operations on *)

Module example.

Definition cfg : Config :=
  {| Owner := "grokify"; Repo := "omnistorage"; Branch := "main";
     Token := "token"; BaseURL := "https://api.github.com/";
     UploadURL := "https://uploads.github.com/"; CommitMessage := "";
     cfgCommitAuthor := None |}.

(** The template of the README. *)
Definition bot_cfg : Config :=
  {| Owner := "grokify"; Repo := "omnistorage"; Branch := "main";
     Token := "token"; BaseURL := "https://api.github.com/";
     UploadURL := "https://uploads.github.com/";
     CommitMessage := "[bot] Update {path}";
     cfgCommitAuthor := Some {| Name := "My Bot"; Email := "bot@example.com" |} |}.

Definition backend : Backend := {| config := cfg; closed := false |}.
Definition bot_backend : Backend := {| config := bot_cfg; closed := false |}.
Definition closed_backend : Backend := (Close backend).2.

Definition store : remote.Store :=
  remote.init "main"
    [("a/b.txt", "hello"); ("ab/other.txt", "other");
     ("Updates/a.txt", "notes")].

Definition start : State := {| world := store; trace := [] |}.

(** The same repository behind a transport that follows a fault script. *)
Definition start_failing (fs : list (option (option Z * ApiError))) : State :=
  {| world := remote.with_faults store fs; trace := [] |}.

Definition empty_batch : @Batch remote.Store :=
  {| b_ctx := remote.background; message := "Batch update via omnistorage";
     operations := []; committed := false |}.

(** The operations queued by the calls [ops] on a batch: [inl (p, c)] is
    [Write(p, c)], [inr p] is [Delete(p)]. *)
Definition queue_all (batch : @Batch remote.Store)
  (ops : list (string * string + string)) : Batch :=
  fold_left (fun batch op =>
               match op with
               | inl (p, c) => (Batch_Write batch p c).2
               | inr p => (Batch_Delete batch p).2
               end) ops batch.

(** [Write(p, content)] then [Delete(p)] in one batch. *)
Definition write_then_delete (p content : string) : Batch :=
  queue_all empty_batch [inl (p, content); inr p].

(** The tree of the branch of [store]. *)
Definition base_tree : gmap string string :=
  default ∅ (remote.tree_at store (remote.branch_ref "main")).

(** A transport that lets six calls through and fails the seventh with a
    rejection, as a ref update that lost a race does. *)
Definition losing_race : list (option (option Z * ApiError)) :=
  [None; None; None; None; None; None;
   Some (Some 422%Z, ErrorResponse (Some 422%Z))].

(** The empty batch after a first [Commit]. *)
Definition committed_batch : Batch :=
  (Batch_Commit remote.client backend empty_batch start).1.2.

Definition new_writer (p content : string) : @writer remote.Store :=
  {| w_ctx := remote.background; filePath := normalizePath p;
     buffer := content; w_closed := false |}.

End example.

(** ** Configuration: defaults, validation and loading (config.go) *)

(** The config errors. *)
Inductive config_error : Type :=
| ErrOwnerRequired
| ErrRepoRequired
| ErrTokenRequired.

(** [DefaultConfig]. *)
Definition DefaultConfig : Config :=
  {| Owner := ""; Repo := ""; Branch := "main"; Token := "";
     BaseURL := "https://api.github.com/";
     UploadURL := "https://uploads.github.com/";
     CommitMessage := "Update {path} via omnistorage";
     cfgCommitAuthor := None |}.

(** [Config.Validate]. *)
Definition Validate (c : Config) : option config_error :=
  if String.eqb (Owner c) "" then Some ErrOwnerRequired
  else if String.eqb (Repo c) "" then Some ErrRepoRequired
  else if String.eqb (Token c) "" then Some ErrTokenRequired
  else None.

(** Assignments to the fields of a [Config]. *)
Definition set_Owner (v : string) (c : Config) : Config :=
  {| Owner := v; Repo := Repo c; Branch := Branch c; Token := Token c;
     BaseURL := BaseURL c; UploadURL := UploadURL c;
     CommitMessage := CommitMessage c; cfgCommitAuthor := cfgCommitAuthor c |}.

Definition set_Repo (v : string) (c : Config) : Config :=
  {| Owner := Owner c; Repo := v; Branch := Branch c; Token := Token c;
     BaseURL := BaseURL c; UploadURL := UploadURL c;
     CommitMessage := CommitMessage c; cfgCommitAuthor := cfgCommitAuthor c |}.

Definition set_Branch (v : string) (c : Config) : Config :=
  {| Owner := Owner c; Repo := Repo c; Branch := v; Token := Token c;
     BaseURL := BaseURL c; UploadURL := UploadURL c;
     CommitMessage := CommitMessage c; cfgCommitAuthor := cfgCommitAuthor c |}.

Definition set_Token (v : string) (c : Config) : Config :=
  {| Owner := Owner c; Repo := Repo c; Branch := Branch c; Token := v;
     BaseURL := BaseURL c; UploadURL := UploadURL c;
     CommitMessage := CommitMessage c; cfgCommitAuthor := cfgCommitAuthor c |}.

Definition set_BaseURL (v : string) (c : Config) : Config :=
  {| Owner := Owner c; Repo := Repo c; Branch := Branch c; Token := Token c;
     BaseURL := v; UploadURL := UploadURL c;
     CommitMessage := CommitMessage c; cfgCommitAuthor := cfgCommitAuthor c |}.

Definition set_UploadURL (v : string) (c : Config) : Config :=
  {| Owner := Owner c; Repo := Repo c; Branch := Branch c; Token := Token c;
     BaseURL := BaseURL c; UploadURL := v;
     CommitMessage := CommitMessage c; cfgCommitAuthor := cfgCommitAuthor c |}.

Definition set_CommitMessage (v : string) (c : Config) : Config :=
  {| Owner := Owner c; Repo := Repo c; Branch := Branch c; Token := Token c;
     BaseURL := BaseURL c; UploadURL := UploadURL c;
     CommitMessage := v; cfgCommitAuthor := cfgCommitAuthor c |}.

Definition set_CommitAuthor (v : option CommitAuthor) (c : Config) : Config :=
  {| Owner := Owner c; Repo := Repo c; Branch := Branch c; Token := Token c;
     BaseURL := BaseURL c; UploadURL := UploadURL c;
     CommitMessage := CommitMessage c; cfgCommitAuthor := v |}.

(** [if v, ok := m[key]; ok { cfg.F = v }]. *)
Definition if_present (m : gmap string string) (key : string)
  (set : string -> Config -> Config) (c : Config) : Config :=
  match m !! key with
  | Some v => set v c
  | None => c
  end.

(** [if v, ok := m[key]; ok && v != "" { cfg.F = v }], and
    [if v := os.Getenv(key); v != "" { cfg.F = v }]. *)
Definition if_nonempty (v : string) (set : string -> Config -> Config)
  (c : Config) : Config :=
  if String.eqb v "" then c else set v c.

(** The commit author of [ConfigFromMap] and [ConfigFromEnv]. *)
Definition author_from (authorName authorEmail : string) (c : Config)
  : Config :=
  if negb (String.eqb authorName "") || negb (String.eqb authorEmail "")
  then set_CommitAuthor (Some {| Name := authorName; Email := authorEmail |}) c
  else c.

(** [ConfigFromMap]; [m[key]] is [""] for a missing key. *)
Definition ConfigFromMap (m : gmap string string) : Config :=
  let cfg := DefaultConfig in
  let cfg := if_present m "owner" set_Owner cfg in
  let cfg := if_present m "repo" set_Repo cfg in
  let cfg := if_nonempty (default "" (m !! "branch")) set_Branch cfg in
  let cfg := if_present m "token" set_Token cfg in
  let cfg := if_nonempty (default "" (m !! "base_url")) set_BaseURL cfg in
  let cfg := if_nonempty (default "" (m !! "upload_url")) set_UploadURL cfg in
  let cfg := if_nonempty (default "" (m !! "commit_message"))
               set_CommitMessage cfg in
  (* Commit author *)
  author_from (default "" (m !! "commit_author_name"))
    (default "" (m !! "commit_author_email")) cfg.

(** [if v := Getenv(k1); v != "" { .. } else if v := Getenv(k2); v != ""
    { .. }]. *)
Definition first_nonempty (v1 v2 : string) (set : string -> Config -> Config)
  (c : Config) : Config :=
  if negb (String.eqb v1 "") then set v1 c
  else if negb (String.eqb v2 "") then set v2 c
  else c.

(** [ConfigFromEnv]; [Getenv] is [os.Getenv], [""] for an unset
    variable. *)
Definition ConfigFromEnv (Getenv : string -> string) : Config :=
  let cfg := DefaultConfig in
  let cfg := first_nonempty (Getenv "OMNISTORAGE_GITHUB_OWNER")
               (Getenv "GITHUB_OWNER") set_Owner cfg in
  let cfg := first_nonempty (Getenv "OMNISTORAGE_GITHUB_REPO")
               (Getenv "GITHUB_REPO") set_Repo cfg in
  let cfg := if_nonempty (Getenv "OMNISTORAGE_GITHUB_BRANCH") set_Branch cfg in
  let cfg := first_nonempty (Getenv "OMNISTORAGE_GITHUB_TOKEN")
               (Getenv "GITHUB_TOKEN") set_Token cfg in
  let cfg := first_nonempty (Getenv "OMNISTORAGE_GITHUB_BASE_URL")
               (Getenv "GITHUB_API_URL") set_BaseURL cfg in
  let cfg := if_nonempty (Getenv "OMNISTORAGE_GITHUB_UPLOAD_URL")
               set_UploadURL cfg in
  let cfg := if_nonempty (Getenv "OMNISTORAGE_GITHUB_COMMIT_MESSAGE")
               set_CommitMessage cfg in
  author_from (Getenv "OMNISTORAGE_GITHUB_COMMIT_AUTHOR_NAME")
    (Getenv "OMNISTORAGE_GITHUB_COMMIT_AUTHOR_EMAIL") cfg.

(** ** Construction and capabilities (backend.go) *)

(** The errors of [New]. *)
Inductive new_error : Type :=
| InvalidConfig (e : config_error)
| EnterpriseClient  (** "github: creating enterprise client: %w" *).

(** The defaults [New] sets. *)
Definition with_defaults (cfg : Config) : Config :=
  let cfg := if String.eqb (Branch cfg) "" then set_Branch "main" cfg
             else cfg in
  let cfg := if String.eqb (BaseURL cfg) ""
             then set_BaseURL "https://api.github.com/" cfg else cfg in
  if String.eqb (UploadURL cfg) ""
  then set_UploadURL "https://uploads.github.com/" cfg else cfg.

(** [New]; [WithEnterpriseURLs baseURL uploadURL] tells whether go-github
    builds the enterprise client for these endpoints.  The client itself
    is the [client] of the operations. *)
Definition New (WithEnterpriseURLs : string -> string -> bool) (cfg : Config)
  : new_error + @Backend :=
  match Validate cfg with
  | Some e => inl (InvalidConfig e)
  | None =>
      (* Set defaults *)
      let cfg := with_defaults cfg in
      if negb (String.eqb (BaseURL cfg) "https://api.github.com/") then
        (* GitHub Enterprise *)
        if WithEnterpriseURLs (BaseURL cfg) (UploadURL cfg)
        then inr {| config := cfg; closed := false |}
        else inl EnterpriseClient
      else inr {| config := cfg; closed := false |}
  end.

(** [omnistorage.Features], the fields [Backend.Features] sets. *)
Record FeatureSet : Type := {
  fCopy : bool; fMove : bool; fMkdir : bool; fRmdir : bool; fStat : bool;
  fHashes : list string; fCanStream : bool; fServerSideEncryption : bool;
  fVersioning : bool; fRangeRead : bool; fListPrefix : bool
}.

(** [Backend.Features]. *)
Definition Features : FeatureSet :=
  {| fCopy := false; fMove := false; fMkdir := false; fRmdir := false;
     fStat := true; fHashes := ["sha1"]; fCanStream := false;
     fServerSideEncryption := false; fVersioning := true;
     fRangeRead := true; fListPrefix := true |}.

(** ** Sequences of operations *)

Section Usage.

Context {W : Type}.

(** The writer after the calls [Write(p)] for the chunks [p] of
    [chunks], in order. *)
Definition write_all (w : @writer W) (chunks : list string) : writer :=
  fold_left (fun w p => (writer_Write w p).2) chunks w.

(** The call [buildTreeEntries] issues for an operation. *)
Definition call_of_op (b : @Backend) (op : BatchOperation) : Call :=
  match Type_ op with
  | BatchOpWrite => CreateBlob (Content op) "utf-8"
  | BatchOpDelete => GetContents (normalizePath (Path op)) (Branch (config b))
  end.

End Usage.

(** The calls that can move a branch of the store. *)
Definition moves_ref (c : Call) : bool :=
  match c with
  | CreateFile _ _ | DeleteFile _ _ | UpdateRef _ _ => true
  | _ => false
  end.

(** The number of writes of a queue. *)
Definition writes (ops : list BatchOperation) : nat :=
  length (List.filter (fun op => match Type_ op with
                                 | BatchOpWrite => true
                                 | BatchOpDelete => false
                                 end) ops).



(** The fields the loaders never leave empty. *)
Definition filled (c : Config) : Prop :=
  Branch c <> "" /\ BaseURL c <> "" /\ UploadURL c <> ""
  /\ CommitMessage c <> "".

(** What one queued operation adds to the entry list of
    [buildTreeEntries]: a write one entry for its path, with the SHA of
    its blob; a delete a removal entry for its path, or nothing. *)
Definition entries_of (op : BatchOperation) (out : list TreeEntry) : Prop :=
  match Type_ op with
  | BatchOpWrite =>
      exists sha, out = [{| entryPath := Path op; entryMode := "100644";
                            entryType := "blob"; entrySHA := sha |}]
  | BatchOpDelete =>
      out = [] \/ out = [{| entryPath := Path op; entryMode := "100644";
                            entryType := "blob"; entrySHA := None |}]
  end.

(** * Properties *)

Example normalizePath_tests :
  map normalizePath
    [""; "file.txt"; "/file.txt"; "./file.txt"; "dir/file.txt";
     "/dir/file.txt"; "."; "/"; "a//b/./c/.."; "../a/../../b"; "/../x";
     "a/../.."; "//"; "/."; "a/b/../../../c/"]
  = [""; "file.txt"; "file.txt"; "file.txt"; "dir/file.txt";
     "dir/file.txt"; ""; ""; "a/b"; "../../b"; "x";
     ".."; ""; ""; "../c"].
Proof. reflexivity. Qed.

Example validatePath_tests :
  map validatePath
    [""; "file.txt"; "dir/file.txt"; "../escape.txt"; "dir/../file.txt";
     "a/b/c/d.txt"; "a..b"]
  = [None; None; None; Some ErrInvalidPath; Some ErrInvalidPath; None;
     Some ErrInvalidPath].
Proof. reflexivity. Qed.

Example ReplaceAll_tests :
  map (fun s => strings.ReplaceAll s "Update" "Delete")
    ["Update x"; "UpUpdate"; "UpdateUpdate"; "Updat"; ""]
  = ["Delete x"; "UpDelete"; "DeleteDelete"; "Updat"; ""].
Proof. reflexivity. Qed.

(** ** [path.Clean] works element by element *)

Module clean_facts.
Import path clean_spec.

Lemma eqb_slash_true c : Ascii.eqb c slash = true <-> c = slash.
Proof. apply Ascii.eqb_eq. Qed.

Lemma eqb_slash_false c : Ascii.eqb c slash = false <-> c <> slash.
Proof. apply Ascii.eqb_neq. Qed.

Lemma at_boundary_cases rest :
  at_boundary rest = true <-> rest = [] \/ exists r, rest = slash :: r.
Proof.
  destruct rest as [|c r]; simpl.
  - split; auto.
  - rewrite eqb_slash_true. split.
    + intros ->. right. eauto.
    + intros [H|[r' H]]; congruence.
Qed.

(** *** Elements of a byte string *)

Lemma tokens_aux_run cur run rest :
  ~ In slash run -> at_boundary rest = true ->
  tokens_aux cur (run ++ rest)
  = if decide (cur ++ run = []) then tokens rest
    else (cur ++ run) :: tokens rest.
Proof.
  revert cur. induction run as [|c run IH]; intros cur Hns Hb.
  - rewrite app_nil_r. simpl.
    apply at_boundary_cases in Hb as [->|[r ->]]; simpl.
    + destruct (decide (cur = [])); reflexivity.
    + destruct (decide (cur = [])); reflexivity.
  - simpl. destruct (Ascii.eqb c slash) eqn:E.
    + apply eqb_slash_true in E. subst. exfalso. apply Hns. now left.
    + rewrite IH; [|intros ?; apply Hns; now right|assumption].
      rewrite <- app_assoc. reflexivity.
Qed.

Lemma tokens_run run rest :
  run <> [] -> ~ In slash run -> at_boundary rest = true ->
  tokens (run ++ rest) = run :: tokens rest.
Proof.
  intros Hne Hns Hb. unfold tokens at 1.
  rewrite tokens_aux_run by assumption. simpl.
  destruct (decide (run = [])); congruence.
Qed.

Lemma tokens_slash rest : tokens (slash :: rest) = tokens rest.
Proof. reflexivity. Qed.

Lemma tokens_aux_valid cur s :
  ~ In slash cur -> Forall valid (tokens_aux cur s).
Proof.
  revert cur. induction s as [|c s IH]; intros cur Hc; simpl.
  - destruct (decide (cur = [])); constructor; [split; assumption|constructor].
  - destruct (Ascii.eqb c slash) eqn:E.
    + destruct (decide (cur = [])).
      * apply IH. intros [].
      * constructor; [split; assumption|]. apply IH. intros [].
    + apply IH. rewrite in_app_iff. intros [H|[H|[]]]; [auto|].
      apply eqb_slash_false in E. congruence.
Qed.

Lemma tokens_valid s : Forall valid (tokens s).
Proof. apply tokens_aux_valid. intros []. Qed.

(** The leading slash-free run of a string. *)
Lemma leading_run (s : list ascii) :
  exists run rest, s = run ++ rest /\ ~ In slash run
                   /\ at_boundary rest = true.
Proof.
  induction s as [|c s (run & rest & -> & Hns & Hb)].
  - exists [], []. repeat split; auto.
  - destruct (Ascii.eqb c slash) eqn:E.
    + exists [], (c :: run ++ rest). repeat split; auto.
    + exists (c :: run), rest. repeat split; auto.
      intros [H|H]; [|auto]. apply eqb_slash_false in E. congruence.
Qed.

Lemma copy_element_run run rest out :
  ~ In slash run -> at_boundary rest = true ->
  copy_element (run ++ rest) out = (rest, out ++ run).
Proof.
  revert out. induction run as [|c run IH]; intros out Hns Hb.
  - rewrite app_nil_r. simpl.
    apply at_boundary_cases in Hb as [->|[r ->]]; reflexivity.
  - simpl. destruct (Ascii.eqb c slash) eqn:E.
    + apply eqb_slash_true in E. subst. exfalso. apply Hns. now left.
    + rewrite IH; [|intros ?; apply Hns; now right|assumption].
      unfold append. rewrite <- app_assoc. reflexivity.
Qed.

(** *** The loop is a fold of [step] over the elements *)

Lemma clean_loop_fold fuel rooted : forall rest out dotdot,
  (length rest <= fuel)%nat ->
  clean_loop fuel rooted rest out dotdot
  = fst (fold_left (step rooted) (tokens rest) (out, dotdot)).
Proof.
  induction fuel as [|fuel IH]; intros rest out dotdot Hlen.
  - destruct rest; [reflexivity|simpl in Hlen; lia].
  - destruct rest as [|c rest1]; [reflexivity|].
    simpl in Hlen. cbn [clean_loop].
    destruct (Ascii.eqb c slash) eqn:Ec.
    { apply eqb_slash_true in Ec. subst c. rewrite tokens_slash.
      apply IH. lia. }
    apply eqb_slash_false in Ec.
    destruct (Ascii.eqb c dot && at_boundary rest1) eqn:E1.
    { apply andb_true_iff in E1 as [E1 Hb]. apply Ascii.eqb_eq in E1.
      subst c. change (dot :: rest1) with ([dot] ++ rest1).
      rewrite tokens_run; [|discriminate|intros [H|[]]; discriminate|assumption].
      cbn [fold_left]. unfold step at 2.
      destruct (decide ([dot] = [dot])); [|congruence].
      apply IH. lia. }
    destruct (Ascii.eqb c dot
              && match rest1 with
                 | c1 :: rest2 => Ascii.eqb c1 dot && at_boundary rest2
                 | [] => false
                 end) eqn:E2.
    { apply andb_true_iff in E2 as [E2 H2]. apply Ascii.eqb_eq in E2.
      subst c. destruct rest1 as [|c1 rest2]; [discriminate|].
      apply andb_true_iff in H2 as [H2 Hb]. apply Ascii.eqb_eq in H2.
      subst c1. cbn [tl]. simpl in Hlen.
      change (dot :: dot :: rest2) with ([dot; dot] ++ rest2).
      rewrite tokens_run;
        [|discriminate|intros [H|[H|[]]]; discriminate|assumption].
      cbn [fold_left]. unfold step at 2.
      destruct (decide ([dot; dot] = [dot])); [discriminate|].
      destruct (decide ([dot; dot] = [dot; dot])); [|congruence].
      destruct (dotdot <? length out)%nat; [apply IH; lia|].
      destruct (negb rooted); apply IH; lia. }
    (* a real path element *)
    destruct (leading_run rest1) as (run & rest' & -> & Hns & Hb).
    assert (Hns' : ~ In slash (c :: run)).
    { intros [H|H]; [congruence|auto]. }
    change (c :: run ++ rest') with ((c :: run) ++ rest').
    rewrite copy_element_run by assumption.
    rewrite tokens_run; [|discriminate|assumption|assumption].
    cbn [fold_left]. unfold step at 2.
    destruct (decide (c :: run = [dot])) as [Hd|_].
    { exfalso. injection Hd as -> ->. simpl in E1.
      rewrite Hb in E1. discriminate. }
    destruct (decide (c :: run = [dot; dot])) as [Hd|_].
    { exfalso. injection Hd as -> ->. simpl in E2.
      rewrite Hb in E2. discriminate. }
    apply IH. rewrite length_app in Hlen. lia.
Qed.

(** *** Joined elements *)

Lemma join_cons t ts : join (t :: ts) = t ++ sep ts ++ join ts.
Proof. destruct ts; simpl; [rewrite app_nil_r|]; reflexivity. Qed.

Lemma join_snoc stk t : join (stk ++ [t]) = join stk ++ sep stk ++ t.
Proof.
  induction stk as [|u stk IH]; [reflexivity|].
  change ((u :: stk) ++ [t]) with (u :: (stk ++ [t])).
  rewrite !join_cons, IH.
  destruct stk; simpl; rewrite <- ?app_assoc; simpl; reflexivity.
Qed.

Lemma join_app_length a b : (length (join a) <= length (join (a ++ b)))%nat.
Proof.
  induction b as [|t b IH] using rev_ind.
  - rewrite app_nil_r. lia.
  - rewrite app_assoc, join_snoc, !length_app. lia.
Qed.

Lemma join_nil_inv stk : Forall valid stk -> join stk = [] -> stk = [].
Proof.
  destruct stk as [|t ts]; [reflexivity|].
  intros Hv. rewrite join_cons. inversion Hv as [|? ? [Hne _] _]; subst.
  destruct t; [congruence|discriminate].
Qed.

Lemma join_length_0 stk :
  Forall valid stk -> (length (join stk) =? 0)%nat = bool_decide (stk = []).
Proof.
  intros Hv. destruct stk as [|t ts]; [reflexivity|].
  rewrite bool_decide_eq_false_2 by discriminate.
  apply Nat.eqb_neq. intros H. apply length_zero_iff_nil in H.
  apply join_nil_inv in H; [discriminate|assumption].
Qed.

Lemma valid_dots k : Forall valid (dots k).
Proof.
  unfold dots. induction k; simpl; constructor; [|assumption].
  split; [discriminate|]. intros [H|[H|[]]]; discriminate.
Qed.

Lemma normal_valid t : normal t -> valid t.
Proof. now intros [H _]. Qed.

Lemma valid_stack k elems : Forall normal elems -> Forall valid (dots k ++ elems).
Proof.
  intros H. apply Forall_app. split; [apply valid_dots|].
  eapply Forall_impl; [exact H|]. apply normal_valid.
Qed.

Lemma dots_S k : dots (S k) = dots k ++ [[dot; dot]].
Proof.
  unfold dots. induction k; [reflexivity|].
  simpl in *. now rewrite <- IHk.
Qed.

(** *** Backtracking drops the last element *)

Lemma backtrack_loop_run dotdot e : forall c rsep rpre,
  c <> slash -> ~ In slash e ->
  (dotdot <= length rpre)%nat ->
  rsep = [slash] \/ (rsep = [] /\ length rpre = dotdot) ->
  backtrack_loop dotdot c (e ++ rsep ++ rpre) = rpre.
Proof.
  induction e as [|c' e IH]; intros c rsep rpre Hc He Hd Hsep.
  - cbn [app]. destruct Hsep as [->|[-> Hl]].
    + cbn [app backtrack_loop]. cbn [length].
      replace (dotdot <? S (length rpre))%nat with true
        by (symmetry; apply Nat.ltb_lt; lia).
      replace (Ascii.eqb c slash) with false
        by (symmetry; now apply eqb_slash_false).
      cbn [andb negb].
      destruct rpre as [|d r]; cbn [backtrack_loop];
        rewrite Ascii.eqb_refl, andb_false_r; reflexivity.
    + cbn [app]. destruct rpre as [|d r]; cbn [backtrack_loop];
        replace (dotdot <? _)%nat with false
          by (symmetry; apply Nat.ltb_ge; simpl in *; lia);
        reflexivity.
  - cbn [app backtrack_loop].
    replace (dotdot <? _)%nat with true.
    2:{ symmetry. apply Nat.ltb_lt. cbn [length].
        rewrite !length_app. lia. }
    replace (Ascii.eqb c slash) with false
      by (symmetry; now apply eqb_slash_false).
    cbn [andb negb]. apply IH; auto.
    + intros ->. apply He. now left.
    + intros H. apply He. now right.
Qed.

Lemma backtrack_element dotdot pre stk e :
  valid e -> (dotdot <= length pre)%nat ->
  (stk = [] -> length pre = dotdot) ->
  backtrack dotdot (pre ++ sep stk ++ e) = pre.
Proof.
  intros [Hne Hns] Hd Hs. unfold backtrack.
  rewrite !rev_app_distr, <- app_assoc.
  destruct (rev e) as [|c re] eqn:Er.
  { apply (f_equal (@rev ascii)) in Er. rewrite rev_involutive in Er.
    simpl in Er. congruence. }
  assert (Hin : forall x, In x (c :: re) -> x <> slash).
  { intros x Hx ->. apply Hns. apply in_rev. rewrite Er. exact Hx. }
  cbn [app].
  rewrite (backtrack_loop_run dotdot re c (rev (sep stk)) (rev pre)).
  - apply rev_involutive.
  - apply Hin. now left.
  - intros H. apply (Hin slash); [now right|reflexivity].
  - rewrite length_rev. exact Hd.
  - destruct stk; [right|left; reflexivity].
    split; [reflexivity|]. rewrite length_rev. now apply Hs.
Qed.

(** *** One element at a time on [state_of] *)

Lemma root_length_1 rooted stk :
  Forall valid stk ->
  (length (root rooted ++ join stk) =? (if rooted then 1 else 0))%nat
  = bool_decide (stk = []).
Proof.
  intros Hv. rewrite <- (join_length_0 stk Hv).
  destruct rooted; simpl; reflexivity.
Qed.

Lemma step_dot rooted st : step rooted st [dot] = st.
Proof.
  destruct st. unfold step.
  destruct (decide ([dot] = [dot])); congruence.
Qed.

Lemma step_normal rooted k elems tok :
  Forall normal elems -> normal tok ->
  step rooted (state_of rooted k elems) tok
  = state_of rooted k (elems ++ [tok]).
Proof.
  intros He (Hv & Hd & Hdd). unfold state_of, step.
  destruct (decide (tok = [dot])); [congruence|].
  destruct (decide (tok = [dot; dot])); [congruence|].
  f_equal. rewrite (app_assoc (dots k)), join_snoc.
  pose proof (root_length_1 rooted _ (valid_stack k elems He)) as Hl.
  unfold append.
  destruct rooted; cbn [andb negb orb] in *; rewrite ?orb_false_r;
    rewrite Hl; destruct (dots k ++ elems); simpl;
    rewrite <- ?app_assoc; reflexivity.
Qed.

Lemma step_dotdot_pop rooted k elems e :
  Forall normal elems -> normal e ->
  step rooted (state_of rooted k (elems ++ [e])) [dot; dot]
  = state_of rooted k elems.
Proof.
  intros He Hn. pose proof (normal_valid _ Hn) as Hv.
  unfold state_of, step.
  destruct (decide ([dot; dot] = [dot])); [discriminate|].
  destruct (decide ([dot; dot] = [dot; dot])); [|congruence].
  rewrite (app_assoc (dots k)), join_snoc.
  assert (Hd : (length (root rooted ++ join (dots k))
                <= length (root rooted ++ join (dots k ++ elems)))%nat).
  { rewrite !length_app. pose proof (join_app_length (dots k) elems). lia. }
  replace (_ <? _)%nat with true.
  2:{ symmetry. apply Nat.ltb_lt. destruct Hv as [Hne _].
      rewrite !length_app in *. destruct e; [congruence|]. simpl. lia. }
  f_equal. rewrite (app_assoc (root rooted)).
  apply backtrack_element; [assumption|assumption|].
  intros H. apply app_eq_nil in H as [-> ->]. reflexivity.
Qed.

Lemma step_dotdot_push k :
  step false (state_of false k []) [dot; dot] = state_of false (S k) [].
Proof.
  unfold state_of, step. rewrite !app_nil_r. cbn [root app].
  destruct (decide ([dot; dot] = [dot])); [discriminate|].
  destruct (decide ([dot; dot] = [dot; dot])); [|congruence].
  rewrite Nat.ltb_irrefl. cbn [negb].
  assert (E : append (append (if (0 <? length (join (dots k)))%nat
                              then append (join (dots k)) slash
                              else join (dots k)) dot) dot
              = join (dots (S k))).
  { rewrite dots_S, join_snoc. unfold append.
    pose proof (join_length_0 _ (valid_dots k)) as Hl.
    destruct (dots k) eqn:Ek.
    - reflexivity.
    - rewrite bool_decide_eq_false_2 in Hl by discriminate.
      apply Nat.eqb_neq in Hl.
      replace (0 <? _)%nat with true
        by (symmetry; apply Nat.ltb_lt; lia).
      cbn [sep]. rewrite <- !app_assoc. reflexivity. }
  rewrite E. reflexivity.
Qed.

Lemma step_dotdot_root :
  step true (state_of true 0 []) [dot; dot] = state_of true 0 [].
Proof. reflexivity. Qed.

(** *** The states the loop reaches *)

Lemma reachable_init rooted : reachable rooted (state_of rooted 0 []).
Proof. exists 0%nat, []. repeat split. constructor. Qed.

Lemma step_reachable rooted st tok :
  valid tok -> reachable rooted st -> reachable rooted (step rooted st tok).
Proof.
  intros Hv (k & elems & -> & He & Hk).
  destruct (decide (tok = [dot])) as [->|Hd].
  { rewrite step_dot. exists k, elems. auto. }
  destruct (decide (tok = [dot; dot])) as [->|Hdd].
  - destruct elems as [|e elems _] using rev_ind.
    + destruct rooted.
      * rewrite (Hk eq_refl), step_dotdot_root. apply reachable_init.
      * rewrite step_dotdot_push. exists (S k), []. repeat split.
        -- constructor.
        -- discriminate.
    + apply Forall_app in He as [He Hn]. inversion Hn; subst.
      rewrite step_dotdot_pop by assumption. exists k, elems. auto.
  - assert (Hn : normal tok) by (split; [exact Hv|split; assumption]).
    rewrite step_normal by assumption.
    exists k, (elems ++ [tok]). split; [reflexivity|]. split; [|assumption].
    apply Forall_app. split; [assumption|].
    constructor; [assumption|constructor].
Qed.

Lemma fold_reachable rooted toks : forall st,
  Forall valid toks -> reachable rooted st ->
  reachable rooted (fold_left (step rooted) toks st).
Proof.
  induction toks as [|t toks IH]; intros st Hv Hr; [exact Hr|].
  inversion Hv; subst. simpl. apply IH; [assumption|].
  now apply step_reachable.
Qed.

(** Run on its own elements, the loop rebuilds its state. *)
Lemma fold_stack rooted k elems :
  Forall normal elems -> (rooted = true -> k = 0%nat) ->
  fold_left (step rooted) (dots k ++ elems) (state_of rooted 0 [])
  = state_of rooted k elems.
Proof.
  intros He Hk. rewrite fold_left_app.
  assert (Hdots : fold_left (step rooted) (dots k) (state_of rooted 0 [])
                  = state_of rooted k []).
  { destruct rooted; [rewrite (Hk eq_refl); reflexivity|].
    clear. induction k as [|k IH]; [reflexivity|].
    rewrite dots_S, fold_left_app, IH. cbn [fold_left].
    apply step_dotdot_push. }
  rewrite Hdots. clear Hdots.
  induction elems as [|e elems IH] using rev_ind; [reflexivity|].
  apply Forall_app in He as [He Hn]. inversion Hn; subst.
  rewrite fold_left_app, IH by assumption. cbn [fold_left].
  now apply step_normal.
Qed.

Lemma tokens_join stk : Forall valid stk -> tokens (join stk) = stk.
Proof.
  induction stk as [|t ts IH]; intros Hv; [reflexivity|].
  inversion Hv as [|? ? [Hne Hns] Hts]; subst. rewrite join_cons.
  destruct ts as [|u ts].
  - cbn [sep join app]. rewrite tokens_run by auto. reflexivity.
  - cbn [sep app]. rewrite tokens_run by auto.
    rewrite tokens_slash, IH by assumption. reflexivity.
Qed.

(** *** [path.Clean] as a whole *)

Lemma join_head stk c r :
  Forall valid stk -> join stk = c :: r -> c <> slash.
Proof.
  destruct stk as [|t ts]; [discriminate|].
  intros Hv. inversion Hv as [|? ? [Hne Hns] _]; subst.
  rewrite join_cons. destruct t as [|d t]; [congruence|].
  simpl. intros Hj Hc. injection Hj as Hd _. subst. apply Hns. now left.
Qed.

Lemma join_not_dot k elems :
  Forall normal elems -> join (dots k ++ elems) <> [dot].
Proof.
  intros He H.
  destruct k as [|k];
    [|cbn [dots repeat app] in H; rewrite join_cons in H; discriminate].
  cbn [dots repeat app] in H. destruct elems as [|e elems]; [discriminate|].
  inversion He as [|? ? ((Hne & _) & Hd & _) _]; subst.
  rewrite join_cons in H. destruct e as [|c [|c' e]]; try congruence.
  - destruct elems; simpl in H; [congruence|discriminate].
  - discriminate.
Qed.

(** The result of [path.Clean] is the buffer of a reachable state. *)
Lemma clean_bytes_reach p :
  p <> [] ->
  exists rooted k elems,
    Forall normal elems /\ (rooted = true -> k = 0%nat) /\
    clean_bytes p
    = if (length (fst (state_of rooted k elems)) =? 0)%nat then [dot]
      else fst (state_of rooted k elems).
Proof.
  destruct p as [|c p']; [congruence|]. intros _.
  unfold clean_bytes. destruct (Ascii.eqb c slash) eqn:Ec.
  - cbn [tl]. rewrite clean_loop_fold by (simpl; lia).
    destruct (fold_reachable true (tokens p') (state_of true 0 [])
                (tokens_valid p') (reachable_init true))
      as (k & elems & E & He & Hk).
    change ([slash], 1%nat) with (state_of true 0 []). rewrite E.
    exists true, k, elems. auto.
  - rewrite clean_loop_fold by lia.
    destruct (fold_reachable false (tokens (c :: p')) (state_of false 0 [])
                (tokens_valid _) (reachable_init false))
      as (k & elems & E & He & Hk).
    change (@nil ascii, 0%nat) with (state_of false 0 []). rewrite E.
    exists false, k, elems. auto.
Qed.

(** A non-empty buffer of a reachable state is already clean. *)
Lemma clean_bytes_fixed rooted k elems :
  Forall normal elems -> (rooted = true -> k = 0%nat) ->
  fst (state_of rooted k elems) <> [] ->
  clean_bytes (fst (state_of rooted k elems)) = fst (state_of rooted k elems).
Proof.
  intros He Hk Hne. pose proof (valid_stack k elems He) as Hv.
  pose proof (fold_stack rooted k elems He Hk) as Hf.
  destruct rooted.
  - pose proof (Hk eq_refl). subst k.
    change (dots 0 ++ elems) with elems in Hf, Hv.
    change (fst (state_of true 0 elems)) with (slash :: join elems).
    unfold clean_bytes. rewrite Ascii.eqb_refl. cbn [tl].
    rewrite clean_loop_fold by (simpl; lia).
    rewrite tokens_join by assumption.
    change ([slash], 1%nat) with (state_of true 0 []). rewrite Hf.
    reflexivity.
  - change (fst (state_of false k elems)) with (join (dots k ++ elems)) in *.
    destruct (join (dots k ++ elems)) as [|c r] eqn:Ej; [congruence|].
    pose proof (join_head _ _ _ Hv Ej) as Hc.
    unfold clean_bytes.
    replace (Ascii.eqb c slash) with false
      by (symmetry; now apply eqb_slash_false).
    rewrite clean_loop_fold by lia.
    rewrite <- Ej, tokens_join by assumption.
    change (@nil ascii, 0%nat) with (state_of false 0 []). rewrite Hf.
    change (fst (state_of false k elems)) with (join (dots k ++ elems)).
    rewrite Ej. reflexivity.
Qed.

Lemma trim_slash_join stk :
  Forall valid stk -> trim_slash (join stk) = join stk.
Proof.
  intros Hv. destruct (join stk) as [|c r] eqn:Ej; [reflexivity|].
  pose proof (join_head _ _ _ Hv Ej) as Hc. simpl.
  replace (Ascii.eqb c slash) with false
    by (symmetry; now apply eqb_slash_false).
  reflexivity.
Qed.

Lemma normalize_bytes_join k elems :
  Forall normal elems ->
  normalize_bytes (join (dots k ++ elems)) = join (dots k ++ elems).
Proof.
  intros He. pose proof (valid_stack k elems He) as Hv.
  unfold normalize_bytes.
  destruct (join (dots k ++ elems)) as [|c r] eqn:Ej; [reflexivity|].
  rewrite <- Ej.
  change (join (dots k ++ elems)) with (fst (state_of false k elems)).
  rewrite clean_bytes_fixed; [|assumption|discriminate|].
  2:{ cbn [state_of fst root app]. rewrite Ej. discriminate. }
  cbn [state_of fst root app]. rewrite trim_slash_join by assumption.
  destruct (decide (join (dots k ++ elems) = [dot])) as [H|_]; [|reflexivity].
  exfalso. now apply (join_not_dot k elems).
Qed.

Lemma normalize_bytes_idem p :
  normalize_bytes (normalize_bytes p) = normalize_bytes p.
Proof.
  destruct p as [|c p']; [reflexivity|].
  destruct (clean_bytes_reach (c :: p')) as (rooted & k & elems & He & Hk & E);
    [discriminate|].
  unfold normalize_bytes at 2. unfold normalize_bytes at 2.
  rewrite E. clear E. cbn [state_of fst].
  destruct rooted.
  - rewrite (Hk eq_refl). cbn [root app length Nat.eqb trim_slash].
    rewrite Ascii.eqb_refl.
    destruct (decide (join (dots 0 ++ elems) = [dot])); [reflexivity|].
    now apply normalize_bytes_join.
  - cbn [root app]. pose proof (valid_stack k elems He) as Hv.
    rewrite join_length_0 by assumption.
    destruct (dots k ++ elems) as [|t ts] eqn:Es.
    + rewrite bool_decide_eq_true_2 by reflexivity. reflexivity.
    + rewrite bool_decide_eq_false_2 by discriminate.
      rewrite <- Es in *. rewrite trim_slash_join by assumption.
      destruct (decide (join (dots k ++ elems) = [dot])); [reflexivity|].
      now apply normalize_bytes_join.
Qed.

End clean_facts.

(** ** [path.Clean] does not create the bytes [..] *)

Module dotdot_facts.
Import path clean_spec clean_facts.

Lemma has_dotdot_app a b :
  has_dotdot (a ++ b) = false -> has_dotdot a = false /\ has_dotdot b = false.
Proof.
  induction a as [|c a IH]; [auto|].
  cbn [app has_dotdot]. intros H. apply orb_false_iff in H as [H1 H2].
  destruct (IH H2) as [Ha Hb]. split; [|exact Hb].
  rewrite Ha, orb_false_r. destruct a as [|d a]; [apply andb_false_r|].
  exact H1.
Qed.

Lemma has_dotdot_slash a b :
  has_dotdot a = false -> has_dotdot b = false ->
  has_dotdot (a ++ slash :: b) = false.
Proof.
  intros Ha Hb. induction a as [|c a IH].
  - cbn. exact Hb.
  - cbn [app has_dotdot] in *. apply orb_false_iff in Ha as [H1 H2].
    rewrite (IH H2), orb_false_r. destruct a as [|d a]; [|exact H1].
    cbn. apply andb_false_r.
Qed.

Lemma tokens_aux_dotdot cur s :
  has_dotdot (cur ++ s) = false ->
  Forall (fun t => has_dotdot t = false) (tokens_aux cur s).
Proof.
  revert cur. induction s as [|c s IH]; intros cur H.
  - rewrite app_nil_r in H. cbn.
    destruct (decide (cur = [])); repeat constructor. exact H.
  - cbn [tokens_aux]. destruct (Ascii.eqb c slash).
    + apply has_dotdot_app in H as [Hc Hs].
      assert (Hs' : has_dotdot ([] ++ s) = false).
      { cbn [has_dotdot] in Hs. now apply orb_false_iff in Hs as [_ Hs]. }
      destruct (decide (cur = [])); [|constructor; [exact Hc|]]; now apply IH.
    + apply IH. now rewrite <- app_assoc.
Qed.

Lemma join_dotdot stk :
  Forall (fun t => has_dotdot t = false) stk -> has_dotdot (join stk) = false.
Proof.
  induction stk as [|t ts IH]; intros H; [reflexivity|].
  inversion H; subst. rewrite join_cons. destruct ts as [|u ts].
  - cbn [sep join app]. now rewrite app_nil_r.
  - cbn [sep app]. apply has_dotdot_slash; [assumption|]. now apply IH.
Qed.

(** Without a [..] in the input, the loop keeps no [..] element and its
    elements are free of [..]. *)
Lemma fold_dotdot rooted toks : forall elems,
  Forall valid toks -> Forall (fun t => has_dotdot t = false) toks ->
  Forall normal elems -> Forall (fun t => has_dotdot t = false) elems ->
  exists elems',
    fold_left (step rooted) toks (state_of rooted 0 elems)
    = state_of rooted 0 elems'
    /\ Forall normal elems' /\ Forall (fun t => has_dotdot t = false) elems'.
Proof.
  induction toks as [|tok toks IH]; intros elems Hv Hd He Hde.
  - exists elems. auto.
  - inversion Hv; subst. inversion Hd; subst. cbn [fold_left].
    destruct (decide (tok = [dot])) as [->|Hdot].
    + rewrite step_dot. now apply IH.
    + assert (Hn : normal tok).
      { split; [assumption|]. split; [assumption|]. intros ->. discriminate. }
      rewrite step_normal by assumption. apply IH; try assumption.
      * apply Forall_app. split; [assumption|]. now constructor.
      * apply Forall_app. split; [assumption|]. now constructor.
Qed.

Lemma normalize_bytes_dotdot p :
  has_dotdot p = false -> has_dotdot (normalize_bytes p) = false.
Proof.
  intros Hp. destruct p as [|c p']; [reflexivity|].
  unfold normalize_bytes, clean_bytes.
  assert (Hrun : forall rooted rest,
             has_dotdot rest = false ->
             exists elems,
               fst (fold_left (step rooted) (tokens rest) (state_of rooted 0 []))
               = root rooted ++ join elems
               /\ Forall valid elems
               /\ Forall (fun t => has_dotdot t = false) elems).
  { intros rooted rest Hr.
    destruct (fold_dotdot rooted (tokens rest) [] (tokens_valid rest)
                (tokens_aux_dotdot [] rest Hr) (List.Forall_nil _)
                (List.Forall_nil _))
      as (elems & E & Hn & Hd).
    exists elems. rewrite E. split; [reflexivity|]. split; [|exact Hd].
    eapply Forall_impl; [exact Hn|]. apply normal_valid. }
  assert (Hfinal : forall elems,
             Forall valid elems ->
             Forall (fun t => has_dotdot t = false) elems ->
             has_dotdot
               (if decide (trim_slash (join elems) = [dot]) then []
                else trim_slash (join elems)) = false).
  { intros elems Hv Hd. rewrite trim_slash_join by assumption.
    destruct (decide (join elems = [dot])); [reflexivity|].
    now apply join_dotdot. }
  destruct (Ascii.eqb c slash) eqn:Ec.
  - cbn [tl]. rewrite clean_loop_fold by (simpl; lia).
    change ([slash], 1%nat) with (state_of true 0 []).
    destruct (Hrun true p') as (elems & -> & Hv & Hd).
    { cbn [has_dotdot] in Hp. now apply orb_false_iff in Hp as [_ Hp]. }
    cbn [root app length Nat.eqb trim_slash]. rewrite Ascii.eqb_refl.
    destruct (decide (join elems = [dot])); [reflexivity|].
    now apply join_dotdot.
  - rewrite clean_loop_fold by lia.
    change (@nil ascii, 0%nat) with (state_of false 0 []).
    destruct (Hrun false (c :: p') Hp) as (elems & -> & Hv & Hd).
    cbn [root app]. rewrite join_length_0 by assumption.
    destruct elems as [|t ts].
    + reflexivity.
    + rewrite bool_decide_eq_false_2 by discriminate. now apply Hfinal.
Qed.

End dotdot_facts.

(** ** Properties of the path layer *)

Section PathLayer.
Import path clean_spec clean_facts.

Lemma substring_all s : String.substring 0 (String.length s) s = s.
Proof. induction s as [|c s IH]; simpl; [reflexivity|now rewrite IH]. Qed.

Lemma TrimPrefix_slash s :
  strings.TrimPrefix s "/"
  = string_of_list_ascii (trim_slash (list_ascii_of_string s)).
Proof.
  unfold strings.TrimPrefix. destruct s as [|c s]; [reflexivity|].
  cbn [strings.HasPrefix list_ascii_of_string trim_slash].
  rewrite andb_true_r. change "/"%char with slash.
  destruct (Ascii.eqb c slash).
  - cbn [String.length]. rewrite Nat.sub_succ, Nat.sub_0_r.
    cbn [String.substring]. rewrite substring_all.
    now rewrite string_of_list_ascii_of_string.
  - cbn [string_of_list_ascii]. now rewrite string_of_list_ascii_of_string.
Qed.

Lemma eqb_dot_bytes l :
  String.eqb (string_of_list_ascii l) "." = bool_decide (l = [dot]).
Proof.
  destruct (decide (l = [dot])) as [->|Hn].
  - reflexivity.
  - rewrite bool_decide_eq_false_2 by assumption.
    apply String.eqb_neq. intros H. apply Hn.
    apply (f_equal list_ascii_of_string) in H.
    now rewrite list_ascii_of_string_of_list_ascii in H.
Qed.

(** [normalizePath] is [normalize_bytes] on the bytes of the path. *)
Lemma normalizePath_bytes p :
  normalizePath p
  = string_of_list_ascii (normalize_bytes (list_ascii_of_string p)).
Proof.
  destruct p as [|c p]; [reflexivity|].
  unfold normalizePath, Clean, normalize_bytes.
  cbn [String.eqb list_ascii_of_string].
  rewrite TrimPrefix_slash, list_ascii_of_string_of_list_ascii, eqb_dot_bytes.
  destruct (decide (trim_slash (clean_bytes (c :: list_ascii_of_string p))
                    = [dot])) as [E|E].
  - now rewrite bool_decide_eq_true_2.
  - now rewrite bool_decide_eq_false_2.
Qed.

End PathLayer.

Lemma Contains_dotdot_bytes s :
  strings.Contains s ".." = clean_spec.has_dotdot (list_ascii_of_string s).
Proof.
  induction s as [|c s IH]; [reflexivity|].
  cbn [strings.Contains strings.HasPrefix list_ascii_of_string
       clean_spec.has_dotdot].
  rewrite IH. f_equal. f_equal.
  destruct s as [|d s]; [reflexivity|]. cbn. apply andb_true_r.
Qed.

Lemma normalizePath_idem p : normalizePath (normalizePath p) = normalizePath p.
Proof.
  rewrite !normalizePath_bytes.
  rewrite list_ascii_of_string_of_list_ascii.
  now rewrite clean_facts.normalize_bytes_idem.
Qed.

(** A path that passes [validatePath] still passes it once normalized. *)
Lemma normalizePath_valid p :
  validatePath p = None -> validatePath (normalizePath p) = None.
Proof.
  unfold validatePath. intros H.
  destruct (String.eqb (normalizePath p) ""); [reflexivity|].
  destruct (String.eqb p "") eqn:E.
  - apply String.eqb_eq in E. subst p. reflexivity.
  - destruct (strings.Contains p "..") eqn:Ec; [discriminate|].
    rewrite Contains_dotdot_bytes in Ec.
    rewrite normalizePath_bytes, Contains_dotdot_bytes.
    rewrite list_ascii_of_string_of_list_ascii.
    now rewrite dotdot_facts.normalize_bytes_dotdot.
Qed.

(** C7: [normalizePath] is idempotent on every string, and it maps [""],
    ["."] and ["/"] to the empty string, the root of the repository. *)
Theorem normalizePath_idempotent :
  (forall p : string, normalizePath (normalizePath p) = normalizePath p)
  /\ normalizePath "" = "" /\ normalizePath "." = "" /\ normalizePath "/" = "".
Proof.
  split; [exact normalizePath_idem|repeat split].
Qed.

(** *** [strings.Contains] and the segments of a path *)

Lemma HasPrefix_app sub b : strings.HasPrefix (sub +:+ b) sub = true.
Proof.
  induction sub as [|c sub IH]; [reflexivity|].
  simpl. now rewrite Ascii.eqb_refl, IH.
Qed.

Lemma HasPrefix_inv s sub :
  strings.HasPrefix s sub = true -> exists b, s = sub +:+ b.
Proof.
  revert s. induction sub as [|c sub IH]; intros s H.
  - exists s. reflexivity.
  - destruct s as [|d s]; [discriminate|]. simpl in H.
    apply andb_true_iff in H as [Hc H]. apply Ascii.eqb_eq in Hc. subst d.
    destruct (IH _ H) as [b ->]. exists b. reflexivity.
Qed.

Lemma Contains_HasPrefix s sub :
  strings.HasPrefix s sub = true -> strings.Contains s sub = true.
Proof. destruct s; simpl; intros ->; reflexivity. Qed.

Lemma Contains_app a sub b : strings.Contains (a +:+ sub +:+ b) sub = true.
Proof.
  induction a as [|c a IH].
  - change ("" +:+ sub +:+ b) with (sub +:+ b).
    apply Contains_HasPrefix, HasPrefix_app.
  - change (String c a +:+ sub +:+ b) with (String c (a +:+ sub +:+ b)).
    cbn [strings.Contains]. rewrite IH. apply orb_true_r.
Qed.

Lemma Contains_inv s sub :
  strings.Contains s sub = true -> exists a b, s = a +:+ sub +:+ b.
Proof.
  induction s as [|c s IH]; intros H.
  - simpl in H. rewrite orb_false_r in H.
    apply HasPrefix_inv in H as [b ->]. exists "", b. reflexivity.
  - cbn [strings.Contains] in H. apply orb_true_iff in H as [H|H].
    + apply HasPrefix_inv in H as [b ->]. exists "", b. reflexivity.
    + destruct (IH H) as (a & b & ->). exists (String c a), b. reflexivity.
Qed.

Lemma segments_head p :
  exists seg segs b, segments p = seg :: segs /\ p = seg +:+ b.
Proof.
  induction p as [|c p (seg & segs & b & E & Hp)].
  - exists "", [], "". split; reflexivity.
  - simpl. destruct (Ascii.eqb c path.slash).
    + exists "", (segments p), (String c p). split; reflexivity.
    + rewrite E. exists (String c seg), segs, b. split; [reflexivity|].
      change (String c seg +:+ b) with (String c (seg +:+ b)). now f_equal.
Qed.

Lemma segments_in p seg :
  In seg (segments p) -> exists a b, p = a +:+ seg +:+ b.
Proof.
  induction p as [|c p IH]; simpl.
  - intros [<-|[]]. exists "", "". reflexivity.
  - destruct (Ascii.eqb c path.slash).
    + intros [<-|H].
      * exists "", (String c p). reflexivity.
      * destruct (IH H) as (a & b & ->). exists (String c a), b. reflexivity.
    + destruct (segments_head p) as (s0 & segs & b & E & Hp).
      rewrite E in *. intros [<-|H].
      * exists "", b.
        change ("" +:+ String c s0 +:+ b) with (String c (s0 +:+ b)).
        now f_equal.
      * destruct (IH (or_intror H)) as (a & b' & ->).
        exists (String c a), b'. reflexivity.
Qed.

(** C8: [validatePath] returns [ErrInvalidPath] for every non-empty path
    that contains the two bytes [..] anywhere, also inside one segment as
    in [a..b] or [file..txt], which have no [..] segment; every path with
    a [..] segment is rejected too, so the check is strictly broader than
    the rejection of [..] segments. *)
Theorem validatePath_rejects_dotdot_substring :
  (forall p : string,
      p <> "" -> (exists a b, p = a +:+ ".." +:+ b) ->
      validatePath p = Some ErrInvalidPath)
  /\ (validatePath "a..b" = Some ErrInvalidPath
      /\ ~ In ".." (segments "a..b"))
  /\ (validatePath "file..txt" = Some ErrInvalidPath
      /\ ~ In ".." (segments "file..txt"))
  /\ (forall p : string,
         In ".." (segments p) -> validatePath p = Some ErrInvalidPath).
Proof.
  assert (Hsub : forall p, (exists a b, p = a +:+ ".." +:+ b) ->
                           validatePath p = Some ErrInvalidPath).
  { intros p (a & b & ->). unfold validatePath.
    rewrite Contains_app.
    destruct (String.eqb (a +:+ ".." +:+ b) "") eqn:E; [|reflexivity].
    apply String.eqb_eq in E. destruct a; discriminate. }
  split; [intros p _; apply Hsub|].
  split; [split; [reflexivity|simpl; intros [H|[]]; discriminate]|].
  split; [split; [reflexivity|simpl; intros [H|[]]; discriminate]|].
  intros p H. apply Hsub. now apply segments_in.
Qed.

Lemma validatePath_rejects_dotdot_substring_witness :
  validatePath "dir/a..b" = Some ErrInvalidPath.
Proof.
  apply (proj1 validatePath_rejects_dotdot_substring "dir/a..b").
  - discriminate.
  - exists "dir/a", "b". reflexivity.
Defined.

(** ** Properties of the backend operations *)

Lemma translateError_translated err resp :
  translateError (Some err) resp = Some (translated err resp).
Proof.
  unfold translated. destruct (translateError (Some err) resp) eqn:E;
    [reflexivity|].
  unfold translateError in E.
  destruct (resp ≫= classify_status); [discriminate|].
  destruct err as [[code|]|]; try discriminate.
  destruct (classify_status code); discriminate.
Qed.

Lemma classify_status_cases code e :
  classify_status code = Some e -> e = ErrNotFound \/ e = ErrPermissionDenied.
Proof.
  unfold classify_status.
  destruct (code =? 404)%Z; [intros [= <-]; auto|].
  destruct ((code =? 403)%Z || (code =? 401)%Z); [intros [= <-]; auto|].
  discriminate.
Qed.

(** The classifier returns [ErrNotFound], [ErrPermissionDenied] or the
    wrapped transport error, nothing else. *)
Lemma translated_cases err resp :
  translated err resp = ErrNotFound
  \/ translated err resp = ErrPermissionDenied
  \/ translated err resp = ErrWrapped err.
Proof.
  unfold translated, translateError.
  destruct (resp ≫= classify_status) as [e|] eqn:E.
  - destruct resp as [code|]; [|discriminate]. simpl in E.
    apply classify_status_cases in E as [->| ->]; auto.
  - destruct err as [[code|]|]; auto.
    destruct (classify_status code) as [e|] eqn:E'; auto.
    apply classify_status_cases in E' as [->| ->]; auto.
Qed.

(** A failure classified as NotFound passes the 404 test of [Exists]
    and [Delete]. *)
Lemma not_found_is_404 err resp :
  translateError (Some err) resp = Some ErrNotFound -> is_404 err resp = true.
Proof.
  unfold translateError, is_404, status_is, classify_status.
  destruct resp as [code|]; simpl.
  - destruct (code =? 404)%Z; [reflexivity|].
    destruct ((code =? 403)%Z || (code =? 401)%Z); [discriminate|].
    destruct err as [[c|]|]; try discriminate.
    destruct (c =? 404)%Z; [reflexivity|].
    destruct ((c =? 403)%Z || (c =? 401)%Z); discriminate.
  - destruct err as [[c|]|]; try discriminate.
    destruct (c =? 404)%Z; [reflexivity|].
    destruct ((c =? 403)%Z || (c =? 401)%Z); discriminate.
Qed.

Section BackendFacts.

Context {W : Type}.
Variable client : forall c : Call, W -> Answer c * W.

Lemma call_eq (c : Call) (s : @State W) a w' :
  client c (world s) = (a, w') -> call client c s = (a, after s w' [c]).
Proof. unfold call. now intros ->. Qed.

Lemma after_after (s : @State W) w1 w2 l1 l2 :
  after (after s w1 l1) w2 l2 = after s w2 (l1 ++ l2).
Proof. unfold after. simpl. now rewrite app_assoc. Qed.

Lemma guards_pass (b : Backend) (ctx : Ctx) v (s : @State W) :
  closed b = false -> ctx (world s) = None ->
  guards b ctx v s = (v ≫= validatePath, s).
Proof.
  intros Hc Hx. unfold guards, checkClosed, bind, ctx_Err, ret.
  now rewrite Hc, Hx.
Qed.

(** The guards issue no call, and return the lifecycle error, the
    context error or the verdict of [validatePath]. *)
Lemma guards_cases (b : Backend) (ctx : Ctx) v (s : @State W) :
  snd (guards b ctx v s) = s
  /\ (fst (guards b ctx v s) = Some ErrBackendClosed
      \/ (exists e, fst (guards b ctx v s) = Some (ErrContext e))
      \/ (closed b = false /\ ctx (world s) = None
          /\ fst (guards b ctx v s) = v ≫= validatePath)).
Proof.
  unfold guards, checkClosed, bind, ctx_Err, ret.
  destruct (closed b); [auto|].
  destruct (ctx (world s)) as [e|]; simpl; eauto 6.
Qed.

End BackendFacts.

Section DeleteFacts.

Context {W : Type}.
Variable client : forall c : Call, W -> Answer c * W.

(** [Delete] once its guards have passed and the lookup has answered. *)
Lemma Delete_run (b : Backend) (ctx : Ctx) (filePath : string)
  (s : @State W) (r : Contents) (w' : W) :
  closed b = false -> ctx (world s) = None ->
  validatePath filePath = None -> filePath <> "" ->
  client (GetContents (normalizePath filePath) (Branch (config b))) (world s)
  = (r, w') ->
  Delete client b ctx filePath s
  = let lookup := GetContents (normalizePath filePath) (Branch (config b)) in
    match contentsErr r, fileContent r with
    | Some err, _ =>
        (if is_404 err (contentsResp r) then None
         else Some (translated err (contentsResp r)), after s w' [lookup])
    | None, None =>
        (Some (ErrCannotDeleteDirectory filePath), after s w' [lookup])
    | None, Some fc =>
        let del := DeleteFile (normalizePath filePath)
                     (delete_options b (normalizePath filePath) (GetSHA fc)) in
        let '(a, w'') := client del w' in
        (match a with
         | Failure resp err => Some (translated err resp)
         | Success _ => None
         end, after s w'' [lookup; del])
    end.
Proof.
  intros Hc Hx Hv Hne Hl. unfold Delete, bind at 1.
  rewrite guards_pass by assumption. cbn [mbind option_bind]. rewrite Hv.
  apply String.eqb_neq in Hne. rewrite Hne.
  unfold bind at 1. rewrite (call_eq client _ _ _ _ Hl).
  cbv zeta. destruct (contentsErr r) as [err|].
  - destruct (is_404 err (contentsResp r)); reflexivity.
  - destruct (fileContent r) as [fc|]; [|reflexivity].
    unfold bind, call. simpl.
    destruct (client _ w') as [a w'']. rewrite <- app_assoc.
    destruct a; reflexivity.
Qed.

(** C6: when the lookup of [Delete] fails with an error classified as
    NotFound, [Delete] returns success and its only call is the lookup, so
    it issues no mutation; when the lookup resolves to a directory (no
    error and no file content), [Delete] fails with the
    cannot-delete-directory error, again without a mutation. *)
Theorem Delete_not_found_and_directory (b : Backend) (ctx : Ctx)
  (filePath : string) (s : @State W) (r : Contents) (w' : W) :
  closed b = false -> ctx (world s) = None ->
  validatePath filePath = None -> filePath <> "" ->
  client (GetContents (normalizePath filePath) (Branch (config b))) (world s)
  = (r, w') ->
  let lookup := GetContents (normalizePath filePath) (Branch (config b)) in
  (forall err,
      contentsErr r = Some err ->
      translateError (Some err) (contentsResp r) = Some ErrNotFound ->
      Delete client b ctx filePath s = (None, after s w' [lookup]))
  /\ (contentsErr r = None -> fileContent r = None ->
      Delete client b ctx filePath s
      = (Some (ErrCannotDeleteDirectory filePath), after s w' [lookup]))
  /\ List.filter is_mutation [lookup] = [].
Proof.
  intros Hc Hx Hv Hne Hl lookup.
  pose proof (Delete_run b ctx filePath s r w' Hc Hx Hv Hne Hl) as Hrun.
  cbv zeta in Hrun. repeat split.
  - intros err He Hnf. rewrite Hrun, He.
    now rewrite (not_found_is_404 _ _ Hnf).
  - intros He Hf. now rewrite Hrun, He, Hf.
Qed.

(** C9: with a custom commit-message template, the message [Delete]
    passes to the delete mutation is the template with the normalized path
    substituted for [{path}] and then every [Update] of the whole result
    replaced by [Delete]; a path that contains [Update] is therefore
    rewritten inside the message. *)
Theorem Delete_commit_message (b : Backend) (ctx : Ctx) (filePath : string)
  (s : @State W) (r : Contents) (fc : RepositoryContent) (w' : W) :
  closed b = false -> ctx (world s) = None ->
  validatePath filePath = None -> filePath <> "" ->
  CommitMessage (config b) <> "" ->
  client (GetContents (normalizePath filePath) (Branch (config b))) (world s)
  = (r, w') ->
  contentsErr r = None -> fileContent r = Some fc ->
  let normalPath := normalizePath filePath in
  let msg :=
    strings.ReplaceAll
      (strings.ReplaceAll (CommitMessage (config b)) "{path}" normalPath)
      "Update" "Delete" in
  let del :=
    DeleteFile normalPath
      {| optMessage := msg; optContent := ""; optSHA := Some (GetSHA fc);
         optBranch := Branch (config b); optAuthor := author_of b |} in
  trace (Delete client b ctx filePath s).2
  = trace s ++ [GetContents normalPath (Branch (config b)); del]
  /\ deleteCommitMessage example.bot_cfg (normalizePath "Updates/a.txt")
     = "[bot] Delete Deletes/a.txt".
Proof.
  intros Hc Hx Hv Hne Hm Hl He Hf normalPath msg del.
  split; [|reflexivity].
  rewrite (Delete_run b ctx filePath s r w' Hc Hx Hv Hne Hl), He, Hf.
  cbv zeta. unfold delete_options, deleteCommitMessage.
  apply String.eqb_neq in Hm. rewrite Hm. cbn [negb].
  fold normalPath. fold msg. fold del.
  destruct (client del w') as [a w'']. reflexivity.
Qed.

End DeleteFacts.

Lemma Delete_not_found_and_directory_witness :
  Delete remote.client example.backend remote.background "missing.txt"
    example.start
  = (None,
     after example.start example.store [GetContents "missing.txt" "main"])
  /\ Delete remote.client example.backend remote.background "a" example.start
     = (Some (ErrCannotDeleteDirectory "a"),
        after example.start example.store [GetContents "a" "main"]).
Proof.
  split.
  - refine (proj1 (Delete_not_found_and_directory remote.client
                     example.backend remote.background "missing.txt"
                     example.start
                     (remote.get_contents example.store "missing.txt" "main")
                     example.store _ _ _ _ _)
                  (ErrorResponse (Some 404%Z)) _ _);
      first [reflexivity | discriminate | vm_compute; reflexivity].
  - refine (proj1 (proj2 (Delete_not_found_and_directory remote.client
                     example.backend remote.background "a"
                     example.start
                     (remote.get_contents example.store "a" "main")
                     example.store _ _ _ _ _)) _ _);
      first [reflexivity | discriminate | vm_compute; reflexivity].
Defined.

Lemma Delete_commit_message_witness :
  trace (Delete remote.client example.bot_backend remote.background
           "/Updates/a.txt" example.start).2
  = [GetContents "Updates/a.txt" "main";
     DeleteFile "Updates/a.txt"
       {| optMessage := "[bot] Delete Deletes/a.txt"; optContent := "";
          optSHA := Some "sha2"; optBranch := "main";
          optAuthor := Some {| Name := "My Bot"; Email := "bot@example.com" |}
       |}].
Proof.
  refine (proj1 (Delete_commit_message remote.client example.bot_backend
                   remote.background "/Updates/a.txt" example.start
                   (remote.get_contents example.store "Updates/a.txt" "main")
                   (remote.file_content example.store "sha2")
                   example.store _ _ _ _ _ _ _ _));
    first [reflexivity | discriminate | vm_compute; reflexivity].
Defined.

Section WriterFacts.

Context {W : Type}.
Variable client : forall c : Call, W -> Answer c * W.

(** [writer.Close] once its guards have passed and the lookup has
    answered. *)
Lemma writer_Close_run (b : Backend) (w : writer) (s : @State W)
  (r : Contents) (w' : W) :
  w_closed w = false -> closed b = false -> w_ctx w (world s) = None ->
  client (GetContents (filePath w) (Branch (config b))) (world s) = (r, w') ->
  writer_Close client b w s
  = let lookup := GetContents (filePath w) (Branch (config b)) in
    match existingSHA r with
    | inr e => (e, with_closed w true, after s w' [lookup])
    | inl sha =>
        let create := CreateFile (filePath w) (write_options b w sha) in
        let '(a, w'') := client create w' in
        (match a with
         | Failure resp err => Some (translated err resp)
         | Success _ => None
         end, with_closed w true, after s w'' [lookup; create])
    end.
Proof.
  intros Hw Hc Hx Hl. unfold writer_Close. rewrite Hw. unfold bind at 1.
  rewrite guards_pass by assumption. cbn [mbind option_bind].
  unfold bind at 1. cbn [with_closed filePath].
  rewrite (call_eq client _ _ _ _ Hl). cbv zeta.
  destruct (existingSHA r) as [sha|e]; [|reflexivity].
  unfold bind, call. simpl.
  destruct (client _ w') as [a w'']. rewrite <- app_assoc.
  destruct a; reflexivity.
Qed.

(** The three outcomes of the lookup of [writer.Close]: a failure
    classified as NotFound, a directory, a failure without a response. *)
Lemma writer_Close_outcomes (b : Backend) (w : writer)
  (s : @State W) (r : Contents) (w' : W) :
  w_closed w = false -> closed b = false -> w_ctx w (world s) = None ->
  client (GetContents (filePath w) (Branch (config b))) (world s) = (r, w') ->
  let lookup := GetContents (filePath w) (Branch (config b)) in
  let create := CreateFile (filePath w) (write_options b w None) in
  let proceeds :=
    forall a w'', client create w' = (a, w'') ->
      writer_Close client b w s
      = (match a with
         | Failure resp err => Some (translated err resp)
         | Success _ => None
         end, with_closed w true, after s w'' [lookup; create]) in
  (forall err,
      contentsErr r = Some err ->
      translateError (Some err) (contentsResp r) = Some ErrNotFound ->
      proceeds)
  /\ (forall code,
         contentsErr r = None -> fileContent r = None ->
         contentsResp r = Some code -> code <> 404%Z ->
         writer_Close client b w s
         = (None, with_closed w true, after s w' [lookup]))
  /\ (forall err,
         contentsErr r = Some err -> contentsResp r = None -> proceeds).
Proof.
  intros Hw Hc Hx Hl lookup create proceeds.
  pose proof (writer_Close_run b w s r w' Hw Hc Hx Hl) as Hrun.
  cbv zeta in Hrun.
  assert (Hgo : existingSHA r = inl None -> proceeds).
  { intros E a w'' Ha. rewrite Hrun, E. fold create. now rewrite Ha. }
  repeat split.
  - intros err He Hnf. apply Hgo. unfold existingSHA. rewrite He.
    apply not_found_is_404 in Hnf. unfold is_404 in Hnf.
    destruct (contentsResp r) as [code|]; [|reflexivity].
    simpl in Hnf. destruct (code =? 404)%Z; [reflexivity|].
    simpl in *. destruct err as [st|]; [|discriminate].
    now rewrite Hnf.
  - intros code He Hf Hr Hcode. rewrite Hrun. unfold existingSHA.
    rewrite He, Hf, Hr. apply Z.eqb_neq in Hcode. now rewrite Hcode.
  - intros err He Hr. apply Hgo. unfold existingSHA. now rewrite He, Hr.
Qed.

End WriterFacts.

(** C3, the outcomes of the lookup of [writer.Close] as the code has
    them, for every client.  A failure classified as NotFound goes on to
    the create-or-update mutation without a version marker.  A lookup
    that succeeds on a directory (no error, no file content, a response
    other than 404) returns nil, that is success, without any mutation:
    no error is raised.  A failure that carries no response (a transport
    failure) does not abort either: the mutation is issued without a
    version marker and its outcome is what [Close] returns.  On the
    example repository: closing a writer on the directory [a] returns
    success after the lookup alone, and closing a writer on [a/b.txt]
    behind a transport that fails the lookup issues the mutation and
    returns the rejection of the store. *)
Theorem writer_Close_lookup_outcomes :
  (forall (W : Type) (client : forall c : Call, W -> Answer c * W)
          (b : Backend) (w : writer) (s : @State W) (r : Contents) (w' : W),
      w_closed w = false -> closed b = false -> w_ctx w (world s) = None ->
      client (GetContents (filePath w) (Branch (config b))) (world s)
      = (r, w') ->
      let lookup := GetContents (filePath w) (Branch (config b)) in
      let create := CreateFile (filePath w) (write_options b w None) in
      let proceeds :=
        forall a w'', client create w' = (a, w'') ->
          writer_Close client b w s
          = (match a with
             | Failure resp err => Some (translated err resp)
             | Success _ => None
             end, with_closed w true, after s w'' [lookup; create]) in
      (forall err,
          contentsErr r = Some err ->
          translateError (Some err) (contentsResp r) = Some ErrNotFound ->
          proceeds)
      /\ (forall code,
             contentsErr r = None -> fileContent r = None ->
             contentsResp r = Some code -> code <> 404%Z ->
             writer_Close client b w s
             = (None, with_closed w true, after s w' [lookup]))
      /\ (forall err,
             contentsErr r = Some err -> contentsResp r = None -> proceeds))
  /\ writer_Close remote.client example.backend
       (example.new_writer "a" "data") example.start
     = (None, with_closed (example.new_writer "a" "data") true,
        after example.start example.store [GetContents "a" "main"])
  /\ (let r := writer_Close remote.client example.backend
                 (example.new_writer "a/b.txt" "world")
                 (example.start_failing [Some (None, TransportError "EOF")]) in
      r.1 = (Some (ErrWrapped (ErrorResponse (Some 422%Z))),
             with_closed (example.new_writer "a/b.txt" "world") true)
      /\ trace r.2
         = [GetContents "a/b.txt" "main";
            CreateFile "a/b.txt"
              (write_options example.backend
                 (example.new_writer "a/b.txt" "world") None)]).
Proof.
  split; [intros W client; apply writer_Close_outcomes|].
  split; vm_compute; repeat split.
Qed.

Lemma writer_Close_lookup_outcomes_witness :
  writer_Close remote.client example.backend (example.new_writer "a" "data")
    example.start
  = (None, with_closed (example.new_writer "a" "data") true,
     after example.start example.store [GetContents "a" "main"]).
Proof.
  refine (proj1 (proj2 (proj1 writer_Close_lookup_outcomes
                     remote.Store remote.client
                     example.backend (example.new_writer "a" "data")
                     example.start
                     (remote.get_contents example.store "a" "main")
                     example.store _ _ _ _)) 200%Z _ _ _ _);
    first [reflexivity | discriminate | vm_compute; reflexivity].
Defined.

Section BatchFacts.

Context {W : Type}.
Variable client : forall c : Call, W -> Answer c * W.

(** C5 as amended: a [Commit] on an empty queue issues no network call
    in any state; on an uncommitted batch, with the backend open and the
    context live, it marks the batch Committed and returns success. *)
Theorem Commit_empty_queue (b : Backend) (batch : Batch) (s : @State W) :
  operations batch = [] ->
  (Batch_Commit client b batch s).2 = s
  /\ (committed batch = false -> closed b = false ->
      b_ctx batch (world s) = None ->
      Batch_Commit client b batch s = (None, with_committed batch true, s)).
Proof.
  intros Hops. unfold Batch_Commit. rewrite Hops. split.
  - destruct (committed batch); [reflexivity|]. unfold bind.
    destruct (guards_cases b (b_ctx batch) None s) as [Hs _].
    destruct (guards b (b_ctx batch) None s) as [[e|] s'];
      simpl in *; now subst.
  - intros Hcm Hc Hx. rewrite Hcm. unfold bind.
    now rewrite guards_pass.
Qed.

End BatchFacts.

Section CommitFacts.

Context {W : Type}.
Variable client : forall c : Call, W -> Answer c * W.

(* An error return of [Batch_Commit]: the batch is the one that came in. *)
Ltac aborted := cbn; split; [reflexivity|]; intros ? ?; congruence.

(** C4: on a non-empty batch, whenever [Commit] returns an error the
    batch is left as it was, so its committed flag is unchanged; and an
    uncommitted batch comes out Committed only when [Commit] returns
    success after every step of the sequence has succeeded. *)
Theorem Commit_committed_only_on_success (b : Backend) (batch : Batch)
  (s : @State W) :
  operations batch <> [] ->
  let '(e, batch', s') := Batch_Commit client b batch s in
  (e <> None -> batch' = batch)
  /\ (committed batch = false -> committed batch' = true ->
      e = None /\ commit_succeeds client b batch s s').
Proof.
  intros Hops. unfold Batch_Commit.
  destruct (committed batch) eqn:Hcm; [aborted|].
  unfold bind at 1.
  destruct (guards_cases b (b_ctx batch) None s) as [Hs _].
  destruct (guards b (b_ctx batch) None s) as [[e|] s0]; simpl in Hs; subst s0;
    [aborted|].
  destruct (operations batch) as [|op ops] eqn:Eops; [congruence|].
  cbn [length Nat.eqb]. unfold bind at 1.
  destruct (call client (GetRef _) s) as [[ref|resp err] s1] eqn:E1;
    [|aborted].
  unfold bind at 1.
  destruct (call client (GetCommit _) s1) as [[cur|resp err] s2] eqn:E2;
    [|aborted].
  unfold bind at 1.
  destruct (buildTreeEntries client b batch s2) as [[entries|e] s3] eqn:E3;
    [|aborted].
  unfold bind at 1.
  destruct (call client (CreateTree _ _) s3) as [[newTree|resp err] s4] eqn:E4;
    [|aborted].
  unfold bind at 1.
  destruct (call client (CreateCommit _) s4) as [[newCommit|resp err] s5]
    eqn:E5; [|aborted].
  unfold bind at 1.
  destruct (call client (UpdateRef _ _) s5) as [[ref'|resp err] s6] eqn:E6;
    [|aborted].
  cbn. split; [congruence|]. intros _ _. split; [reflexivity|].
  exists ref, cur, entries, newTree, newCommit, ref', s1, s2, s3, s4, s5.
  repeat split; assumption.
Qed.

End CommitFacts.

Section ListFacts.

Context {W : Type}.
Variable client : forall c : Call, W -> Answer c * W.

Lemma HasPrefix_app_l s p q :
  strings.HasPrefix s (p +:+ q) = true -> strings.HasPrefix s p = true.
Proof.
  revert s. induction p as [|c p IH]; intros s H; [reflexivity|].
  destruct s as [|d s]; [discriminate|]. simpl in *.
  apply andb_true_iff in H as [-> H]. now rewrite (IH _ H).
Qed.

(** What the filter of [List] keeps: the blobs whose path starts with
    the prefix, as a string. *)
Lemma list_keeps_spec normalPrefix entry :
  list_keeps normalPrefix entry
  = String.eqb (entryType entry) "blob"
    && (String.eqb normalPrefix ""
        || strings.HasPrefix (entryPath entry) normalPrefix).
Proof.
  unfold list_keeps. destruct (String.eqb (entryType entry) "blob");
    [|reflexivity].
  destruct (String.eqb normalPrefix ""); [reflexivity|]. cbn [negb andb orb].
  destruct (strings.HasPrefix (entryPath entry) normalPrefix) eqn:E1;
    [reflexivity|].
  destruct (strings.HasPrefix (entryPath entry) (normalPrefix +:+ "/")) eqn:E2;
    [|reflexivity].
  apply HasPrefix_app_l in E2. congruence.
Qed.

(** The loop of [List] issues no call. *)
Lemma list_entries_state (ctx : Ctx) normalPrefix entries : forall paths
  (s : @State W),
  (list_entries ctx normalPrefix entries paths s).2 = s.
Proof.
  induction entries as [|e entries IH]; intros paths s; [reflexivity|].
  cbn [list_entries]. unfold bind, ctx_Err.
  destruct (ctx (world s)); cbn [fmap option_fmap option_map]; [reflexivity|].
  destruct (list_keeps normalPrefix e); apply IH.
Qed.

Lemma list_entries_live (ctx : Ctx) normalPrefix entries : forall paths
  (s : @State W),
  ctx (world s) = None ->
  list_entries ctx normalPrefix entries paths s
  = (Ok (paths ++ map entryPath
                    (List.filter (list_keeps normalPrefix) entries)), s).
Proof.
  induction entries as [|e entries IH]; intros paths s Hx.
  - simpl. unfold ret. now rewrite app_nil_r.
  - cbn [list_entries List.filter]. unfold bind, ctx_Err. rewrite Hx.
    cbn [fmap option_fmap option_map].
    destruct (list_keeps normalPrefix e); rewrite IH by assumption;
      [|reflexivity].
    cbn [map]. now rewrite <- app_assoc.
Qed.

Lemma list_entries_result (ctx : Ctx) normalPrefix entries : forall paths
  (s : @State W),
  (exists l, (list_entries ctx normalPrefix entries paths s).1 = Ok l)
  \/ (exists e, (list_entries ctx normalPrefix entries paths s).1
                = Err (ErrContext e)).
Proof.
  induction entries as [|e entries IH]; intros paths s.
  - left. exists paths. reflexivity.
  - cbn [list_entries]. unfold bind, ctx_Err.
    destruct (ctx (world s)) as [ce|]; cbn [fmap option_fmap option_map].
    + right. exists ce. reflexivity.
    + destruct (list_keeps normalPrefix e); apply IH.
Qed.

(** [List] once its guards have passed and the tree has been fetched. *)
Lemma List_run (b : Backend) (ctx : Ctx) (prefix : string) (s : @State W)
  (a : Reply Tree) (w' : W) :
  closed b = false -> ctx (world s) = None ->
  client (GetTree (Branch (config b)) true) (world s) = (a, w') ->
  List client b ctx prefix s
  = match a with
    | Failure resp err =>
        (Err (translated err resp),
         after s w' [GetTree (Branch (config b)) true])
    | Success tree =>
        list_entries ctx (normalizePath prefix) (Entries tree) []
          (after s w' [GetTree (Branch (config b)) true])
    end.
Proof.
  intros Hc Hx Hl. unfold List, bind at 1.
  rewrite guards_pass by assumption. cbn [mbind option_bind].
  unfold bind. rewrite (call_eq client _ _ _ _ Hl).
  destruct a; reflexivity.
Qed.

(** [List] returns the paths of the blob entries whose path starts with
    the normalized prefix as a string, in the order of the tree. *)
Lemma List_filter (b : Backend) (ctx : Ctx) (prefix : string)
  (s : @State W) (tree : Tree) (w' : W) :
  closed b = false -> ctx (world s) = None -> ctx w' = None ->
  client (GetTree (Branch (config b)) true) (world s) = (Success tree, w') ->
  List client b ctx prefix s
  = (Ok (map entryPath
           (List.filter
              (fun e =>
                 String.eqb (entryType e) "blob"
                 && (String.eqb (normalizePath prefix) ""
                     || strings.HasPrefix (entryPath e) (normalizePath prefix)))
              (Entries tree))),
     after s w' [GetTree (Branch (config b)) true]).
Proof.
  intros Hc Hx Hx' Hl. rewrite (List_run b ctx prefix s _ w' Hc Hx Hl).
  rewrite list_entries_live by assumption. cbn [app]. do 3 f_equal.
  apply List.filter_ext. intros e. apply list_keeps_spec.
Qed.

Lemma List_state_independent_of_prefix (b : Backend) (ctx : Ctx)
  (prefix : string) (s : @State W) :
  (List client b ctx prefix s).2 = (List client b ctx "" s).2.
Proof.
  unfold List, bind at 1 3.
  destruct (guards b ctx None s) as [[e|] s0]; [reflexivity|].
  unfold bind. destruct (call client _ s0) as [[tree|resp err] s1];
    [|reflexivity].
  now rewrite !list_entries_state.
Qed.

Lemma validated_first (b : Backend) (ctx : Ctx) (filePath : string)
  (s : @State W) e :
  closed b = false -> ctx (world s) = None ->
  validatePath filePath = Some e ->
  guards b ctx (Some filePath) s = (Some e, s).
Proof.
  intros Hc Hx Hv. rewrite guards_pass by assumption.
  cbn [mbind option_bind]. now rewrite Hv.
Qed.

(** C10: [List] does not validate its prefix.  For every prefix it never
    returns [ErrInvalidPath], it issues the same calls as for the root
    prefix, and with the backend open and the context live its call is
    the recursive-tree call on the branch.  [NewReader], [NewWriter],
    [Delete], [Exists] and [Stat] reject a path that [validatePath]
    rejects before any call. *)
Theorem List_does_not_validate_prefix (b : Backend) (ctx : Ctx)
  (prefix : string) (cfg : ReaderConfig) (s : @State W) :
  (List client b ctx prefix s).1 <> Err ErrInvalidPath
  /\ trace (List client b ctx prefix s).2 = trace (List client b ctx "" s).2
  /\ (closed b = false -> ctx (world s) = None ->
      trace (List client b ctx prefix s).2
      = trace s ++ [GetTree (Branch (config b)) true])
  /\ (closed b = false -> ctx (world s) = None ->
      validatePath prefix = Some ErrInvalidPath ->
      NewReader client b ctx prefix cfg s = (Err ErrInvalidPath, s)
      /\ NewWriter b ctx prefix s = (Err ErrInvalidPath, s)
      /\ Delete client b ctx prefix s = (Some ErrInvalidPath, s)
      /\ Exists client b ctx prefix s = (Err ErrInvalidPath, s)
      /\ Stat client b ctx prefix s = (Err ErrInvalidPath, s)).
Proof.
  split; [|split; [|split]].
  - unfold List, bind at 1.
    destruct (guards_cases b ctx None s) as [Hs Hg].
    destruct (guards b ctx None s) as [[e|] s0]; simpl in *.
    + destruct Hg as [[= ->]|[[ce [= ->]]|(_ & _ & [=])]]; discriminate.
    + unfold bind. destruct (call client _ s0) as [[tree|resp err] s1].
      * destruct (list_entries_result ctx (normalizePath prefix)
                    (Entries tree) [] s1) as [[l ->]|[ce ->]]; discriminate.
      * simpl. destruct (translated_cases err resp) as [->|[->| ->]];
          discriminate.
  - now rewrite List_state_independent_of_prefix.
  - intros Hc Hx.
    destruct (client (GetTree (Branch (config b)) true) (world s))
      as [a w'] eqn:Hl.
    rewrite (List_run b ctx prefix s a w' Hc Hx Hl).
    destruct a; [|reflexivity]. now rewrite list_entries_state.
  - intros Hc Hx Hv.
    pose proof (validated_first b ctx prefix s _ Hc Hx Hv) as Hg.
    unfold NewReader, NewWriter, Delete, Exists, Stat, bind.
    rewrite Hg. repeat split.
Qed.

End ListFacts.

(** C2, what the code does: for every client, [List] returns the paths
    of the blob entries whose path starts with the normalized prefix as
    a string, in the order of the tree; the test on the prefix followed
    by a slash decides nothing.  On the example repository [List("a")]
    returns [ab/other.txt] next to [a/b.txt]. *)
Theorem List_keeps_string_prefix :
  (forall (W : Type) (client : forall c : Call, W -> Answer c * W)
          (b : Backend) (ctx : Ctx) (prefix : string) (s : @State W)
          (tree : Tree) (w' : W),
      closed b = false -> ctx (world s) = None -> ctx w' = None ->
      client (GetTree (Branch (config b)) true) (world s)
      = (Success tree, w') ->
      List client b ctx prefix s
      = (Ok (map entryPath
               (List.filter
                  (fun e =>
                     String.eqb (entryType e) "blob"
                     && (String.eqb (normalizePath prefix) ""
                         || strings.HasPrefix (entryPath e)
                              (normalizePath prefix)))
                  (Entries tree))),
         after s w' [GetTree (Branch (config b)) true]))
  /\ List remote.client example.backend remote.background "a" example.start
     = (Ok ["a/b.txt"; "ab/other.txt"],
        after example.start example.store [GetTree "main" true]).
Proof.
  split; [intros W client; apply List_filter|].
  vm_compute. reflexivity.
Qed.

Lemma List_keeps_string_prefix_witness :
  List remote.client example.backend remote.background "a" example.start
  = (Ok ["a/b.txt"; "ab/other.txt"],
     after example.start example.store [GetTree "main" true]).
Proof.
  rewrite (proj1 List_keeps_string_prefix remote.Store remote.client
             example.backend remote.background "a" example.start
             {| treeSHA := "main";
                Entries := remote.listing example.base_tree |}
             example.store eq_refl eq_refl eq_refl).
  - vm_compute. reflexivity.
  - vm_compute. reflexivity.
Defined.

Lemma List_does_not_validate_prefix_witness :
  trace (List remote.client example.backend remote.background "../secret"
           example.start).2
  = [GetTree "main" true]
  /\ Exists remote.client example.backend remote.background "../secret"
       example.start
     = (Err ErrInvalidPath, example.start).
Proof.
  pose proof (List_does_not_validate_prefix remote.client example.backend
                remote.background "../secret" {| Offset := 0; Limit := 0 |}
                example.start) as (_ & _ & Hcall & Hothers).
  split.
  - exact (Hcall eq_refl eq_refl).
  - exact (proj1 (proj2 (proj2 (proj2 (Hothers eq_refl eq_refl eq_refl))))).
Defined.

(** ** The batch commit on the in-memory store *)

Module remote_facts.
Import remote.

Lemma client_no_fault (c : Call) (s : Store) :
  faults s = [] -> client c s = handle c s.
Proof. unfold client. now intros ->. Qed.

Lemma call_no_fault (c : Call) (st : @State Store) :
  faults (world st) = [] ->
  call client c st
  = ((handle c (world st)).1, after st (handle c (world st)).2 [c]).
Proof.
  intros Hf. unfold call. rewrite client_no_fault by assumption.
  now destruct (handle c (world st)).
Qed.

(** What a lookup finds on a branch that holds the tree [t]. *)
Lemma get_contents_present (s : Store) (t : gmap string string) p ref :
  tree_at s (branch_ref ref) = Some t ->
  contentsErr (get_contents s p ref)
  = if present_in t p then None else Some (ErrorResponse (Some 404%Z)).
Proof.
  intros Ht. unfold get_contents, present_in, below. rewrite Ht.
  destruct (t !! p); [reflexivity|].
  destruct (List.filter (is_below p) (map_to_list t)); simpl.
  - destruct (String.eqb p ""); reflexivity.
  - reflexivity.
Qed.

Section Build.

Variable b : @Backend.
Variable ctx : @Ctx Store.
Variable t : gmap string string.
Hypothesis b_open : closed b = false.
Hypothesis ctx_live : forall w, ctx w = None.

(** [Exists] on the store: the lookup of the normalized path, and no
    change of the store. *)
Lemma Exists_remote (p : string) (st : @State Store) :
  faults (world st) = [] ->
  tree_at (world st) (branch_ref (Branch (config b))) = Some t ->
  validatePath p = None ->
  Exists client b ctx p st
  = (Ok (present_in t (normalizePath p)),
     after st (world st) [GetContents (normalizePath p) (Branch (config b))]).
Proof.
  intros Hf Ht Hv. unfold Exists, bind at 1.
  rewrite guards_pass by auto. cbn [mbind option_bind]. rewrite Hv.
  unfold bind. rewrite call_no_fault by assumption. cbn [handle fst snd].
  rewrite (get_contents_present _ t) by assumption.
  destruct (present_in t (normalizePath p)); [reflexivity|].
  unfold is_404. change (status_is (Some 404%Z) 404) with true.
  now rewrite orb_true_r.
Qed.

(** [buildTreeEntries] on the store sends the entries of
    [model_entries]; it adds blobs and nothing else. *)
Lemma build_entries_remote (ops : list BatchOperation) :
  forall (entries : list TreeEntry) (st : @State Store),
    faults (world st) = [] ->
    tree_at (world st) (branch_ref (Branch (config b))) = Some t ->
    Forall (fun op => validatePath (Path op) = None) ops ->
    exists st',
      build_entries client b ctx ops entries st
      = (Ok (entries ++ model_entries t (next (world st)) ops), st')
      /\ faults (world st') = []
      /\ refs (world st') = refs (world st)
      /\ commits (world st') = commits (world st)
      /\ trees (world st') = trees (world st).
Proof.
  induction ops as [|op ops IH]; intros entries st Hf Ht Hv.
  - exists st. cbn. rewrite app_nil_r. auto.
  - inversion Hv as [|? ? Hop Hops]; subst.
    cbn [build_entries model_entries]. destruct (Type_ op).
    + unfold bind. rewrite call_no_fault by assumption.
      cbn [handle fst snd].
      destruct (IH (entries ++ [{| entryPath := Path op;
                                   entryMode := "100644";
                                   entryType := "blob";
                                   entrySHA := Some (fresh (world st)) |}])
                  (after st (add_blob (world st) (Content op)).2
                     [CreateBlob (Content op) "utf-8"]))
        as (st' & E & Hf' & Hr & Hc & Htr); [assumption|exact Ht|assumption|].
      exists st'. cbn [add_blob fst snd after world next] in *.
      rewrite E, <- app_assoc. auto.
    + unfold bind. rewrite Exists_remote by assumption.
      destruct (present_in t (normalizePath (Path op))).
      * destruct (IH (entries ++ [{| entryPath := Path op;
                                     entryMode := "100644";
                                     entryType := "blob";
                                     entrySHA := None |}])
                    (after st (world st)
                       [GetContents (normalizePath (Path op))
                          (Branch (config b))]))
          as (st' & E & Hf' & Hr & Hc & Htr); [assumption..|].
        exists st'. cbn [after world] in *. rewrite E, <- app_assoc. auto.
      * destruct (IH entries
                    (after st (world st)
                       [GetContents (normalizePath (Path op))
                          (Branch (config b))]))
          as (st' & E & Hf' & Hr & Hc & Htr); [assumption..|].
        exists st'. cbn [after world] in *. rewrite E. auto.
Qed.

End Build.

(** [Batch.Commit] on the store: with no fault, an open backend and a
    live context it succeeds, and the branch then holds the base tree
    merged with the entries of [model_entries]. *)
Lemma Commit_remote (b : Backend) (batch : Batch) (st : @State Store)
  (c : string) (cm : Commit) (t : gmap string string) :
  closed b = false -> (forall w, b_ctx batch w = None) ->
  committed batch = false -> operations batch <> [] ->
  faults (world st) = [] ->
  refs (world st) !! branch_ref (Branch (config b)) = Some c ->
  commits (world st) !! c = Some cm ->
  trees (world st) !! commitTree cm = Some t ->
  Forall (fun op => validatePath (Path op) = None) (operations batch) ->
  exists st',
    Batch_Commit client b batch st = (None, with_committed batch true, st')
    /\ tree_at (world st') (branch_ref (Branch (config b)))
       = Some (apply_entries t
                 (model_entries t (next (world st)) (operations batch))).
Proof.
  intros Hc Hx Hcm Hops Hf Href Hcommit Htree Hv.
  assert (Ht : tree_at (world st) (branch_ref (Branch (config b))) = Some t).
  { unfold tree_at. rewrite Href. cbn. rewrite Hcommit. cbn. exact Htree. }
  unfold Batch_Commit. rewrite Hcm. unfold bind at 1.
  rewrite guards_pass by auto. cbn [mbind option_bind].
  destruct (operations batch) as [|op ops] eqn:Eops; [congruence|].
  cbn [length Nat.eqb]. rewrite <- Eops in *. clear Eops op ops Hops.
  (* Step 1 *)
  unfold bind at 1. rewrite call_no_fault by assumption.
  cbn [handle fst snd]. fold (branch_ref (Branch (config b))). rewrite Href.
  cbn [fst snd ObjectSHA Ref].
  (* Step 2 *)
  unfold bind at 1. rewrite call_no_fault by assumption.
  cbn [handle fst snd after world]. rewrite Hcommit. cbn [fst snd].
  (* Step 3 *)
  unfold bind at 1. unfold buildTreeEntries.
  destruct (build_entries_remote b (b_ctx batch) t Hc Hx (operations batch) []
              (after (after st (world st)
                        [GetRef (branch_ref (Branch (config b)))])
                 (world st) [GetCommit c]))
    as (st3 & E3 & Hf3 & Hr3 & Hc3 & Ht3); [assumption..|].
  rewrite E3. cbn [app after world] in *.
  (* Step 4 *)
  unfold bind at 1. rewrite call_no_fault by assumption.
  cbn [handle fst snd]. rewrite Ht3, Htree. cbn [add_tree fst snd treeSHA].
  (* Step 5 *)
  unfold bind at 1. rewrite call_no_fault by (cbn; assumption).
  cbn [handle add_commit fst snd after world commitSHA].
  (* Step 6 *)
  unfold bind at 1. rewrite call_no_fault by (cbn; assumption).
  cbn [handle fst snd after world Ref ObjectSHA refs commits fresh next].
  rewrite Hr3, Href, lookup_insert_eq. cbn [orb commitParents].
  rewrite bool_decide_eq_true_2 by (apply list_elem_of_singleton; reflexivity).
  cbn [fst snd]. eexists. split; [reflexivity|].
  unfold tree_at. cbn [after world set_ref refs commits trees].
  rewrite lookup_insert_eq. cbn [mbind option_bind].
  rewrite lookup_insert_eq. cbn [mbind option_bind commitTree].
  apply lookup_insert_eq.
Qed.


(** *** The merge of the entries, path by path *)



Lemma model_entries_app t ops1 ops2 : forall n,
  exists m, model_entries t n (ops1 ++ ops2)
            = model_entries t n ops1 ++ model_entries t m ops2.
Proof.
  induction ops1 as [|op ops1 IH]; intros n.
  - exists n. reflexivity.
  - cbn [app model_entries]. destruct (Type_ op).
    + destruct (IH (S n)) as [m ->]. exists m. reflexivity.
    + destruct (IH n) as [m ->]. exists m.
      destruct (present_in t (normalizePath (Path op))); reflexivity.
Qed.


(** A path the lookup does not find stays in the tree once it is there:
    its deletes are dropped. *)
Lemma model_entries_keep t (p : string) ops :
  present_in t (normalizePath p) = false ->
  forall n (t0 : gmap string string),
    is_Some (t0 !! p) ->
    is_Some (apply_entries t0 (model_entries t n ops) !! p).
Proof.
  intros Habs. induction ops as [|op ops IH]; intros n t0 Hp; [exact Hp|].
  cbn [model_entries]. destruct (Type_ op).
  - cbn [apply_entries fold_left]. apply IH. unfold apply_entry.
    cbn [entrySHA entryPath]. rewrite lookup_insert.
    destruct (decide (Path op = p)); [eauto|exact Hp].
  - destruct (present_in t (normalizePath (Path op))) eqn:E; [|now apply IH].
    cbn [apply_entries fold_left]. apply IH. unfold apply_entry.
    cbn [entrySHA entryPath]. rewrite lookup_delete_ne; [exact Hp|].
    intros Heq. rewrite Heq in E. congruence.
Qed.

End remote_facts.


Lemma Commit_empty_queue_witness :
  Batch_Commit remote.client example.backend example.empty_batch example.start
  = (None, with_committed example.empty_batch true, example.start).
Proof.
  apply (proj2 (Commit_empty_queue remote.client example.backend
                  example.empty_batch example.start eq_refl));
    reflexivity.
Defined.

(** C5 as stated fails where a guard stops [Commit] before the test on
    the queue.  On a closed backend, [Commit] of an empty batch returns
    [ErrBackendClosed] and the batch stays uncommitted; on an empty batch
    that is already committed it returns the already-committed error. *)
Lemma Commit_empty_queue_closed_backend :
  (operations example.empty_batch = []
   /\ committed example.empty_batch = false
   /\ Batch_Commit remote.client example.closed_backend example.empty_batch
        example.start
      = (Some ErrBackendClosed, example.empty_batch, example.start))
  /\ (operations example.committed_batch = []
      /\ Batch_Commit remote.client example.backend example.committed_batch
           example.start
         = (Some ErrBatchCommitted, example.committed_batch, example.start)).
Proof. repeat split. Qed.

Lemma Commit_committed_only_on_success_witness :
  let '(e, batch', s') :=
    Batch_Commit remote.client example.backend
      (example.write_then_delete "a/b.txt" "content")
      (example.start_failing example.losing_race) in
  (e <> None -> batch' = example.write_then_delete "a/b.txt" "content")
  /\ (committed (example.write_then_delete "a/b.txt" "content") = false ->
      committed batch' = true ->
      e = None
      /\ commit_succeeds remote.client example.backend
           (example.write_then_delete "a/b.txt" "content")
           (example.start_failing example.losing_race) s').
Proof.
  apply (Commit_committed_only_on_success remote.client example.backend
           (example.write_then_delete "a/b.txt" "content")
           (example.start_failing example.losing_race)).
  vm_compute. discriminate.
Defined.

(** * More properties of the code *)

(** ** Strings *)

Lemma string_app_nil_r s : s +:+ "" = s.
Proof.
  induction s as [|c s IH]; [reflexivity|].
  change (String c s +:+ "") with (String c (s +:+ "")). now rewrite IH.
Qed.

Lemma string_app_assoc s1 s2 s3 : (s1 +:+ s2) +:+ s3 = s1 +:+ s2 +:+ s3.
Proof.
  induction s1 as [|c s1 IH]; [reflexivity|].
  change (String c ((s1 +:+ s2) +:+ s3) = String c (s1 +:+ s2 +:+ s3)).
  now rewrite IH.
Qed.

Lemma string_length_app s1 s2 :
  String.length (s1 +:+ s2) = (String.length s1 + String.length s2)%nat.
Proof.
  induction s1 as [|c s1 IH]; [reflexivity|].
  change (String c s1 +:+ s2) with (String c (s1 +:+ s2)).
  cbn [String.length]. now rewrite IH.
Qed.

Lemma substring_length n m s :
  String.length (String.substring n m s)
  = Nat.min m (String.length s - n).
Proof.
  revert n m. induction s as [|c s IH]; intros n m.
  - destruct n, m; reflexivity.
  - destruct n as [|n].
    + destruct m as [|m]; [reflexivity|]. cbn [String.substring String.length].
      rewrite IH. rewrite Nat.sub_0_r. reflexivity.
    + cbn [String.substring String.length]. rewrite IH. reflexivity.
Qed.

Lemma substring_substring n m k s :
  (k <= m)%nat ->
  String.substring 0 k (String.substring n m s) = String.substring n k s.
Proof.
  revert n m k. induction s as [|c s IH]; intros n m k Hk.
  - destruct n, m, k; reflexivity.
  - destruct n as [|n].
    + destruct m as [|m].
      * assert (k = 0%nat) as -> by lia. reflexivity.
      * destruct k as [|k]; [reflexivity|].
        cbn [String.substring]. rewrite (IH 0%nat m k) by lia. reflexivity.
    + cbn [String.substring]. now apply IH.
Qed.

Lemma substring_beyond n m s :
  (String.length s <= n)%nat -> String.substring n m s = "".
Proof.
  revert n m. induction s as [|c s IH]; intros n m Hn.
  - destruct n, m; reflexivity.
  - destruct n as [|n]; [simpl in Hn; lia|].
    cbn [String.substring]. apply IH. simpl in Hn. lia.
Qed.

(** ** The window of a reader *)

(** X1: the reader of [NewReader] holds exactly the bytes of the content
    from the offset on, cut at the limit: an offset that is not positive
    is no offset, an offset at or beyond the end gives the empty content,
    and a limit that is not positive is no limit. *)
Theorem window_is_slice (cfg : ReaderConfig) (data : string) :
  let o := if (0 <? Offset cfg)%Z then Z.to_nat (Offset cfg) else 0%nat in
  let avail := (String.length data - o)%nat in
  let n := if (0 <? Limit cfg)%Z then Nat.min (Z.to_nat (Limit cfg)) avail
           else avail in
  window cfg data = String.substring o n data
  /\ String.length (window cfg data) = n.
Proof.
  cbv zeta.
  assert (Hw : window cfg data
               = String.substring
                   (if (0 <? Offset cfg)%Z then Z.to_nat (Offset cfg) else 0%nat)
                   (if (0 <? Limit cfg)%Z
                    then Nat.min (Z.to_nat (Limit cfg))
                           (String.length data
                            - (if (0 <? Offset cfg)%Z
                               then Z.to_nat (Offset cfg) else 0%nat))
                    else (String.length data
                          - (if (0 <? Offset cfg)%Z
                             then Z.to_nat (Offset cfg) else 0%nat))%nat)
                   data).
  { unfold window.
    set (o := if (0 <? Offset cfg)%Z then Z.to_nat (Offset cfg) else 0%nat).
    assert (Hd : (if (0 <? Offset cfg)%Z
                  then if (Z.of_nat (String.length data) <=? Offset cfg)%Z
                       then ""
                       else String.substring (Z.to_nat (Offset cfg))
                              (String.length data - Z.to_nat (Offset cfg)) data
                  else data)
                 = String.substring o (String.length data - o) data).
    { unfold o. destruct (0 <? Offset cfg)%Z eqn:Eo.
      - destruct (Z.of_nat (String.length data) <=? Offset cfg)%Z eqn:El;
          [|reflexivity].
        apply Z.leb_le in El. symmetry. apply substring_beyond. lia.
      - rewrite Nat.sub_0_r. symmetry. apply substring_all. }
    rewrite Hd. rewrite substring_length, Nat.min_id.
    destruct (0 <? Limit cfg)%Z eqn:Elim; cbn [andb].
    - apply Z.ltb_lt in Elim.
      destruct (Limit cfg <? Z.of_nat (String.length data - o))%Z eqn:Elt.
      + apply Z.ltb_lt in Elt. rewrite substring_substring by lia.
        f_equal. lia.
      + apply Z.ltb_ge in Elt. f_equal. lia.
    - reflexivity. }
  split; [exact Hw|]. rewrite Hw, substring_length.
  destruct (0 <? Limit cfg)%Z; lia.
Qed.

(** ** The writer *)

Section WriterUse.

Context {W : Type}.
Variable client : forall c : Call, W -> Answer c * W.

Lemma writer_Close_closes (b : Backend) (w : writer) (s : @State W) :
  (writer_Close client b w s).1.2 = with_closed w true.
Proof.
  unfold writer_Close. destruct (w_closed w) eqn:Hw.
  { cbn. destruct w. cbn in *. now subst. }
  unfold bind at 1.
  destruct (guards b (w_ctx (with_closed w true)) None s) as [[e|] s0];
    [reflexivity|].
  unfold bind at 1. destruct (call client _ s0) as [r s1].
  destruct (existingSHA r); [|reflexivity].
  unfold bind. destruct (call client _ s1) as [[?|? ?] s2]; reflexivity.
Qed.

(** X2: whatever the first [Close] of a writer returns, also an error,
    the writer is closed afterwards: a second [Close], in any state and
    on any backend, returns success without a call and without a change,
    and a [Write] returns [ErrWriterClosed], writes no byte and leaves
    the buffer as it is. *)
Theorem writer_Close_twice (b b' : Backend) (w : writer) (s s' : @State W)
  (p : string) :
  let w1 := (writer_Close client b w s).1.2 in
  w_closed w1 = true
  /\ writer_Close client b' w1 s' = (None, w1, s')
  /\ writer_Write w1 p = (0%Z, Some ErrWriterClosed, w1).
Proof.
  cbv zeta. rewrite writer_Close_closes.
  unfold writer_Close, writer_Write. cbn [with_closed w_closed].
  repeat split.
Qed.

Lemma write_all_closed (w : @writer W) chunks :
  w_closed w = true -> write_all w chunks = w.
Proof.
  intros Hw. induction chunks as [|p chunks IH]; [reflexivity|].
  unfold write_all in *. cbn [fold_left]. unfold writer_Write at 2.
  rewrite Hw. exact IH.
Qed.

Lemma write_all_open (w : @writer W) chunks :
  w_closed w = false ->
  write_all w chunks
  = {| w_ctx := w_ctx w; filePath := filePath w;
       buffer := buffer w +:+ String.concat "" chunks;
       w_closed := false |}.
Proof.
  revert w. induction chunks as [|p chunks IH]; intros w Hw.
  - cbn. rewrite string_app_nil_r. destruct w. cbn in *. now subst.
  - unfold write_all in *. cbn [fold_left]. unfold writer_Write at 2.
    rewrite Hw. cbn [snd]. rewrite IH by reflexivity.
    cbn [w_ctx filePath buffer]. f_equal.
    rewrite string_app_assoc. f_equal.
    destruct chunks as [|q chunks]; [|reflexivity].
    cbn. now rewrite string_app_nil_r.
Qed.

(** X3: an open writer buffers: every [Write] accepts all of its bytes,
    and after any sequence of writes a [Close] whose lookup goes on with
    a version marker sends one create-or-update mutation whose content
    is the bytes of all the writes, in order. *)
Theorem writer_sends_all_writes (b : Backend) (w : writer)
  (chunks : list string) (s : @State W) (r : Contents) (w' : W)
  (sha : option string) :
  w_closed w = false -> closed b = false -> w_ctx w (world s) = None ->
  client (GetContents (filePath w) (Branch (config b))) (world s) = (r, w') ->
  existingSHA r = inl sha ->
  (forall p, (writer_Write w p).1 = (Z.of_nat (String.length p), None))
  /\ trace (writer_Close client b (write_all w chunks) s).2
     = trace s
       ++ [GetContents (filePath w) (Branch (config b));
           CreateFile (filePath w)
             {| optMessage := FormatCommitMessage (config b) (filePath w);
                optContent := buffer w +:+ String.concat "" chunks;
                optSHA := sha;
                optBranch := Branch (config b);
                optAuthor := author_of b |}].
Proof.
  intros Hw Hc Hx Hl Hsha. split.
  { intros p. unfold writer_Write. now rewrite Hw. }
  rewrite (write_all_open w chunks Hw).
  rewrite (writer_Close_run client b _ s r w'); try assumption; try reflexivity.
  cbv zeta. rewrite Hsha. cbn [filePath].
  destruct (client _ w') as [a w'']. reflexivity.
Qed.

End WriterUse.

Lemma writer_sends_all_writes_witness :
  trace (writer_Close remote.client example.backend
           (write_all (example.new_writer "docs/x.txt" "") ["Hello, "; "GitHub!"])
           example.start).2
  = [GetContents "docs/x.txt" "main";
     CreateFile "docs/x.txt"
       {| optMessage := "Update docs/x.txt via omnistorage";
          optContent := "Hello, GitHub!"; optSHA := None;
          optBranch := "main"; optAuthor := None |}].
Proof.
  refine (proj2 (writer_sends_all_writes remote.client example.backend
                   (example.new_writer "docs/x.txt" "") ["Hello, "; "GitHub!"]
                   example.start
                   (remote.get_contents example.store "docs/x.txt" "main")
                   example.store None _ _ _ _ _));
    first [reflexivity | vm_compute; reflexivity].
Defined.

(** ** Lookups: [Exists] and [Stat] *)

Section LookupFacts.

Context {W : Type}.
Variable client : forall c : Call, W -> Answer c * W.

Lemma Exists_run (b : Backend) (ctx : Ctx) (filePath : string)
  (s : @State W) (r : Contents) (w' : W) :
  closed b = false -> ctx (world s) = None -> validatePath filePath = None ->
  client (GetContents (normalizePath filePath) (Branch (config b))) (world s)
  = (r, w') ->
  Exists client b ctx filePath s
  = (match contentsErr r with
     | Some err => if is_404 err (contentsResp r) then Ok false
                   else Err (translated err (contentsResp r))
     | None => Ok true
     end,
     after s w' [GetContents (normalizePath filePath) (Branch (config b))]).
Proof.
  intros Hc Hx Hv Hl. unfold Exists, bind at 1.
  rewrite guards_pass by assumption. cbn [mbind option_bind]. rewrite Hv.
  unfold bind. rewrite (call_eq client _ _ _ _ Hl).
  destruct (contentsErr r) as [err|]; [|reflexivity].
  destruct (is_404 err (contentsResp r)); reflexivity.
Qed.

Lemma Stat_run (b : Backend) (ctx : Ctx) (filePath : string)
  (s : @State W) (r : Contents) (w' : W) :
  closed b = false -> ctx (world s) = None -> validatePath filePath = None ->
  client (GetContents (normalizePath filePath) (Branch (config b))) (world s)
  = (r, w') ->
  Stat client b ctx filePath s
  = (match contentsErr r with
     | Some err => Err (translated err (contentsResp r))
     | None =>
         match directoryContent r with
         | Some _ =>
             Ok {| ObjectPath := normalizePath filePath; ObjectSize := 0;
                   ObjectIsDir := true; ObjectHashes := [] |}
         | None =>
             Ok {| ObjectPath := normalizePath filePath;
                   ObjectSize := from_option GetSize 0%Z (fileContent r);
                   ObjectIsDir := false;
                   ObjectHashes :=
                     [("sha1", from_option GetSHA "" (fileContent r))] |}
         end
     end,
     after s w' [GetContents (normalizePath filePath) (Branch (config b))]).
Proof.
  intros Hc Hx Hv Hl. unfold Stat, bind at 1.
  rewrite guards_pass by assumption. cbn [mbind option_bind]. rewrite Hv.
  unfold bind. rewrite (call_eq client _ _ _ _ Hl).
  destruct (contentsErr r) as [err|]; [reflexivity|].
  destruct (directoryContent r); reflexivity.
Qed.

(** The 404 test of [Exists] and [Delete] against the classifier: they
    agree, except on a response 401 or 403 whose error payload says 404. *)
Lemma is_404_translated err resp :
  is_404 err resp = true
  <-> translated err resp = ErrNotFound
      \/ ((resp = Some 403%Z \/ resp = Some 401%Z)
          /\ err = ErrorResponse (Some 404%Z)).
Proof.
  unfold is_404, translated, translateError, status_is, classify_status.
  destruct resp as [code|]; cbn [mbind option_bind].
  - destruct (code =? 404)%Z eqn:E4.
    { cbn. split; auto. }
    destruct (code =? 403)%Z eqn:E3; cbn [orb].
    { apply Z.eqb_eq in E3. subst code.
      destruct err as [[c|]|]; cbn;
        try (split; [discriminate|intros [[=]|[_ [=]]]]).
      destruct (c =? 404)%Z eqn:Ec.
      - apply Z.eqb_eq in Ec. subst. split; auto.
      - split; [discriminate|]. intros [[=]|[_ [= ->]]]. discriminate. }
    destruct (code =? 401)%Z eqn:E1.
    { apply Z.eqb_eq in E1. subst code.
      destruct err as [[c|]|]; cbn;
        try (split; [discriminate|intros [[=]|[_ [=]]]]).
      destruct (c =? 404)%Z eqn:Ec.
      - apply Z.eqb_eq in Ec. subst. split; auto.
      - split; [discriminate|]. intros [[=]|[_ [= ->]]]. discriminate. }
    apply Z.eqb_neq in E3, E1.
    destruct err as [[c|]|]; cbn;
      try (split; [discriminate|intros [[=]|[[[=]|[=]] _]]; congruence]).
    destruct (c =? 404)%Z; [split; auto|].
    destruct ((c =? 403)%Z || (c =? 401)%Z);
      (split; [discriminate|intros [[=]|[[[=]|[=]] _]]; congruence]).
  - destruct err as [[c|]|]; cbn;
      try (split; [discriminate|intros [[=]|[[[=]|[=]] _]]]).
    destruct (c =? 404)%Z; [split; auto|].
    destruct ((c =? 403)%Z || (c =? 401)%Z);
      (split; [discriminate|intros [[=]|[[[=]|[=]] _]]]).
Qed.

(** X4: on the same lookup, [Exists] and [Stat] issue the same single
    call and agree: [Stat] returns an object exactly when [Exists] returns
    true, for a file as for a directory, and a [Stat] that returns
    [ErrNotFound] means [Exists] returns false.  [Exists] returns false
    in one more case, where [Stat] returns [ErrPermissionDenied]: a
    response 401 or 403 whose error payload carries a 404. *)
Theorem Exists_agrees_with_Stat (b : Backend) (ctx : Ctx) (filePath : string)
  (s : @State W) (r : Contents) (w' : W) :
  closed b = false -> ctx (world s) = None -> validatePath filePath = None ->
  client (GetContents (normalizePath filePath) (Branch (config b))) (world s)
  = (r, w') ->
  let e := Exists client b ctx filePath s in
  let st := Stat client b ctx filePath s in
  e.2 = st.2
  /\ e.2 = after s w' [GetContents (normalizePath filePath) (Branch (config b))]
  /\ ((exists info, st.1 = Ok info) <-> e.1 = Ok true)
  /\ (st.1 = Err ErrNotFound -> e.1 = Ok false)
  /\ (e.1 = Ok false ->
      st.1 = Err ErrNotFound
      \/ (st.1 = Err ErrPermissionDenied
          /\ (contentsResp r = Some 403%Z \/ contentsResp r = Some 401%Z)
          /\ contentsErr r = Some (ErrorResponse (Some 404%Z)))).
Proof.
  intros Hc Hx Hv Hl. cbv zeta.
  rewrite (Exists_run b ctx filePath s r w' Hc Hx Hv Hl).
  rewrite (Stat_run b ctx filePath s r w' Hc Hx Hv Hl).
  cbn [fst snd]. split; [reflexivity|]. split; [reflexivity|].
  destruct (contentsErr r) as [err|].
  - pose proof (is_404_translated err (contentsResp r)) as H404.
    destruct (is_404 err (contentsResp r)) eqn:E.
    + split; [split; [intros [? [=]]|discriminate]|].
      split; [reflexivity|]. intros _.
      destruct (proj1 H404 eq_refl) as [->|[Hr ->]]; [now left|right].
      split; [|auto]. f_equal. unfold translated, translateError.
      destruct Hr as [-> | ->]; reflexivity.
    + split; [split; [intros [? [=]]|discriminate]|].
      split; [|discriminate]. intros [= Hnf].
      assert (false = true) by (apply H404; now left).
      discriminate.
  - destruct (directoryContent r);
      (split; [split; [reflexivity|eauto]|split; discriminate]).
Qed.

End LookupFacts.

Lemma Exists_agrees_with_Stat_witness :
  (Exists remote.client example.backend remote.background "/a/" example.start).1
  = Ok true
  /\ (Exists remote.client example.backend remote.background "a/b.txt"
        example.start).1
     = Ok true
  /\ (Exists remote.client example.backend remote.background "a/c.txt"
        example.start).1
     = Ok false.
Proof.
  split; [|split].
  - apply (proj1 (proj2 (proj2 (Exists_agrees_with_Stat remote.client
             example.backend remote.background "/a/" example.start
             (remote.get_contents example.store "a" "main") example.store
             eq_refl eq_refl eq_refl eq_refl)))).
    eexists. vm_compute. reflexivity.
  - apply (proj1 (proj2 (proj2 (Exists_agrees_with_Stat remote.client
             example.backend remote.background "a/b.txt" example.start
             (remote.get_contents example.store "a/b.txt" "main")
             example.store eq_refl eq_refl eq_refl eq_refl)))).
    eexists. vm_compute. reflexivity.
  - apply (proj1 (proj2 (proj2 (proj2 (Exists_agrees_with_Stat remote.client
             example.backend remote.background "a/c.txt" example.start
             (remote.get_contents example.store "a/c.txt" "main")
             example.store eq_refl eq_refl eq_refl eq_refl))))).
    vm_compute. reflexivity.
Defined.

(** ** The lister *)

Lemma sublist_map_filter {A B : Type} (f : A -> B) (keep : A -> bool)
  (l : list A) :
  sublist (map f (List.filter keep l)) (map f l).
Proof.
  induction l as [|x l IH]; [constructor|].
  cbn [List.filter map]. destruct (keep x).
  - cbn [map]. now constructor.
  - now constructor.
Qed.

Lemma HasPrefix_refl s : strings.HasPrefix s s = true.
Proof.
  induction s as [|c s IH]; [reflexivity|].
  cbn. now rewrite Ascii.eqb_refl.
Qed.

(** X5: [List] misses nothing below a directory and returns files only.
    When the tree is fetched and the context stays live, every blob
    entry whose path is the normalized prefix or lies below it (the prefix
    followed by a slash) is returned; every path returned is the path of
    a blob entry and starts with the normalized prefix; and the paths
    come in the order of the tree. *)
Theorem List_covers_directory {W : Type}
  (client : forall c : Call, W -> Answer c * W)
  (b : Backend) (ctx : Ctx) (prefix : string) (s : @State W)
  (tree : Tree) (w' : W) :
  closed b = false -> ctx (world s) = None -> ctx w' = None ->
  client (GetTree (Branch (config b)) true) (world s) = (Success tree, w') ->
  exists paths,
    (List client b ctx prefix s).1 = Ok paths
    /\ (forall e,
           In e (Entries tree) -> entryType e = "blob" ->
           entryPath e = normalizePath prefix
           \/ strings.HasPrefix (entryPath e) (normalizePath prefix +:+ "/")
              = true ->
           In (entryPath e) paths)
    /\ (forall p,
           In p paths ->
           strings.HasPrefix p (normalizePath prefix) = true
           /\ exists e, In e (Entries tree) /\ entryType e = "blob"
                        /\ entryPath e = p)
    /\ sublist paths (map entryPath (Entries tree)).
Proof.
  intros Hc Hx Hx' Hl. eexists.
  rewrite (List_filter client b ctx prefix s tree w' Hc Hx Hx' Hl).
  split; [reflexivity|]. split; [|split].
  - intros e He Ht Hp. apply in_map, List.filter_In. split; [exact He|].
    rewrite Ht. change (String.eqb "blob" "blob") with true. cbn [andb].
    destruct Hp as [->|Hp].
    + rewrite HasPrefix_refl. apply orb_true_r.
    + apply HasPrefix_app_l in Hp. rewrite Hp. apply orb_true_r.
  - intros p Hp. apply in_map_iff in Hp as (e & <- & He).
    apply List.filter_In in He as [He Hk].
    apply andb_true_iff in Hk as [Ht Hk]. apply String.eqb_eq in Ht.
    split; [|eauto].
    apply orb_true_iff in Hk as [Hk|Hk]; [|exact Hk].
    apply String.eqb_eq in Hk. now rewrite Hk.
  - apply sublist_map_filter.
Qed.

Lemma List_covers_directory_witness :
  exists paths,
    (List remote.client example.backend remote.background "/a/"
       example.start).1 = Ok paths
    /\ In "a/b.txt" paths.
Proof.
  destruct (List_covers_directory remote.client example.backend
              remote.background "/a/" example.start
              {| treeSHA := "main";
                 Entries := remote.listing example.base_tree |}
              example.store eq_refl eq_refl eq_refl)
    as (paths & E & Hall & _).
  - vm_compute. reflexivity.
  - exists paths. split; [exact E|].
    apply (Hall (remote.blob_entry ("a/b.txt", "sha0"))).
    + vm_compute. auto.
    + reflexivity.
    + right. vm_compute. reflexivity.
Defined.

(** ** The lifecycle of the backend *)

(** X6: [Close] is idempotent, and on a closed backend every operation
    returns [ErrBackendClosed] without a call: the readers, writers and
    lookups, [List], [NewBatch], the commit of an uncommitted batch and
    the four unsupported operations.  The [Close] of an open writer on
    a closed backend returns the error and still closes the writer.  On
    an open backend the operations [Features] declares unsupported
    return [ErrNotSupported]. *)
Theorem closed_backend_rejects {W : Type}
  (client : forall c : Call, W -> Answer c * W)
  (b : Backend) (ctx : Ctx) (p message : string) (cfg : ReaderConfig)
  (w : writer) (batch : Batch) (s : @State W) :
  let b' := (Close b).2 in
  Close b' = (None, b')
  /\ NewReader client b' ctx p cfg s = (Err ErrBackendClosed, s)
  /\ NewWriter b' ctx p s = (Err ErrBackendClosed, s)
  /\ Exists client b' ctx p s = (Err ErrBackendClosed, s)
  /\ Delete client b' ctx p s = (Some ErrBackendClosed, s)
  /\ List client b' ctx p s = (Err ErrBackendClosed, s)
  /\ Stat client b' ctx p s = (Err ErrBackendClosed, s)
  /\ NewBatch b' ctx message s = (Err ErrBackendClosed, s)
  /\ notSupported b' = Some ErrBackendClosed
  /\ (committed batch = false ->
      Batch_Commit client b' batch s = (Some ErrBackendClosed, batch, s))
  /\ (w_closed w = false ->
      writer_Close client b' w s
      = (Some ErrBackendClosed, with_closed w true, s))
  /\ (closed b = false ->
      notSupported b = Some ErrNotSupported
      /\ (fCopy Features, fMove Features, fMkdir Features, fRmdir Features)
         = (false, false, false, false)).
Proof.
  cbv zeta. repeat split.
  - intros H. unfold Batch_Commit. now rewrite H.
  - intros H. unfold writer_Close. now rewrite H.
  - unfold notSupported, checkClosed. now rewrite H.
Qed.

Lemma closed_backend_rejects_witness :
  Batch_Commit remote.client example.closed_backend
    (example.write_then_delete "a/b.txt" "content") example.start
  = (Some ErrBackendClosed, example.write_then_delete "a/b.txt" "content",
     example.start)
  /\ writer_Close remote.client example.closed_backend
       (example.new_writer "a/b.txt" "world") example.start
     = (Some ErrBackendClosed,
        with_closed (example.new_writer "a/b.txt" "world") true,
        example.start)
  /\ notSupported example.backend = Some ErrNotSupported.
Proof.
  pose proof (closed_backend_rejects remote.client example.backend
                remote.background "a/b.txt" "" {| Offset := 0; Limit := 0 |}
                (example.new_writer "a/b.txt" "world")
                (example.write_then_delete "a/b.txt" "content") example.start)
    as (_ & _ & _ & _ & _ & _ & _ & _ & _ & Hcommit & Hclose & Hopen).
  split; [exact (Hcommit eq_refl)|].
  split; [exact (Hclose eq_refl)|]. exact (proj1 (Hopen eq_refl)).
Defined.

(** ** The batch *)

Section BatchUse.

Context {W : Type}.
Variable client : forall c : Call, W -> Answer c * W.

(* An error return of [Batch_Commit], for [Commit_result]. *)
Ltac failed_commit :=
  intros [= <- <- <-]; right; split; [discriminate|reflexivity].

(** [Commit] returns success with the batch marked, or an error with the
    batch as it was. *)
Lemma Commit_result (b : Backend) (batch : Batch) (s : @State W) e batch' s' :
  Batch_Commit client b batch s = (e, batch', s') ->
  (e = None /\ batch' = with_committed batch true)
  \/ (e <> None /\ batch' = batch).
Proof.
  unfold Batch_Commit. destruct (committed batch); [failed_commit|].
  unfold bind at 1.
  destruct (guards b (b_ctx batch) None s) as [[e0|] s0]; [failed_commit|].
  destruct (length (operations batch) =? 0)%nat.
  { intros [= <- <- <-]. left. split; reflexivity. }
  unfold bind at 1.
  destruct (call client (GetRef _) s0) as [[ref|resp err] s1];
    [|failed_commit].
  unfold bind at 1.
  destruct (call client (GetCommit _) s1) as [[cur|resp err] s2];
    [|failed_commit].
  unfold bind at 1.
  destruct (buildTreeEntries client b batch s2) as [[entries|e0] s3];
    [|failed_commit].
  unfold bind at 1.
  destruct (call client (CreateTree _ _) s3) as [[newTree|resp err] s4];
    [|failed_commit].
  unfold bind at 1.
  destruct (call client (CreateCommit _) s4) as [[newCommit|resp err] s5];
    [|failed_commit].
  unfold bind.
  destruct (call client (UpdateRef _ _) s5) as [[ref'|resp err] s6];
    [|failed_commit].
  intros [= <- <- <-]. left. split; reflexivity.
Qed.

(** X7: Committed is terminal.  After a [Commit] that returned success
    the batch is committed, and from then on [Write], [Delete] and
    [Commit] return the already-committed error, leave the batch as it
    is and issue no call, in any state and on any backend. *)
Theorem committed_is_terminal (b b' : Backend) (batch : Batch)
  (s s' : @State W) (p content : string) :
  (Batch_Commit client b batch s).1.1 = None ->
  let batch' := (Batch_Commit client b batch s).1.2 in
  committed batch' = true
  /\ operations batch' = operations batch
  /\ Batch_Write batch' p content = (Some ErrBatchCommitted, batch')
  /\ Batch_Delete batch' p = (Some ErrBatchCommitted, batch')
  /\ Batch_Commit client b' batch' s' = (Some ErrBatchCommitted, batch', s').
Proof.
  intros He. cbv zeta.
  destruct (Batch_Commit client b batch s) as [[e batch1] s1] eqn:E.
  cbn [fst snd] in *.
  destruct (Commit_result b batch s _ _ _ E) as [[_ ->]|[Hne _]];
    [|congruence].
  unfold Batch_Write, Batch_Delete, queue, Batch_Commit.
  cbn [with_committed committed operations]. repeat split.
Qed.

End BatchUse.

Lemma committed_is_terminal_witness :
  let batch' :=
    (Batch_Commit remote.client example.backend
       (example.write_then_delete "a/b.txt" "content") example.start).1.2 in
  Batch_Commit remote.client example.backend batch' example.start
  = (Some ErrBatchCommitted, batch', example.start).
Proof.
  cbv zeta.
  apply (committed_is_terminal remote.client example.backend example.backend
           (example.write_then_delete "a/b.txt" "content")
           example.start example.start "x" "y").
  vm_compute. reflexivity.
Defined.

Section CommitTrace.

Context {W : Type}.
Variable client : forall c : Call, W -> Answer c * W.

(** A successful [buildTreeEntries]: one call for every operation, and
    the entries in the order of the queue. *)
Lemma build_entries_shape (b : Backend) (ctx : Ctx)
  (ops : list BatchOperation) :
  forall (entries es : list TreeEntry) (s s' : @State W),
    build_entries client b ctx ops entries s = (Ok es, s') ->
    exists new,
      es = entries ++ new
      /\ trace s' = trace s ++ map (call_of_op b) ops
      /\ sublist (map entryPath new) (map Path ops)
      /\ Forall (fun e => entryMode e = "100644" /\ entryType e = "blob") new
      /\ (writes ops = length ops -> map entryPath new = map Path ops).
Proof.
  induction ops as [|op ops IH]; intros entries es s s' H.
  - cbn in H. injection H as <- <-. exists []. rewrite !app_nil_r.
    repeat split; constructor.
  - cbn [build_entries] in H. unfold call_of_op at 1. unfold writes.
    cbn [map List.filter]. destruct (Type_ op) eqn:Et.
    + unfold bind, call in H.
      destruct (client (CreateBlob (Content op) "utf-8") (world s))
        as [[sha|resp err] w1]; [|discriminate].
      apply IH in H as (new & -> & Htr & Hsub & Hall & Hw).
      cbn [trace] in Htr. eexists (_ :: new).
      split; [now rewrite <- app_assoc|].
      split; [now rewrite Htr, <- app_assoc|].
      split; [now constructor|]. split; [constructor; [split|]; auto|].
      cbn [length map entryPath]. intros Hl. f_equal. apply Hw.
      unfold writes. lia.
    + unfold bind at 1 in H.
      destruct (Exists client b ctx (Path op) s) as [[ex|e] s1] eqn:Ex;
        [|discriminate].
      assert (Hs1 : trace s1
                    = trace s ++ [GetContents (normalizePath (Path op))
                                    (Branch (config b))]).
      { unfold Exists, bind at 1 in Ex.
        destruct (guards b ctx (Some (Path op)) s) as [[e|] s0] eqn:Eg;
          [discriminate|].
        pose proof (guards_cases b ctx (Some (Path op)) s) as [Hs _].
        rewrite Eg in Hs. cbn in Hs. subst s0.
        unfold bind, call in Ex.
        destruct (client _ (world s)) as [r w1].
        destruct (contentsErr r) as [err|].
        - destruct (is_404 err (contentsResp r)); [|discriminate].
          now injection Ex as _ <-.
        - now injection Ex as _ <-. }
      assert (Hlen : (length (List.filter
                                (fun op => match Type_ op with
                                           | BatchOpWrite => true
                                           | BatchOpDelete => false
                                           end) ops) <= length ops)%nat)
        by apply List.filter_length_le.
      destruct ex.
      * apply IH in H as (new & -> & Htr & Hsub & Hall & Hw).
        eexists (_ :: new). split; [now rewrite <- app_assoc|].
        split; [now rewrite Htr, Hs1, <- app_assoc|].
        split; [now constructor|]. split; [constructor; [split|]; auto|].
        cbn [length]. intros Hl. lia.
      * apply IH in H as (new & -> & Htr & Hsub & Hall & Hw).
        exists new. split; [reflexivity|].
        split; [now rewrite Htr, Hs1, <- app_assoc|].
        split; [now constructor|]. split; [exact Hall|].
        cbn [length]. intros Hl. lia.
Qed.

Lemma build_entries_outs (b : Backend) (ctx : Ctx)
  (ops : list BatchOperation) :
  forall (entries es : list TreeEntry) (s s' : @State W),
    build_entries client b ctx ops entries s = (Ok es, s') ->
    exists outs, es = entries ++ concat outs /\ Forall2 entries_of ops outs.
Proof.
  induction ops as [|op ops IH]; intros entries es s s' H.
  - cbn in H. injection H as <- <-. exists []. cbn. rewrite app_nil_r.
    split; [reflexivity|constructor].
  - cbn [build_entries] in H. destruct (Type_ op) eqn:Et.
    + unfold bind, call in H.
      destruct (client (CreateBlob (Content op) "utf-8") (world s))
        as [[sha|resp err] w1]; [|discriminate].
      apply IH in H as (outs & -> & Houts).
      eexists (_ :: outs). cbn [concat]. rewrite <- app_assoc.
      split; [reflexivity|]. constructor; [|exact Houts].
      unfold entries_of. rewrite Et. now exists sha.
    + unfold bind at 1 in H.
      destruct (Exists client b ctx (Path op) s) as [[[|]|e] s1];
        [| |discriminate].
      * apply IH in H as (outs & -> & Houts).
        eexists (_ :: outs). cbn [concat]. rewrite <- app_assoc.
        split; [reflexivity|]. constructor; [|exact Houts].
        unfold entries_of. rewrite Et. now right.
      * apply IH in H as (outs & -> & Houts).
        exists ([] :: outs). cbn [concat app].
        split; [reflexivity|]. constructor; [|exact Houts].
        unfold entries_of. rewrite Et. now left.
Qed.

(** X8: the entry list [buildTreeEntries] returns keeps the order of
    the queue and drops nothing but deletes.  It is the concatenation,
    in queue order, of what each operation adds: every write adds exactly
    one entry, for its path; every delete adds a removal entry for its
    path or nothing.  So its paths are a subsequence of the queued paths,
    every entry is a regular-file blob entry, and a queue of writes alone
    gives one entry for every operation. *)
Theorem buildTreeEntries_keeps_order (b : Backend) (batch : Batch)
  (es : list TreeEntry) (s s' : @State W) :
  buildTreeEntries client b batch s = (Ok es, s') ->
  (exists outs,
      es = concat outs /\ Forall2 entries_of (operations batch) outs)
  /\ sublist (map entryPath es) (map Path (operations batch))
  /\ Forall (fun e => entryMode e = "100644" /\ entryType e = "blob") es
  /\ (writes (operations batch) = length (operations batch) ->
      map entryPath es = map Path (operations batch)).
Proof.
  intros H. split.
  - apply build_entries_outs in H as (outs & -> & Houts). now exists outs.
  - apply build_entries_shape in H as (new & -> & _ & Hsub & Hall & Hw).
    auto.
Qed.

(** X9: the calls of a successful [Commit] on a non-empty batch, in
    order, each on the answer of the one before: the branch ref is read;
    then the commit that ref points to; then [buildTreeEntries] runs,
    with one call per queued operation in queue order (a blob for a
    write, a lookup for a delete); then one tree is created, on the tree
    of the commit that was read and with the entries [buildTreeEntries]
    returned; then one commit, on the tree that was created, whose only
    parent is the commit the ref pointed to; then one update of the same
    ref to the commit that was created, never forced.  No mutation of the
    contents API is among them. *)
Theorem Commit_calls (b : Backend) (batch batch' : Batch) (s s' : @State W) :
  operations batch <> [] ->
  Batch_Commit client b batch s = (None, batch', s') ->
  exists ref currentCommit treeEntries newTree newCommit ref' s1 s2 s3 s4 s5,
    call client (GetRef ("refs/heads/" +:+ Branch (config b))) s
    = (Success ref, s1)
    /\ call client (GetCommit (ObjectSHA ref)) s1 = (Success currentCommit, s2)
    /\ buildTreeEntries client b batch s2 = (Ok treeEntries, s3)
    /\ call client (CreateTree (commitTree currentCommit) treeEntries) s3
       = (Success newTree, s4)
    /\ call client
         (CreateCommit {| commitSHA := ""; commitMessage := message batch;
                          commitTree := treeSHA newTree;
                          commitParents := [ObjectSHA ref];
                          commitAuthor := author_of b |}) s4
       = (Success newCommit, s5)
    /\ call client
         (UpdateRef {| Ref := Ref ref; ObjectSHA := commitSHA newCommit |}
            false) s5
       = (Success ref', s')
    /\ trace s'
       = trace s
         ++ [GetRef ("refs/heads/" +:+ Branch (config b));
             GetCommit (ObjectSHA ref)]
         ++ map (call_of_op b) (operations batch)
         ++ [CreateTree (commitTree currentCommit) treeEntries;
             CreateCommit {| commitSHA := ""; commitMessage := message batch;
                             commitTree := treeSHA newTree;
                             commitParents := [ObjectSHA ref];
                             commitAuthor := author_of b |};
             UpdateRef {| Ref := Ref ref; ObjectSHA := commitSHA newCommit |}
               false]
    /\ List.filter is_mutation (skipn (length (trace s)) (trace s')) = [].
Proof.
  intros Hops. unfold Batch_Commit.
  destruct (committed batch); [discriminate|]. unfold bind at 1.
  pose proof (guards_cases b (b_ctx batch) None s) as [Hs _].
  destruct (guards b (b_ctx batch) None s) as [[e|] s0]; [discriminate|].
  cbn in Hs. subst s0.
  destruct (operations batch) as [|op ops] eqn:Eops; [congruence|].
  cbn [length Nat.eqb]. rewrite <- Eops. clear Hops.
  assert (Hcall : forall (c : Call) (x y : @State W) (a : Answer c),
             call client c x = (a, y) -> trace y = trace x ++ [c]).
  { intros c x y a. unfold call. destruct (client c (world x)).
    now intros [= _ <-]. }
  unfold bind at 1.
  destruct (call client (GetRef _) s) as [[ref|resp err] s1] eqn:E1;
    [|discriminate].
  unfold bind at 1.
  destruct (call client (GetCommit _) s1) as [[cur|resp err] s2] eqn:E2;
    [|discriminate].
  unfold bind at 1.
  destruct (buildTreeEntries client b batch s2) as [[entries|e] s3] eqn:E3;
    [|discriminate].
  unfold bind at 1.
  destruct (call client (CreateTree _ _) s3) as [[newTree|resp err] s4] eqn:E4;
    [|discriminate].
  unfold bind at 1.
  destruct (call client (CreateCommit _) s4) as [[newCommit|resp err] s5]
    eqn:E5; [|discriminate].
  unfold bind.
  destruct (call client (UpdateRef _ _) s5) as [[ref'|resp err] s6] eqn:E6;
    [|discriminate].
  intros [= <- <-].
  exists ref, cur, entries, newTree, newCommit, ref', s1, s2, s3, s4, s5.
  do 6 (split; [first [assumption | reflexivity]|]).
  pose proof E3 as Htr. apply build_entries_shape in Htr as (new & _ & Htr & _).
  apply Hcall in E1, E2, E4, E5, E6.
  assert (Hcalls : forall l : list BatchOperation,
             List.filter is_mutation (map (call_of_op b) l) = []).
  { induction l as [|o l IHl]; [reflexivity|].
    cbn [map List.filter]. unfold call_of_op at 1.
    destruct (Type_ o); exact IHl. }
  assert (Htrace : trace s6
                   = trace s
                     ++ [GetRef ("refs/heads/" +:+ Branch (config b));
                         GetCommit (ObjectSHA ref)]
                     ++ map (call_of_op b) (operations batch)
                     ++ [CreateTree (commitTree cur) entries;
                         CreateCommit
                           {| commitSHA := ""; commitMessage := message batch;
                              commitTree := treeSHA newTree;
                              commitParents := [ObjectSHA ref];
                              commitAuthor := author_of b |};
                         UpdateRef {| Ref := Ref ref;
                                      ObjectSHA := commitSHA newCommit |}
                           false]).
  { rewrite E6, E5, E4, Htr, E2, E1. rewrite <- !app_assoc. reflexivity. }
  split; [exact Htrace|].
  rewrite Htrace, skipn_app, skipn_all, Nat.sub_diag.
  cbn [app skipn List.filter is_mutation].
  rewrite List.filter_app, Hcalls. reflexivity.
Qed.

End CommitTrace.

Lemma Commit_calls_witness :
  exists calls,
    trace (Batch_Commit remote.client example.backend
             (example.write_then_delete "a/b.txt" "content") example.start).2
    = [GetRef "refs/heads/main"; GetCommit "sha4";
       CreateBlob "content" "utf-8"; GetContents "a/b.txt" "main"] ++ calls
    /\ length calls = 3%nat.
Proof.
  destruct (Commit_calls remote.client example.backend
              (example.write_then_delete "a/b.txt" "content")
              (with_committed (example.write_then_delete "a/b.txt" "content")
                 true)
              example.start
              (Batch_Commit remote.client example.backend
                 (example.write_then_delete "a/b.txt" "content")
                 example.start).2)
    as (ref & cur & es & newTree & newCommit & ref' & s1 & s2 & s3 & s4 & s5
        & Href & _ & _ & _ & _ & _ & Htr & _).
  - vm_compute. discriminate.
  - vm_compute. reflexivity.
  - vm_compute in Href. injection Href as <- _.
    eexists. split; [rewrite Htr; reflexivity|reflexivity].
Defined.

Lemma buildTreeEntries_keeps_order_witness :
  sublist
    (map entryPath
       [{| entryPath := "a/b.txt"; entryMode := "100644";
           entryType := "blob"; entrySHA := Some "sha5" |};
        {| entryPath := "a/b.txt"; entryMode := "100644";
           entryType := "blob"; entrySHA := None |}])
    (map Path (operations (example.write_then_delete "a/b.txt" "content"))).
Proof.
  refine (proj1 (proj2 (buildTreeEntries_keeps_order remote.client
                          example.backend
                          (example.write_then_delete "a/b.txt" "content") _
                          example.start _ _))).
  vm_compute. reflexivity.
Defined.

(** ** Writing, reading and deleting on the in-memory store *)

Module store_facts.
Import remote remote_facts.


(** A commit made by the contents API: the branch holds the new tree,
    and blobs and faults are as before. *)
Lemma commit_on_spec (s : Store) ref (t : gmap string string) opts :
  tree_at (commit_on s ref t opts) ref = Some t
  /\ blobs (commit_on s ref t opts) = blobs s
  /\ faults (commit_on s ref t opts) = faults s.
Proof.
  unfold commit_on, tree_at. cbn. rewrite lookup_insert_eq. cbn.
  rewrite lookup_insert_eq. cbn. rewrite lookup_insert_eq. auto.
Qed.

(** The lookup of a file. *)
Lemma get_contents_file (s : Store) (t : gmap string string) p ref sha :
  tree_at s (branch_ref ref) = Some t -> t !! p = Some sha ->
  get_contents s p ref
  = {| fileContent := Some (file_content s sha); directoryContent := None;
       contentsResp := Some 200%Z; contentsErr := None |}.
Proof. intros Ht Hp. unfold get_contents. now rewrite Ht, Hp. Qed.

(** The lookup of a path that is neither a file nor a directory. *)
Lemma get_contents_absent (s : Store) (t : gmap string string) p ref :
  tree_at s (branch_ref ref) = Some t -> present_in t p = false ->
  get_contents s p ref
  = {| fileContent := None; directoryContent := None;
       contentsResp := Some 404%Z;
       contentsErr := Some (ErrorResponse (Some 404%Z)) |}.
Proof.
  intros Ht Hp. unfold get_contents, below. rewrite Ht.
  unfold present_in in Hp. destruct (t !! p); [discriminate|].
  destruct (List.filter (is_below p) (map_to_list t)); [|discriminate].
  cbn. now rewrite Hp.
Qed.

End store_facts.

(** X10: a write is read back.  On a store without faults, for a path
    that passes the guards and is a file of the branch or not there at
    all, a writer made by [NewWriter], written to and closed issues the
    lookup and one create-or-update mutation whose version marker is
    the live blob of the path (none for a new file), [Close] returns
    success, and a [NewReader] on the same path then returns the bytes
    written. *)
Theorem write_then_read (b : Backend) (ctx : @Ctx remote.Store)
  (p content : string) (st : @State remote.Store) (t : gmap string string) :
  closed b = false -> (forall x, ctx x = None) ->
  validatePath p = None -> p <> "" ->
  remote.faults (world st) = [] ->
  remote.tree_at (world st) (remote.branch_ref (Branch (config b))) = Some t ->
  is_Some (t !! normalizePath p)
  \/ remote.present_in t (normalizePath p) = false ->
  exists w0 st1 st2,
    NewWriter b ctx p st = (Ok w0, st)
    /\ let w := (writer_Write w0 content).2 in
       writer_Close remote.client b w st = (None, with_closed w true, st1)
       /\ trace st1
          = trace st
            ++ [GetContents (normalizePath p) (Branch (config b));
                CreateFile (normalizePath p)
                  (write_options b w (t !! normalizePath p))]
       /\ NewReader remote.client b ctx p {| Offset := 0; Limit := 0 |} st1
          = (Ok content, st2).
Proof.
  intros Hc Hx Hv Hne Hf Ht Hp.
  set (np := normalizePath p) in *.
  set (br := Branch (config b)) in *.
  eexists _, _, _. split.
  { unfold NewWriter, bind. rewrite guards_pass by auto.
    cbn [mbind option_bind]. rewrite Hv.
    apply String.eqb_neq in Hne. rewrite Hne. reflexivity. }
  cbv zeta. cbn [writer_Write w_closed snd w_ctx filePath buffer].
  change ("" +:+ content) with content.
  set (w := {| w_ctx := ctx; filePath := np; buffer := content;
               w_closed := false |}).
  assert (Hlook : existingSHA (remote.get_contents (world st) np br)
                  = inl (t !! np)).
  { destruct Hp as [[sha Hs]|Ha].
    - rewrite (store_facts.get_contents_file _ t _ _ sha Ht Hs), Hs.
      reflexivity.
    - rewrite (store_facts.get_contents_absent _ t _ _ Ht Ha).
      unfold remote.present_in in Ha. destruct (t !! np); [discriminate|].
      reflexivity. }
  assert (Hrun : writer_Close remote.client b w st
                 = (None, with_closed w true,
                    after st
                      (remote.handle
                         (CreateFile np (write_options b w (t !! np)))
                         (world st)).2
                      [GetContents np br;
                       CreateFile np (write_options b w (t !! np))])).
  { rewrite (writer_Close_run remote.client b w st
               (remote.get_contents (world st) np br) (world st));
      try reflexivity; try auto.
    2:{ now rewrite remote_facts.client_no_fault. }
    cbv zeta. cbn [filePath w]. rewrite Hlook.
    rewrite remote_facts.client_no_fault by assumption.
    cbn [remote.handle write_options optBranch optSHA]. fold br. rewrite Ht.
    destruct (decide (t !! np = t !! np)) as [_|]; [|congruence].
    reflexivity. }
  split; [exact Hrun|]. split; [reflexivity|].
  (* the read *)
  cbn [remote.handle write_options optBranch optSHA optContent buffer w].
  fold br. rewrite Ht.
  destruct (decide (t !! np = t !! np)) as [_|]; [|congruence].
  cbn [remote.add_blob fst snd].
  match goal with
  | |- context [remote.commit_on ?s0 ?r ?t' ?o] =>
      destruct (store_facts.commit_on_spec s0 r t' o) as (Ht' & Hb' & Hf');
      set (s1 := remote.commit_on s0 r t' o) in *
  end.
  cbn [remote.blobs remote.faults] in Hb', Hf'.
  unfold NewReader, bind at 1. rewrite guards_pass by auto.
  cbn [mbind option_bind]. rewrite Hv. unfold bind.
  rewrite remote_facts.call_no_fault by (cbn [after world]; congruence).
  cbn [after world remote.handle fst snd]. fold np br.
  rewrite (store_facts.get_contents_file s1 _ np br _ Ht'
             (lookup_insert_eq _ _ _)).
  cbn [contentsErr fileContent remote.file_content GetType GetContent].
  rewrite Hb', lookup_insert_eq. cbn [String.eqb Ascii.eqb negb].
  unfold window. cbn. reflexivity.
Qed.

Lemma write_then_read_witness :
  exists st1 st2,
    writer_Close remote.client example.backend
      (example.new_writer "a/b.txt" "world") example.start
    = (None, with_closed (example.new_writer "a/b.txt" "world") true, st1)
    /\ NewReader remote.client example.backend remote.background "a/b.txt"
         {| Offset := 0; Limit := 0 |} st1
       = (Ok "world", st2).
Proof.
  destruct (write_then_read example.backend remote.background "a/b.txt"
              "world" example.start example.base_tree)
    as (w0 & st1 & st2 & Hw & Hclose & _ & Hread).
  - reflexivity.
  - intros x. reflexivity.
  - reflexivity.
  - discriminate.
  - reflexivity.
  - vm_compute. reflexivity.
  - left. vm_compute. eauto.
  - vm_compute in Hw. injection Hw as <-.
    exists st1, st2. split; [exact Hclose|exact Hread].
Defined.

(** X11: delete is idempotent on the store.  On a store without faults,
    the [Delete] of a file of the branch issues the lookup and one delete
    mutation carrying the live blob of the file as version marker,
    returns success and leaves a branch whose tree is the old one
    without that path; a second [Delete] of the same path returns
    success after the lookup alone. *)
Theorem Delete_twice (b : Backend) (ctx : @Ctx remote.Store) (p sha : string)
  (st : @State remote.Store) (t : gmap string string) :
  closed b = false -> (forall x, ctx x = None) ->
  validatePath p = None -> p <> "" ->
  remote.faults (world st) = [] ->
  remote.tree_at (world st) (remote.branch_ref (Branch (config b))) = Some t ->
  t !! normalizePath p = Some sha ->
  remote.present_in (delete (normalizePath p) t) (normalizePath p) = false ->
  exists st1,
    Delete remote.client b ctx p st = (None, st1)
    /\ trace st1
       = trace st
         ++ [GetContents (normalizePath p) (Branch (config b));
             DeleteFile (normalizePath p)
               (delete_options b (normalizePath p) sha)]
    /\ remote.tree_at (world st1) (remote.branch_ref (Branch (config b)))
       = Some (delete (normalizePath p) t)
    /\ Delete remote.client b ctx p st1
       = (None,
          after st1 (world st1)
            [GetContents (normalizePath p) (Branch (config b))]).
Proof.
  intros Hc Hx Hv Hne Hf Ht Hp Hgone.
  set (np := normalizePath p) in *.
  set (br := Branch (config b)) in *.
  assert (Hfirst : Delete remote.client b ctx p st
                   = (None,
                      after st
                        (remote.commit_on (world st) (remote.branch_ref br)
                           (delete np t) (delete_options b np sha))
                        [GetContents np br;
                         DeleteFile np (delete_options b np sha)])).
  { rewrite (Delete_run remote.client b ctx p st
               (remote.get_contents (world st) np br) (world st));
      try assumption; try auto.
    2:{ now rewrite remote_facts.client_no_fault. }
    cbv zeta. fold np br.
    rewrite (store_facts.get_contents_file _ t _ _ sha Ht Hp).
    cbn [contentsErr fileContent remote.file_content GetSHA].
    rewrite remote_facts.client_no_fault by assumption.
    cbn [remote.handle delete_options optBranch optSHA]. fold br.
    rewrite Ht, Hp.
    destruct (decide (Some sha = Some sha)) as [_|]; [|congruence].
    reflexivity. }
  eexists. split; [exact Hfirst|]. split; [reflexivity|].
  destruct (store_facts.commit_on_spec (world st) (remote.branch_ref br)
              (delete np t) (delete_options b np sha)) as (Ht' & _ & Hf').
  cbn [after world]. split; [exact Ht'|].
  rewrite (Delete_run remote.client b ctx p _
             (remote.get_contents
                (remote.commit_on (world st) (remote.branch_ref br)
                   (delete np t) (delete_options b np sha)) np br)
             (remote.commit_on (world st) (remote.branch_ref br)
                (delete np t) (delete_options b np sha)));
    try assumption; try auto.
  2:{ cbn [after world]. rewrite remote_facts.client_no_fault by congruence.
      reflexivity. }
  cbv zeta. fold np br.
  rewrite (store_facts.get_contents_absent _ _ _ _ Ht' Hgone).
  reflexivity.
Qed.

Lemma Delete_twice_witness :
  exists st1,
    Delete remote.client example.backend remote.background "a/b.txt"
      example.start
    = (None, st1)
    /\ Delete remote.client example.backend remote.background "a/b.txt" st1
       = (None, after st1 (world st1) [GetContents "a/b.txt" "main"]).
Proof.
  destruct (Delete_twice example.backend remote.background "a/b.txt" "sha0"
              example.start example.base_tree)
    as (st1 & H1 & _ & _ & H2).
  - reflexivity.
  - intros x. reflexivity.
  - reflexivity.
  - discriminate.
  - reflexivity.
  - vm_compute. reflexivity.
  - vm_compute. reflexivity.
  - vm_compute. reflexivity.
  - exists st1. split; [exact H1|exact H2].
Defined.

(** ** A failed commit moves nothing *)

Module atomic_facts.
Import remote.

Lemma client_refs (c : Call) (s : Store) :
  moves_ref c = false -> refs (client c s).2 = refs s.
Proof.
  intros Hc. unfold client.
  assert (Hh : forall s0, refs (handle c s0).2 = refs s0).
  { intros s0. destruct c; try discriminate; cbn.
    - reflexivity.
    - destruct (refs s0 !! ref); reflexivity.
    - destruct (commits s0 !! sha); reflexivity.
    - reflexivity.
    - destruct (trees s0 !! baseTree); reflexivity.
    - reflexivity.
    - destruct (tree_at s0 (branch_ref sha)); reflexivity. }
  destruct (faults s) as [|[[resp err]|] fs]; [apply Hh|reflexivity|].
  rewrite Hh. reflexivity.
Qed.

Lemma call_refs (c : Call) (st : @State Store) :
  moves_ref c = false -> refs (world (call client c st).2) = refs (world st).
Proof.
  intros Hc. unfold call. pose proof (client_refs c (world st) Hc) as H.
  destruct (client c (world st)). exact H.
Qed.

Lemma UpdateRef_failed ref force (st : @State Store) :
  (exists resp err,
      (call client (UpdateRef ref force) st).1 = Failure resp err) ->
  refs (world (call client (UpdateRef ref force) st).2) = refs (world st).
Proof.
  unfold call, client.
  destruct (faults (world st)) as [|[[resp err]|] fs]; cbn.
  - destruct (refs (world st) !! Ref ref); [|reflexivity].
    destruct (commits (world st) !! ObjectSHA ref); [|reflexivity].
    destruct (force || _); [|reflexivity].
    intros (? & ? & [=]).
  - reflexivity.
  - destruct (refs (world st) !! Ref ref); [|reflexivity].
    destruct (commits (world st) !! ObjectSHA ref); [|reflexivity].
    destruct (force || _); [|reflexivity].
    intros (? & ? & [=]).
Qed.

Lemma Exists_refs (b : Backend) (ctx : Ctx) p (st : @State Store) :
  refs (world (Exists client b ctx p st).2) = refs (world st).
Proof.
  unfold Exists, bind at 1.
  pose proof (guards_cases b ctx (Some p) st) as [Hs _].
  destruct (guards b ctx (Some p) st) as [[e|] s0]; cbn in Hs; subst s0;
    [reflexivity|].
  unfold bind.
  pose proof (call_refs (GetContents (normalizePath p) (Branch (config b)))
                st eq_refl) as H.
  destruct (call client _ st) as [r s1]. cbn in H.
  destruct (contentsErr r) as [err|]; [|exact H].
  destruct (is_404 err (contentsResp r)); exact H.
Qed.

Lemma build_entries_refs (b : Backend) (ctx : Ctx) ops :
  forall entries (st : @State Store),
    refs (world (build_entries client b ctx ops entries st).2)
    = refs (world st).
Proof.
  induction ops as [|op ops IH]; intros entries st; [reflexivity|].
  cbn [build_entries]. destruct (Type_ op).
  - unfold bind.
    pose proof (call_refs (CreateBlob (Content op) "utf-8") st eq_refl) as H.
    destruct (call client _ st) as [[sha|resp err] s1]; cbn in H.
    + now rewrite IH.
    + exact H.
  - unfold bind. pose proof (Exists_refs b ctx (Path op) st) as H.
    destruct (Exists client b ctx (Path op) st) as [[ex|e] s1]; cbn in H.
    + destruct ex; now rewrite IH.
    + exact H.
Qed.

End atomic_facts.

(** X12: a [Commit] that returns an error leaves every branch of the
    store where it was, whatever the store holds and whichever call
    failed: the ref is only moved by the last call, and an update that
    fails moves nothing. *)
Theorem failed_Commit_moves_no_ref (b : Backend) (batch batch' : Batch)
  (st st' : @State remote.Store) (e : error) :
  Batch_Commit remote.client b batch st = (Some e, batch', st') ->
  remote.refs (world st') = remote.refs (world st).
Proof.
  unfold Batch_Commit. destruct (committed batch); [now intros [= _ _ <-]|].
  unfold bind at 1.
  pose proof (guards_cases b (b_ctx batch) None st) as [Hs _].
  destruct (guards b (b_ctx batch) None st) as [[e0|] s0]; cbn in Hs; subst s0;
    [now intros [= _ _ <-]|].
  destruct (length (operations batch) =? 0)%nat; [discriminate|].
  unfold bind at 1.
  pose proof (atomic_facts.call_refs
                (GetRef ("refs/heads/" +:+ Branch (config b))) st eq_refl)
    as H1.
  destruct (call remote.client (GetRef _) st) as [[ref|resp err] s1];
    cbn in H1; [|intros [= _ _ <-]; exact H1].
  unfold bind at 1.
  pose proof (atomic_facts.call_refs (GetCommit (ObjectSHA ref)) s1 eq_refl)
    as H2.
  destruct (call remote.client (GetCommit _) s1) as [[cur|resp err] s2];
    cbn in H2; [|intros [= _ _ <-]; congruence].
  unfold bind at 1. unfold buildTreeEntries.
  pose proof (atomic_facts.build_entries_refs b (b_ctx batch)
                (operations batch) [] s2) as H3.
  destruct (build_entries remote.client b (b_ctx batch) (operations batch)
              [] s2) as [[entries|e0] s3];
    cbn in H3; [|intros [= _ _ <-]; congruence].
  unfold bind at 1.
  pose proof (atomic_facts.call_refs
                (CreateTree (commitTree cur) entries) s3 eq_refl) as H4.
  destruct (call remote.client (CreateTree _ _) s3)
    as [[newTree|resp err] s4];
    cbn in H4; [|intros [= _ _ <-]; congruence].
  unfold bind at 1.
  match goal with
  | |- context [call remote.client (CreateCommit ?c) s4] =>
      pose proof (atomic_facts.call_refs (CreateCommit c) s4 eq_refl) as H5;
      destruct (call remote.client (CreateCommit c) s4)
        as [[newCommit|resp err] s5]
  end;
    cbn in H5; [|intros [= _ _ <-]; congruence].
  unfold bind.
  match goal with
  | |- context [call remote.client (UpdateRef ?r false) s5] =>
      pose proof (atomic_facts.UpdateRef_failed r false s5) as H6;
      destruct (call remote.client (UpdateRef r false) s5)
        as [[ref'|resp err] s6]
  end; [discriminate|].
  intros [= _ _ <-]. cbn in H6. rewrite H6 by eauto. congruence.
Qed.

Lemma failed_Commit_moves_no_ref_witness :
  remote.refs
    (world (Batch_Commit remote.client example.backend
              (example.write_then_delete "a/b.txt" "content")
              (example.start_failing example.losing_race)).2)
  = remote.refs (world (example.start_failing example.losing_race)).
Proof.
  eapply (failed_Commit_moves_no_ref example.backend
            (example.write_then_delete "a/b.txt" "content")
            (example.write_then_delete "a/b.txt" "content")
            (example.start_failing example.losing_race) _
            (ErrWrapped (ErrorResponse (Some 422%Z)))).
  vm_compute. reflexivity.
Defined.

(** ** What a commit of a batch holds *)

Module commit_facts.
Import remote remote_facts.


Section Build.

Variable b : @Backend.
Variable ctx : @Ctx Store.
Variable t : gmap string string.
Hypothesis b_open : closed b = false.
Hypothesis ctx_live : forall w, ctx w = None.


End Build.





End commit_facts.








(** ** The shape of a normalized path *)

Module canonical_facts.
Import path clean_spec clean_facts.

(** A normalized path is a stack of elements joined by slashes: leading
    [..] elements, then elements that are neither [.] nor [..]. *)
Lemma normalize_bytes_form p :
  exists k elems,
    Forall normal elems /\ normalize_bytes p = join (dots k ++ elems).
Proof.
  destruct p as [|c p']; [exists 0%nat, []; split; [constructor|reflexivity]|].
  destruct (clean_bytes_reach (c :: p')) as (rooted & k & elems & He & Hk & E);
    [discriminate|].
  unfold normalize_bytes. rewrite E. clear E. cbn [state_of fst].
  destruct rooted.
  - rewrite (Hk eq_refl). cbn [root app length Nat.eqb trim_slash].
    rewrite Ascii.eqb_refl.
    destruct (decide (join (dots 0 ++ elems) = [dot])).
    + exists 0%nat, []. split; [constructor|reflexivity].
    + exists 0%nat, elems. split; [assumption|reflexivity].
  - cbn [root app]. pose proof (valid_stack k elems He) as Hv.
    destruct (length (join (dots k ++ elems)) =? 0)%nat.
    + exists 0%nat, []. split; [constructor|reflexivity].
    + rewrite trim_slash_join by assumption.
      destruct (decide (join (dots k ++ elems) = [dot])).
      * exists 0%nat, []. split; [constructor|reflexivity].
      * exists k, elems. split; [assumption|reflexivity].
Qed.

Lemma segments_element t rest :
  ~ In slash t ->
  segments (string_of_list_ascii (t ++ slash :: rest))
  = string_of_list_ascii t :: segments (string_of_list_ascii rest).
Proof.
  induction t as [|c t IH]; intros Hn.
  - cbn. reflexivity.
  - cbn [app string_of_list_ascii segments].
    replace (Ascii.eqb c slash) with false
      by (symmetry; apply eqb_slash_false; intros ->; apply Hn; now left).
    rewrite IH by (intros H; apply Hn; now right). reflexivity.
Qed.

Lemma segments_last t :
  ~ In slash t ->
  segments (string_of_list_ascii t) = [string_of_list_ascii t].
Proof.
  induction t as [|c t IH]; intros Hn; [reflexivity|].
  cbn [string_of_list_ascii segments].
  replace (Ascii.eqb c slash) with false
    by (symmetry; apply eqb_slash_false; intros ->; apply Hn; now left).
  rewrite IH by (intros H; apply Hn; now right). reflexivity.
Qed.

(** The segments of joined elements are the elements. *)
Lemma segments_join stk :
  Forall valid stk -> stk <> [] ->
  segments (string_of_list_ascii (join stk)) = map string_of_list_ascii stk.
Proof.
  induction stk as [|t [|t' ts] IH]; intros Hv Hne; [congruence| |].
  - inversion Hv as [|? ? [_ Hs] _]; subst. cbn [join map].
    now apply segments_last.
  - inversion Hv as [|? ? [_ Hs] Hv']; subst.
    change (join (t :: t' :: ts)) with (t ++ slash :: join (t' :: ts)).
    rewrite segments_element by assumption.
    rewrite IH by (assumption || discriminate). reflexivity.
Qed.

Lemma string_of_bytes_inj a b :
  string_of_list_ascii a = string_of_list_ascii b -> a = b.
Proof.
  intros H. apply (f_equal list_ascii_of_string) in H.
  now rewrite !list_ascii_of_string_of_list_ascii in H.
Qed.

End canonical_facts.

(** X15: what [normalizePath] returns for a validated path is canonical.
    For every path that passes [validatePath], the normalized path is
    empty (the root) or each of its segments, the pieces between its
    slashes, is non-empty and is neither [.] nor [..]: it has no leading,
    trailing or doubled slash. *)
Theorem normalizePath_canonical (p : string) :
  validatePath p = None ->
  normalizePath p = ""
  \/ Forall (fun seg => seg <> "" /\ seg <> "." /\ seg <> "..")
       (segments (normalizePath p)).
Proof.
  intros Hv.
  destruct (String.eqb (normalizePath p) "") eqn:En;
    [left; now apply String.eqb_eq|right].
  apply String.eqb_neq in En.
  pose proof (normalizePath_valid p Hv) as Hn.
  unfold validatePath in Hn.
  destruct (String.eqb (normalizePath p) "") eqn:En';
    [apply String.eqb_eq in En'; congruence|].
  destruct (strings.Contains (normalizePath p) "..") eqn:Ec; [discriminate|].
  clear Hn En'.
  assert (Hdd : ~ In ".." (segments (normalizePath p))).
  { intros Hin. destruct (segments_in _ _ Hin) as (a & b & E).
    rewrite E, Contains_app in Ec. discriminate. }
  revert En Hdd. rewrite normalizePath_bytes.
  destruct (canonical_facts.normalize_bytes_form (list_ascii_of_string p))
    as (k & elems & He & ->).
  intros En Hdd.
  pose proof (clean_facts.valid_stack k elems He) as Hstk.
  assert (Hne : clean_spec.dots k ++ elems <> []).
  { intros H. apply En. now rewrite H. }
  rewrite canonical_facts.segments_join in * by assumption.
  apply Forall_forall. intros seg Hin.
  apply list_elem_of_In, in_map_iff in Hin. destruct Hin as (t & <- & Ht).
  assert (Hdots : t <> [path.dot; path.dot]).
  { intros ->. apply Hdd. apply in_map_iff.
    exists [path.dot; path.dot]. split; [reflexivity|assumption]. }
  apply in_app_or in Ht. destruct Ht as [Ht|Ht].
  - apply repeat_spec in Ht. congruence.
  - rewrite List.Forall_forall in He. destruct (He t Ht) as ((Hn0 & _) & Hd & _).
    repeat split; intros H.
    + apply Hn0. now apply canonical_facts.string_of_bytes_inj.
    + apply Hd. now apply canonical_facts.string_of_bytes_inj.
    + apply Hdots. now apply canonical_facts.string_of_bytes_inj.
Qed.

Lemma normalizePath_canonical_witness :
  normalizePath "/docs//./guide/" = ""
  \/ Forall (fun seg => seg <> "" /\ seg <> "." /\ seg <> "..")
       (segments (normalizePath "/docs//./guide/")).
Proof.
  apply (normalizePath_canonical "/docs//./guide/"). reflexivity.
Defined.

(** ** Commit message templates and configuration *)

Lemma replace_from_absent s old new :
  strings.Contains s old = false -> strings.replace_from 0 s old new = s.
Proof.
  induction s as [|c s IH]; [reflexivity|].
  cbn [strings.Contains strings.replace_from]. intros H.
  apply orb_false_elim in H. destruct H as [Hp Hc].
  rewrite Hp, IH by assumption. reflexivity.
Qed.

(** X16: a template without the placeholder is the message of every
    write.  If the configured template is not empty and does not contain
    [{path}], [FormatCommitMessage] returns it unchanged for every
    path. *)
Theorem FormatCommitMessage_without_placeholder (c : Config) (p : string) :
  CommitMessage c <> "" ->
  strings.Contains (CommitMessage c) "{path}" = false ->
  FormatCommitMessage c p = CommitMessage c.
Proof.
  intros Hne Hc. unfold FormatCommitMessage.
  apply String.eqb_neq in Hne. rewrite Hne.
  unfold strings.ReplaceAll. now apply replace_from_absent.
Qed.

Lemma FormatCommitMessage_without_placeholder_witness :
  FormatCommitMessage (set_CommitMessage "Sync files" example.cfg) "a/b.txt"
  = CommitMessage (set_CommitMessage "Sync files" example.cfg).
Proof.
  apply (FormatCommitMessage_without_placeholder
           (set_CommitMessage "Sync files" example.cfg) "a/b.txt").
  - discriminate.
  - reflexivity.
Defined.

(** X17: the empty template is the default template, and the path is
    inserted once and not scanned again.  For every configuration whose
    template is empty or the default one and for every path, also one
    that contains [{path}] itself, the message is [Update ], the path,
    [ via omnistorage]. *)
Theorem FormatCommitMessage_default (c : Config) (p : string) :
  FormatCommitMessage (set_CommitMessage "" c) p
  = "Update " +:+ p +:+ " via omnistorage"
  /\ FormatCommitMessage
       (set_CommitMessage (CommitMessage DefaultConfig) c) p
     = "Update " +:+ p +:+ " via omnistorage".
Proof.
  split; reflexivity.
Qed.

Module config_facts.

Lemma eqb_empty_neq (v : string) : String.eqb v "" = false <-> v <> "".
Proof. apply String.eqb_neq. Qed.

Lemma Validate_None (c : Config) :
  Validate c = None <-> Owner c <> "" /\ Repo c <> "" /\ Token c <> "".
Proof.
  unfold Validate.
  destruct (String.eqb (Owner c) "") eqn:Eo;
    [apply String.eqb_eq in Eo; split; [discriminate|tauto]|].
  destruct (String.eqb (Repo c) "") eqn:Er;
    [apply String.eqb_eq in Er; split; [discriminate|tauto]|].
  destruct (String.eqb (Token c) "") eqn:Et;
    [apply String.eqb_eq in Et; split; [discriminate|tauto]|].
  apply String.eqb_neq in Eo, Er, Et. tauto.
Qed.

Lemma filled_default : filled DefaultConfig.
Proof. repeat split; discriminate. Qed.

Lemma filled_if_nonempty_Branch v c :
  filled c -> filled (if_nonempty v set_Branch c).
Proof.
  unfold if_nonempty, filled. destruct (String.eqb v "") eqn:E; [auto|].
  apply String.eqb_neq in E. cbn. tauto.
Qed.

Lemma filled_if_nonempty_UploadURL v c :
  filled c -> filled (if_nonempty v set_UploadURL c).
Proof.
  unfold if_nonempty, filled. destruct (String.eqb v "") eqn:E; [auto|].
  apply String.eqb_neq in E. cbn. tauto.
Qed.

Lemma filled_if_nonempty_BaseURL v c :
  filled c -> filled (if_nonempty v set_BaseURL c).
Proof.
  unfold if_nonempty, filled. destruct (String.eqb v "") eqn:E; [auto|].
  apply String.eqb_neq in E. cbn. tauto.
Qed.

Lemma filled_if_nonempty_CommitMessage v c :
  filled c -> filled (if_nonempty v set_CommitMessage c).
Proof.
  unfold if_nonempty, filled. destruct (String.eqb v "") eqn:E; [auto|].
  apply String.eqb_neq in E. cbn. tauto.
Qed.

Lemma filled_first_nonempty_BaseURL v1 v2 c :
  filled c -> filled (first_nonempty v1 v2 set_BaseURL c).
Proof.
  unfold first_nonempty, filled.
  destruct (String.eqb v1 "") eqn:E1; cbn [negb].
  - destruct (String.eqb v2 "") eqn:E2; cbn [negb]; [auto|].
    apply String.eqb_neq in E2. cbn. tauto.
  - apply String.eqb_neq in E1. cbn. tauto.
Qed.

Lemma filled_author a e c : filled c -> filled (author_from a e c).
Proof. unfold author_from. now destruct (_ || _). Qed.

Lemma filled_with_defaults c : filled c -> with_defaults c = c.
Proof.
  intros (Hb & Hu & Hup & _). unfold with_defaults.
  apply String.eqb_neq in Hb, Hu, Hup. now rewrite Hb, Hu, Hup.
Qed.

Lemma first_nonempty_value v1 v2 :
  (if negb (String.eqb v1 "") then v1 else v2) <> ""
  <-> v1 <> "" \/ v2 <> "".
Proof.
  destruct (String.eqb v1 "") eqn:E; cbn [negb].
  - apply String.eqb_eq in E. subst. split; [tauto|]. now intros [H|H].
  - apply String.eqb_neq in E. tauto.
Qed.

Section Fields.

Context {A : Type} (f : Config -> A) (set : string -> Config -> Config).
Hypothesis kept : forall v c, f (set v c) = f c.

Lemma kept_if_nonempty v c : f (if_nonempty v set c) = f c.
Proof. unfold if_nonempty. now destruct (String.eqb v ""). Qed.

Lemma kept_first_nonempty v1 v2 c : f (first_nonempty v1 v2 set c) = f c.
Proof.
  unfold first_nonempty.
  destruct (String.eqb v1 ""), (String.eqb v2 ""); cbn [negb]; auto.
Qed.

Lemma kept_if_present m k c : f (if_present m k set c) = f c.
Proof. unfold if_present. now destruct (m !! k). Qed.

End Fields.

Lemma kept_author {A : Type} (f : Config -> A) a e c :
  (forall v c, f (set_CommitAuthor v c) = f c) -> f (author_from a e c) = f c.
Proof. intros H. unfold author_from. now destruct (_ || _). Qed.

Lemma first_nonempty_set {A : Type} (f : Config -> A)
  (set : string -> Config -> Config) v1 v2 c (d : string -> A) :
  (forall v c, f (set v c) = d v) ->
  f (first_nonempty v1 v2 set c)
  = if negb (String.eqb v1 "") then d v1
    else if negb (String.eqb v2 "") then d v2 else f c.
Proof.
  intros H. unfold first_nonempty.
  destruct (String.eqb v1 ""), (String.eqb v2 ""); cbn [negb]; auto.
Qed.

End config_facts.

(** X18: a configuration loaded from a map.  For every map,
    [ConfigFromMap] gives a configuration that [Validate] accepts exactly
    when the map has a non-empty owner, repo and token; its branch, both
    of its URLs and its template are never empty, an empty value in the
    map leaving the default in place, so that the defaults of [New]
    change nothing in it. *)
Theorem ConfigFromMap_valid (m : gmap string string) :
  (Validate (ConfigFromMap m) = None
   <-> default "" (m !! "owner") <> "" /\ default "" (m !! "repo") <> ""
       /\ default "" (m !! "token") <> "")
  /\ Branch (ConfigFromMap m) <> "" /\ BaseURL (ConfigFromMap m) <> ""
  /\ UploadURL (ConfigFromMap m) <> "" /\ CommitMessage (ConfigFromMap m) <> ""
  /\ with_defaults (ConfigFromMap m) = ConfigFromMap m.
Proof.
  assert (Hf : filled (ConfigFromMap m)).
  { unfold ConfigFromMap. cbv zeta.
    apply config_facts.filled_author,
      config_facts.filled_if_nonempty_CommitMessage,
      config_facts.filled_if_nonempty_UploadURL,
      config_facts.filled_if_nonempty_BaseURL.
    unfold if_present at 1. 
    assert (H : filled
                  (if_nonempty (default "" (m !! "branch")) set_Branch
                     (if_present m "repo" set_Repo
                        (if_present m "owner" set_Owner DefaultConfig)))).
    { apply config_facts.filled_if_nonempty_Branch. unfold if_present.
      destruct (m !! "owner"), (m !! "repo"); repeat split; discriminate. }
    destruct (m !! "token"); [|exact H].
    destruct H as (? & ? & ? & ?). repeat split; assumption. }
  split.
  - rewrite config_facts.Validate_None.
    assert (Ho : Owner (ConfigFromMap m) = default "" (m !! "owner")).
    { unfold ConfigFromMap, author_from, if_nonempty, if_present. cbv zeta.
      repeat match goal with
             | |- context [if ?x then _ else _] => destruct x
             | |- context [match m !! ?k with _ => _ end] => destruct (m !! k)
             end; reflexivity. }
    assert (Hr : Repo (ConfigFromMap m) = default "" (m !! "repo")).
    { unfold ConfigFromMap, author_from, if_nonempty, if_present. cbv zeta.
      repeat match goal with
             | |- context [if ?x then _ else _] => destruct x
             | |- context [match m !! ?k with _ => _ end] => destruct (m !! k)
             end; reflexivity. }
    assert (Ht : Token (ConfigFromMap m) = default "" (m !! "token")).
    { unfold ConfigFromMap, author_from, if_nonempty, if_present. cbv zeta.
      repeat match goal with
             | |- context [if ?x then _ else _] => destruct x
             | |- context [match m !! ?k with _ => _ end] => destruct (m !! k)
             end; reflexivity. }
    rewrite Ho, Hr, Ht. reflexivity.
  - destruct Hf as (? & ? & ? & ?). do 4 (split; [assumption|]).
    apply config_facts.filled_with_defaults. repeat split; assumption.
Qed.

Ltac env_field F :=
  unfold ConfigFromEnv; cbv zeta;
  repeat first
    [ rewrite config_facts.kept_author by reflexivity
    | rewrite config_facts.kept_if_nonempty by reflexivity
    | rewrite (config_facts.kept_first_nonempty F set_Owner) by reflexivity
    | rewrite (config_facts.kept_first_nonempty F set_Repo) by reflexivity
    | rewrite (config_facts.kept_first_nonempty F set_Token) by reflexivity
    | rewrite (config_facts.kept_first_nonempty F set_BaseURL) by reflexivity
    | rewrite (config_facts.first_nonempty_set F _ _ _ _ (fun v => v))
        by reflexivity ].

(** X19: a configuration loaded from the environment.  For every
    environment, [ConfigFromEnv] gives a configuration that [Validate]
    accepts exactly when the owner, the repo and the token each have a
    non-empty value under their [OMNISTORAGE_GITHUB_] name or under
    their [GITHUB_] name; a non-empty [OMNISTORAGE_GITHUB_] value is the
    one taken; the branch, both URLs and the template are never empty,
    so that the defaults of [New] change nothing in it. *)
Theorem ConfigFromEnv_valid (Getenv : string -> string) :
  (Validate (ConfigFromEnv Getenv) = None
   <-> (Getenv "OMNISTORAGE_GITHUB_OWNER" <> "" \/ Getenv "GITHUB_OWNER" <> "")
       /\ (Getenv "OMNISTORAGE_GITHUB_REPO" <> "" \/ Getenv "GITHUB_REPO" <> "")
       /\ (Getenv "OMNISTORAGE_GITHUB_TOKEN" <> ""
           \/ Getenv "GITHUB_TOKEN" <> ""))
  /\ (Getenv "OMNISTORAGE_GITHUB_OWNER" <> "" ->
      Owner (ConfigFromEnv Getenv) = Getenv "OMNISTORAGE_GITHUB_OWNER")
  /\ (Getenv "OMNISTORAGE_GITHUB_REPO" <> "" ->
      Repo (ConfigFromEnv Getenv) = Getenv "OMNISTORAGE_GITHUB_REPO")
  /\ (Getenv "OMNISTORAGE_GITHUB_TOKEN" <> "" ->
      Token (ConfigFromEnv Getenv) = Getenv "OMNISTORAGE_GITHUB_TOKEN")
  /\ filled (ConfigFromEnv Getenv)
  /\ with_defaults (ConfigFromEnv Getenv) = ConfigFromEnv Getenv.
Proof.
  set (pick := fun v1 v2 : string =>
                 if negb (String.eqb v1 "") then v1 else v2).
  assert (Ho : Owner (ConfigFromEnv Getenv)
               = pick (Getenv "OMNISTORAGE_GITHUB_OWNER")
                   (Getenv "GITHUB_OWNER")).
  { unfold pick. env_field Owner. cbn [Owner DefaultConfig].
    destruct (String.eqb (Getenv "GITHUB_OWNER") "") eqn:E2; cbn [negb];
      [apply String.eqb_eq in E2; now rewrite E2|reflexivity]. }
  assert (Hr : Repo (ConfigFromEnv Getenv)
               = pick (Getenv "OMNISTORAGE_GITHUB_REPO")
                   (Getenv "GITHUB_REPO")).
  { unfold pick. env_field Repo. cbn [Repo DefaultConfig].
    destruct (String.eqb (Getenv "GITHUB_REPO") "") eqn:E2; cbn [negb];
      [apply String.eqb_eq in E2; now rewrite E2|reflexivity]. }
  assert (Ht : Token (ConfigFromEnv Getenv)
               = pick (Getenv "OMNISTORAGE_GITHUB_TOKEN")
                   (Getenv "GITHUB_TOKEN")).
  { unfold pick. env_field Token. cbn [Token DefaultConfig].
    destruct (String.eqb (Getenv "GITHUB_TOKEN") "") eqn:E2; cbn [negb];
      [apply String.eqb_eq in E2; now rewrite E2|reflexivity]. }
  assert (Hpick : forall v1 v2, v1 <> "" -> pick v1 v2 = v1).
  { intros v1 v2 H. unfold pick. apply String.eqb_neq in H. now rewrite H. }
  assert (Hf : filled (ConfigFromEnv Getenv)).
  { unfold ConfigFromEnv. cbv zeta.
    apply config_facts.filled_author,
      config_facts.filled_if_nonempty_CommitMessage,
      config_facts.filled_if_nonempty_UploadURL,
      config_facts.filled_first_nonempty_BaseURL.
    assert (H : filled
                  (if_nonempty (Getenv "OMNISTORAGE_GITHUB_BRANCH") set_Branch
                     (first_nonempty (Getenv "OMNISTORAGE_GITHUB_REPO")
                        (Getenv "GITHUB_REPO") set_Repo
                        (first_nonempty (Getenv "OMNISTORAGE_GITHUB_OWNER")
                           (Getenv "GITHUB_OWNER") set_Owner DefaultConfig)))).
    { apply config_facts.filled_if_nonempty_Branch. unfold first_nonempty.
      repeat match goal with
             | |- context [String.eqb ?a ?b] => destruct (String.eqb a b)
             end; repeat split; discriminate. }
    unfold first_nonempty at 1.
    destruct H as (? & ? & ? & ?).
    destruct (negb _); [|destruct (negb _)]; repeat split; assumption. }
  split.
  { rewrite config_facts.Validate_None, Ho, Hr, Ht. unfold pick.
    rewrite !config_facts.first_nonempty_value. reflexivity. }
  split; [intros H; rewrite Ho; now apply Hpick|].
  split; [intros H; rewrite Hr; now apply Hpick|].
  split; [intros H; rewrite Ht; now apply Hpick|].
  split; [exact Hf|]. now apply config_facts.filled_with_defaults.
Qed.

(** X20: the backend [New] returns.  Whenever [New] returns a backend,
    that backend is open, its configuration passes [Validate], its
    branch and both of its URLs are non-empty, and the owner, repo,
    token, template and author are those given; [New] reports a
    configuration error exactly when [Validate] rejects the given
    configuration, whatever the URLs are. *)
Theorem New_backend (WithEnterpriseURLs : string -> string -> bool)
  (cfg : Config) (b : Backend) :
  New WithEnterpriseURLs cfg = inr b ->
  closed b = false
  /\ Validate (config b) = None
  /\ Branch (config b) <> "" /\ BaseURL (config b) <> ""
  /\ UploadURL (config b) <> ""
  /\ (Owner (config b), Repo (config b), Token (config b))
     = (Owner cfg, Repo cfg, Token cfg)
  /\ CommitMessage (config b) = CommitMessage cfg
  /\ cfgCommitAuthor (config b) = cfgCommitAuthor cfg
  /\ (forall cfg' e, New WithEnterpriseURLs cfg' = inl (InvalidConfig e)
                     <-> Validate cfg' = Some e).
Proof.
  intros HN.
  assert (Hd : forall c,
             Branch (with_defaults c) <> "" /\ BaseURL (with_defaults c) <> ""
             /\ UploadURL (with_defaults c) <> ""
             /\ Owner (with_defaults c) = Owner c
             /\ Repo (with_defaults c) = Repo c
             /\ Token (with_defaults c) = Token c
             /\ CommitMessage (with_defaults c) = CommitMessage c
             /\ cfgCommitAuthor (with_defaults c) = cfgCommitAuthor c).
  { intros c. unfold with_defaults.
    destruct (String.eqb (Branch c) "") eqn:Eb;
      destruct (String.eqb (BaseURL c) "") eqn:Eu;
      destruct (String.eqb (UploadURL c) "") eqn:Ep;
      cbn [Branch BaseURL UploadURL set_Branch set_BaseURL set_UploadURL];
      rewrite ?Eu;
      cbn [Branch BaseURL UploadURL set_Branch set_BaseURL set_UploadURL];
      rewrite ?Ep;
      cbn [Branch BaseURL UploadURL Owner Repo Token CommitMessage
           cfgCommitAuthor set_Branch set_BaseURL set_UploadURL];
      try apply String.eqb_neq in Eb; try apply String.eqb_neq in Eu;
      try apply String.eqb_neq in Ep;
      repeat split; first [discriminate | assumption | reflexivity]. }
  assert (Hcfg : Validate cfg = None /\ config b = with_defaults cfg
                 /\ closed b = false).
  { unfold New in HN. destruct (Validate cfg); [discriminate|].
    destruct (negb _); [destruct (WithEnterpriseURLs _ _)|];
      try discriminate; injection HN as <-; auto. }
  destruct Hcfg as (Hv & -> & Hc).
  destruct (Hd cfg) as (Hb & Hu & Hp & Ho & Hr & Ht & Hm & Ha).
  split; [exact Hc|]. split.
  { unfold Validate in *. now rewrite Ho, Hr, Ht. }
  do 3 (split; [assumption|]).
  split; [now rewrite Ho, Hr, Ht|]. do 2 (split; [assumption|]).
  intros cfg' e. unfold New. destruct (Validate cfg') as [e'|].
  - split; intros [= ->]; reflexivity.
  - split; [|discriminate].
    destruct (negb _); [destruct (WithEnterpriseURLs _ _)|]; discriminate.
Qed.

Lemma New_backend_witness :
  closed example.backend = false
  /\ Validate (config example.backend) = None
  /\ Branch (config example.backend) <> ""
  /\ BaseURL (config example.backend) <> ""
  /\ UploadURL (config example.backend) <> ""
  /\ (Owner (config example.backend), Repo (config example.backend),
      Token (config example.backend))
     = (Owner (set_Branch "" example.cfg), Repo (set_Branch "" example.cfg),
        Token (set_Branch "" example.cfg))
  /\ CommitMessage (config example.backend)
     = CommitMessage (set_Branch "" example.cfg)
  /\ cfgCommitAuthor (config example.backend)
     = cfgCommitAuthor (set_Branch "" example.cfg)
  /\ (forall cfg' e, New (fun _ _ => true) cfg' = inl (InvalidConfig e)
                     <-> Validate cfg' = Some e).
Proof.
  apply (New_backend (fun _ _ => true) (set_Branch "" example.cfg)
           example.backend).
  reflexivity.
Defined.
